(** * preprocess_wta: a shallow embedding of the chronological feature engine

    The development follows [scripts/preprocess_wta.py] function by function:
    the score decoder ([parse_score]), the rating engine ([compute_elo]), the
    head-to-head tracker ([compute_head_to_head]), the long expansion and the
    grouped rolling statistics ([expand_long], [add_rolling_features],
    [aggregate_back]) and the driver ([preprocess], [run_pipeline]).

    Conventions of the embedding.
    - Python [float] values are idealised as real numbers ([R]); a missing
      value ([NaN]) of a numeric column is [None].  Rounding is therefore not
      represented: equalities between ratings are equalities of reals.  The
      one question that rounding decides, whether the two increments of a
      match cancel, is put to a binary64 rendering of lines 166-169
      ([Binary64]).
    - Python [int] is [Z]; [str] is [string] (characters are bytes, so the
      digit class of the score pattern is the ASCII digits).
    - A [dict] is a [gmap]; a [defaultdict] is a [gmap] read through
      [default].
    - A data frame is a list of rows; a grouped series is the sub-list of the
      rows of the group, in frame order. *)

From Stdlib Require Import Reals Lra ZArith String Ascii List Permutation Sorted.
From Stdlib Require DecimalString DecimalNat Floats.
From stdpp Require Import base list gmap strings sorting.

Local Open Scope Z_scope.

(** ** Score decoder *)

Module Score.

(** [\d] on byte strings. *)
Definition is_digit (c : ascii) : bool :=
  let n := N_of_ascii c in ((48 <=? n) && (n <=? 57))%N.

(** [str.strip()] removes these characters at both ends. *)
Definition is_space (c : ascii) : bool :=
  let n := N_of_ascii c in
  (((9 <=? n) && (n <=? 13)) || ((28 <=? n) && (n <=? 32)))%N.

Definition lower_char (c : ascii) : ascii :=
  let n := N_of_ascii c in
  if ((65 <=? n) && (n <=? 90))%N then ascii_of_N (n + 32) else c.

Definition lower (s : list ascii) : list ascii := map lower_char s.

Fixpoint lstrip (s : list ascii) : list ascii :=
  match s with
  | c :: s' => if is_space c then lstrip s' else s
  | [] => []
  end.

Definition strip (s : list ascii) : list ascii :=
  rev (lstrip (rev (lstrip s))).

Fixpoint starts_with (p s : list ascii) : bool :=
  match p, s with
  | [], _ => true
  | a :: p', b :: s' => if Ascii.eqb a b then starts_with p' s' else false
  | _ :: _, [] => false
  end.

(** [p in s] for strings. *)
Fixpoint contains (p s : list ascii) : bool :=
  starts_with p s ||
  match s with
  | [] => false
  | _ :: s' => contains p s'
  end.

(** The longest prefix of digits, and what follows it. *)
Fixpoint span_digits (s : list ascii) : list ascii * list ascii :=
  match s with
  | c :: s' =>
      if is_digit c
      then let '(ds, rest) := span_digits s' in (c :: ds, rest)
      else ([], s)
  | [] => ([], [])
  end.

Definition hyphen : ascii := "-"%char.

(** One attempt of [(\d+)-(\d+)] anchored at the head of [s]: both groups are
    greedy, and giving back digits never helps since the character after a
    shorter run is a digit.  Returns the two groups and the unread rest. *)
Definition match_here (s : list ascii)
  : option (list ascii * list ascii * list ascii) :=
  match span_digits s with
  | ((_ :: _) as lhs, c :: after) =>
      if Ascii.eqb c hyphen then
        match span_digits after with
        | ((_ :: _) as rhs, rest) => Some (lhs, rhs, rest)
        | ([], _) => None
        end
      else None
  | _ => None
  end.

(** [SCORE_PATTERN.findall]: leftmost matches, scanning resumes after each
    match, one character further after a failed attempt. *)
Fixpoint findall_from (fuel : nat) (s : list ascii)
  : list (list ascii * list ascii) :=
  match fuel with
  | O => []
  | S fuel' =>
      match s with
      | [] => []
      | _ :: s' =>
          match match_here s with
          | Some (lhs, rhs, rest) => (lhs, rhs) :: findall_from fuel' rest
          | None => findall_from fuel' s'
          end
      end
  end.

Definition findall (s : list ascii) : list (list ascii * list ascii) :=
  findall_from (List.length s) s.

(** [int(text)] on a run of digits. *)
Definition int_of_digits (ds : list ascii) : Z :=
  fold_left (fun acc c => 10 * acc + (Z.of_N (N_of_ascii c) - 48)) ds 0.

Record tally := Tally {
  games_1 : Z; games_2 : Z; sets_1 : Z; sets_2 : Z; tie_breaks : Z
}.

Definition zeros : tally := Tally 0 0 0 0 0.

Definition nonneg (t : tally) : Prop :=
  0 ≤ games_1 t ∧ 0 ≤ games_2 t ∧ 0 ≤ sets_1 t ∧ 0 ≤ sets_2 t
  ∧ 0 ≤ tie_breaks t.

(** The body of the [for left, right in ...] loop. *)
Definition add_set (t : tally) (p : list ascii * list ascii) : tally :=
  let g1 := int_of_digits (fst p) in
  let g2 := int_of_digits (snd p) in
  {| games_1 := games_1 t + g1;
     games_2 := games_2 t + g2;
     sets_1 := if g2 <? g1 then sets_1 t + 1 else sets_1 t;
     sets_2 := if g2 <? g1 then sets_2 t
               else if g1 <? g2 then sets_2 t + 1 else sets_2 t;
     tie_breaks := if 7 <=? Z.max g1 g2 then tie_breaks t + 1
                   else tie_breaks t |}.

Definition walkover (s : list ascii) : bool :=
  contains (list_ascii_of_string "w/o") (lower s)
  || contains (list_ascii_of_string "walkover") (lower s).

(** [parse_score]; [None] stands for any value that is not a [str]. *)
Definition parse_score (score : option string) : tally :=
  match score with
  | None => zeros
  | Some text =>
      let s := strip (list_ascii_of_string text) in
      match s with
      | [] => zeros
      | _ :: _ =>
          if walkover s then zeros
          else fold_left add_set (findall s) zeros
      end
  end.

End Score.

(** ** Rows of the match table *)

(** A calendar date, as [pd.to_datetime] yields for a day; [toordinal] is the
    day count since 1970-01-01 on which timestamps are compared and
    subtracted. *)
Record Date := mkDate { year : Z; month : Z; day : Z }.

Definition toordinal (d : Date) : Z :=
  let y := if month d <=? 2 then year d - 1 else year d in
  let era := y / 400 in
  let yoe := y - era * 400 in
  let mp := (month d + 9) mod 12 in
  let doy := (153 * mp + 2) / 5 + day d - 1 in
  let doe := yoe * 365 + yoe / 4 - yoe / 100 + doy in
  era * 146097 + doe - 719468.

(** One row of the frame after [preprocess] has dropped the rows without
    players or date and coerced the numeric columns ([None] is [NaN]). *)
Record Match := mkMatch {
  player_1 : string;
  player_2 : string;
  winner : option string;
  date : Date;
  surface : string;
  score : option string;
  rank_1 : option R;
  rank_2 : option R;
  pts_1 : option R;
  pts_2 : option R;
  odd_1 : option R;
  odd_2 : option R;
  tournament : option string;
  court : option string;
  round : option string;
  best_of : option string
}.

(** The row with its result erased: what is known before the match starts. *)
Definition forget_outcome (m : Match) : Match :=
  {| player_1 := player_1 m; player_2 := player_2 m; winner := None;
     date := date m; surface := surface m; score := None;
     rank_1 := rank_1 m; rank_2 := rank_2 m; pts_1 := pts_1 m;
     pts_2 := pts_2 m; odd_1 := odd_1 m; odd_2 := odd_2 m;
     tournament := tournament m; court := court m; round := round m;
     best_of := best_of m |}.

Record PreprocessConfig := mkConfig {
  min_year : Z;
  rolling_matches : nat;
  rolling_surface_matches : nat;
  rolling_days : Z;
  elo_k : R;
  surface_elo_k : R;
  elo_decay : R
}.

Definition default_config : PreprocessConfig :=
  {| min_year := 2010; rolling_matches := 10; rolling_surface_matches := 6;
     rolling_days := 365; elo_k := 32; surface_elo_k := 24;
     elo_decay := 1 / 100 |}.

(** [row.winner == name]; a missing winner equals no name. *)
Definition winner_is (m : Match) (name : string) : bool :=
  bool_decide (winner m = Some name).

(** The label column [y]. *)
Definition label (m : Match) : Z := if winner_is m (player_1 m) then 1 else 0.

(** Dates in ascending order, the order [preprocess] hands to the engines. *)
Definition date_le (a b : Match) : Prop := toordinal (date a) ≤ toordinal (date b).

Definition chronological (df : list Match) : Prop := Sorted date_le df.

(** Arithmetic on columns with missing values. *)
Definition osub (a b : option R) : option R :=
  match a, b with
  | Some x, Some y => Some (x - y)%R
  | _, _ => None
  end.

(** ** Score features *)

Definition score_features (m : Match) : Score.tally :=
  Score.parse_score (Some (default ""%string (score m))).

Definition games_delta (m : Match) : Z :=
  Score.games_1 (score_features m) - Score.games_2 (score_features m).

Definition sets_delta (m : Match) : Z :=
  Score.sets_1 (score_features m) - Score.sets_2 (score_features m).

Definition tie_breaks_played (m : Match) : Z :=
  Score.tie_breaks (score_features m).

(** ** Rating engine *)

Module Elo.

Record state := mkState {
  ratings : gmap string R;
  surface_ratings : gmap (string * string) R;
  last_year : option Z
}.

Definition init : state :=
  {| ratings := ∅; surface_ratings := ∅; last_year := None |}.

(** The four values appended to [elo_p1], [elo_p2], [elo_surface_p1] and
    [elo_surface_p2]. *)
Record snapshot := mkSnapshot {
  elo_p1 : R; elo_p2 : R; surface_elo_p1 : R; surface_elo_p2 : R
}.

(** Reading a [defaultdict(lambda: 1500.0)]. *)
Definition rating_of {K} `{Countable K} (tbl : gmap K R) (k : K) : R :=
  default 1500%R (tbl !! k).

Definition pull (decay r : R) : R := (1500 + (r - 1500) * decay)%R.

Definition decay_factor (cfg : PreprocessConfig) (gap : Z) : R :=
  exp (- elo_decay cfg * IZR gap).

(** Lines 147-154: the decay applied when the year moves forward, and the
    bookkeeping of [last_year]. *)
Definition apply_decay (cfg : PreprocessConfig) (st : state) (yr : Z) : state :=
  match last_year st with
  | Some prev =>
      if bool_decide (prev < yr) then
        let decay := decay_factor cfg (yr - prev) in
        {| ratings := pull decay <$> ratings st;
           surface_ratings := pull decay <$> surface_ratings st;
           last_year := Some yr |}
      else
        {| ratings := ratings st; surface_ratings := surface_ratings st;
           last_year := Some yr |}
  | None =>
      {| ratings := ratings st; surface_ratings := surface_ratings st;
         last_year := Some yr |}
  end.

Definition expected_score (mine theirs : R) : R :=
  (1 / (1 + Rpower 10 ((theirs - mine) / 400)))%R.

Definition outcome (m : Match) : R :=
  if winner_is m (player_1 m) then 1%R else 0%R.

(** The increments of lines 168-169 (and 172-173 with the surface constant). *)
Definition gain_1 (k out expected : R) : R := (k * (out - expected))%R.
Definition gain_2 (k out expected : R) : R :=
  (k * ((1 - out) - (1 - expected)))%R.

Definition read (st : state) (m : Match) : snapshot :=
  {| elo_p1 := rating_of (ratings st) (player_1 m);
     elo_p2 := rating_of (ratings st) (player_2 m);
     surface_elo_p1 := rating_of (surface_ratings st) (player_1 m, surface m);
     surface_elo_p2 := rating_of (surface_ratings st) (player_2 m, surface m) |}.

(** Lines 166-173: the two assignments to each table, in source order. *)
Definition apply_result (cfg : PreprocessConfig) (st : state) (m : Match) : state :=
  let s := read st m in
  let expected := expected_score (elo_p1 s) (elo_p2 s) in
  let expected_surface := expected_score (surface_elo_p1 s) (surface_elo_p2 s) in
  {| ratings :=
       <[player_2 m := (elo_p2 s + gain_2 (elo_k cfg) (outcome m) expected)%R]>
         (<[player_1 m := (elo_p1 s + gain_1 (elo_k cfg) (outcome m) expected)%R]>
            (ratings st));
     surface_ratings :=
       <[(player_2 m, surface m) :=
           (surface_elo_p2 s
            + gain_2 (surface_elo_k cfg) (outcome m) expected_surface)%R]>
         (<[(player_1 m, surface m) :=
              (surface_elo_p1 s
               + gain_1 (surface_elo_k cfg) (outcome m) expected_surface)%R]>
            (surface_ratings st));
     last_year := last_year st |}.

(** One iteration of the loop: decay, read, update. *)
Definition step (cfg : PreprocessConfig) (st : state) (m : Match)
  : state * snapshot :=
  let st1 := apply_decay cfg st (year (date m)) in
  (apply_result cfg st1 m, read st1 m).

Fixpoint run (cfg : PreprocessConfig) (st : state) (df : list Match)
  : list snapshot :=
  match df with
  | [] => []
  | m :: rest => snd (step cfg st m) :: run cfg (fst (step cfg st m)) rest
  end.

Definition state_after (cfg : PreprocessConfig) (st : state) (df : list Match)
  : state :=
  fold_left (fun s m => fst (step cfg s m)) df st.

Definition compute_elo (cfg : PreprocessConfig) (df : list Match)
  : list snapshot :=
  run cfg init df.

End Elo.

(** ** The update of one match in binary64

    Lines 166-169 on IEEE 754 double-precision numbers, the operations in
    source order and each rounded to nearest.  [power] stands for the
    floating-point power behind [10 ** x], the [pow] of the C library;
    [(r2 - r1) / 400] divides by the integer 400 converted to a float. *)

Module Binary64.
Import PrimFloat.
Local Open Scope float_scope.

Definition expected_score (power : float → float → float) (r1 r2 : float)
  : float :=
  1 / (1 + power 10 ((r2 - r1) / 400)).

Definition outcome (m : Match) : float :=
  if winner_is m (player_1 m) then 1 else 0.

Definition gain_1 (k out expected : float) : float := k * (out - expected).

Definition gain_2 (k out expected : float) : float :=
  k * ((1 - out) - (1 - expected)).



End Binary64.

(** ** Head-to-head tracker *)

Module H2H.

Record state := mkState {
  h2h_wins : gmap (string * string) Z;
  last_winner : gmap (string * string) Z
}.

Definition init : state := {| h2h_wins := ∅; last_winner := ∅ |}.

Definition wins_of (st : state) (key : string * string) : Z :=
  default 0 (h2h_wins st !! key).

(** Lines 367-370. *)
Definition advantage (st : state) (p1 p2 : string) : R :=
  let wins := wins_of st (p1, p2) in
  let losses := wins_of st (p2, p1) in
  let total := wins + losses in
  if 0 <? total then (IZR (wins - losses) / IZR total)%R else 0%R.

(** Lines 372-373. *)
Definition last_meeting_direction (st : state) (p1 p2 : string) : Z :=
  match last_winner st !! (p1, p2) with
  | Some last => if last =? 1 then 1 else if last =? -1 then -1 else 0
  | None => 0
  end.

(** Lines 375-382. *)
Definition record (st : state) (m : Match) : state :=
  let key := (player_1 m, player_2 m) in
  let rev_key := (player_2 m, player_1 m) in
  if winner_is m (player_1 m) then
    {| h2h_wins := <[key := wins_of st key + 1]> (h2h_wins st);
       last_winner := <[rev_key := -1]> (<[key := 1]> (last_winner st)) |}
  else
    {| h2h_wins := <[rev_key := wins_of st rev_key + 1]> (h2h_wins st);
       last_winner := <[rev_key := 1]> (<[key := -1]> (last_winner st)) |}.

Definition step (st : state) (m : Match) : state * (R * Z) :=
  (record st m,
   (advantage st (player_1 m) (player_2 m),
    last_meeting_direction st (player_1 m) (player_2 m))).

Fixpoint run (st : state) (df : list Match) : list (R * Z) :=
  match df with
  | [] => []
  | m :: rest => snd (step st m) :: run (fst (step st m)) rest
  end.

Definition state_after (st : state) (df : list Match) : state :=
  fold_left (fun s m => fst (step s m)) df st.

Definition compute_head_to_head (df : list Match) : list (R * Z) :=
  run init df.

End H2H.

(** ** Stable sorting

    [DataFrame.sort_values] on several columns is a lexicographic sort that
    keeps rows with equal keys in frame order; insertion from the right end
    does the same. *)

Fixpoint insert_sorted {A} (leb : A → A → bool) (x : A) (s : list A)
  : list A :=
  match s with
  | [] => [x]
  | y :: s' => if leb x y then x :: s else y :: insert_sorted leb x s'
  end.

Definition stable_sort {A} (leb : A → A → bool) (l : list A) : list A :=
  foldr (insert_sorted leb) [] l.

(** ** The long frame: one row per player per match *)

Module Long.

(** The columns of [long_df] that [add_rolling_features] reads. *)
Record row := mkRow {
  match_id : nat;
  date : Date;
  surface : string;
  player : string;
  is_player_1 : bool;
  won : Z;
  games_delta_signed : Z;
  sets_delta_signed : Z;
  tie_breaks_played : Z;
  player_rank : option R;
  player_pts : option R
}.

(** The columns [add_rolling_features] adds. *)
Record stats := mkStats {
  form_win_rate : option R;
  surface_form_win_rate : option R;
  games_delta_avg : option R;
  sets_delta_avg : option R;
  tiebreak_rate : option R;
  rest_days : Z;
  rank_trend : option R;
  points_trend : option R
}.

End Long.

Definition first_row (i : nat) (m : Match) : Long.row :=
  {| Long.match_id := i; Long.date := date m; Long.surface := surface m;
     Long.player := player_1 m; Long.is_player_1 := true;
     Long.won := if winner_is m (player_1 m) then 1 else 0;
     Long.games_delta_signed := games_delta m;
     Long.sets_delta_signed := sets_delta m;
     Long.tie_breaks_played := tie_breaks_played m;
     Long.player_rank := rank_1 m; Long.player_pts := pts_1 m |}.

Definition second_row (i : nat) (m : Match) : Long.row :=
  {| Long.match_id := i; Long.date := date m; Long.surface := surface m;
     Long.player := player_2 m; Long.is_player_1 := false;
     Long.won := if winner_is m (player_2 m) then 1 else 0;
     Long.games_delta_signed := - games_delta m;
     Long.sets_delta_signed := - sets_delta m;
     Long.tie_breaks_played := tie_breaks_played m;
     Long.player_rank := rank_2 m; Long.player_pts := pts_2 m |}.

(** [pd.concat([first, second])]; [match_id] is the position in [df]. *)
Definition expand_long (df : list Match) : list Long.row :=
  imap first_row df ++ imap second_row df.

(** ** Rolling window aggregator *)

(** The order of [sort_values(["player", "date", "match_id"])]. *)
Definition long_key_leb (x y : Long.row) : bool :=
  if String.eqb (Long.player x) (Long.player y) then
    if toordinal (Long.date x) =? toordinal (Long.date y)
    then Nat.leb (Long.match_id x) (Long.match_id y)
    else toordinal (Long.date x) <? toordinal (Long.date y)
  else String.leb (Long.player x) (Long.player y).

Definition sort_long (long_df : list Long.row) : list Long.row :=
  stable_sort long_key_leb long_df.

(** [Series.shift(n)] for [n >= 0]. *)
Definition shift {V} (n : nat) (s : list (option V)) : list (option V) :=
  take (length s) (replicate n None ++ s).

Definition sum_list (xs : list R) : R := foldr Rplus 0%R xs.

Definition mean (xs : list R) : R := (sum_list xs / INR (length xs))%R.

(** The observations of a stretch of a series: its values that are not missing. *)
Definition observations {V} (s : list (option V)) : list V :=
  omap (fun o => o) s.

(** The window of [rolling(window=w)] ending at position [j]. *)
Definition window {V} (w j : nat) (s : list V) : list V :=
  drop (j + 1 - w) (take (j + 1) s).

(** [rolling(window=w, min_periods=mp).mean()]: the mean of the observations
    of the window, missing when there are fewer than [mp] of them. *)
Definition rolling_mean (w mp : nat) (s : list (option R)) : list (option R) :=
  imap (fun j _ =>
          let obs := observations (window w j s) in
          if (length obs <? mp)%nat then None else Some (mean obs)) s.

Definition _rolling (s : list (option R)) (w mp : nat) : list (option R) :=
  rolling_mean w mp (shift 1 s).

(** [s.shift(1) - s.shift(2)]. *)
Definition trend (s : list (option R)) : list (option R) :=
  zip_with osub (shift 1 s) (shift 2 s).

(** [Series.diff().dt.days] on dates. *)
Definition diff_days (s : list Date) : list (option Z) :=
  imap (fun j d =>
          match j with
          | O => None
          | S j' => (fun prev => toordinal d - toordinal prev) <$> s !! j'
          end) s.

(** [tbl.groupby(key)[col].apply(f)] with [group_keys=False]: the value of a
    row is the entry of [f (its group's series)] at the row's rank in the
    group. *)
Definition grouped_apply {K V W} `{EqDecision K}
    (key : Long.row → K) (col : Long.row → V)
    (f : list V → list (option W)) (tbl : list Long.row) : list (option W) :=
  imap (fun i r =>
          mjoin (f (col <$> filter (fun x => key x = key r) tbl)
                   !! length (filter (fun x => key x = key r) (take i tbl))))
       tbl.

Definition clip (lo hi x : Z) : Z := Z.min hi (Z.max lo x).

Definition real_col (col : Long.row → Z) (r : Long.row) : option R :=
  Some (IZR (col r)).

Definition add_rolling_features (long_df : list Long.row)
    (cfg : PreprocessConfig) : list (Long.row * Long.stats) :=
  let tbl := sort_long long_df in
  let by_player := Long.player in
  let by_surface := fun r => (Long.player r, Long.surface r) in
  let form :=
    grouped_apply by_player (real_col Long.won)
      (fun s => _rolling s (rolling_matches cfg) 3) tbl in
  let surface_form :=
    grouped_apply by_surface (real_col Long.won)
      (fun s => _rolling s (rolling_surface_matches cfg) 2) tbl in
  let games :=
    grouped_apply by_player (real_col Long.games_delta_signed)
      (fun s => _rolling s (rolling_matches cfg) 3) tbl in
  let sets :=
    grouped_apply by_player (real_col Long.sets_delta_signed)
      (fun s => _rolling s (rolling_matches cfg) 3) tbl in
  let ties :=
    grouped_apply by_player (real_col Long.tie_breaks_played)
      (fun s => _rolling s (rolling_matches cfg) 3) tbl in
  let rest := grouped_apply by_player Long.date diff_days tbl in
  let ranks := grouped_apply by_player Long.player_rank trend tbl in
  let points := grouped_apply by_player Long.player_pts trend tbl in
  imap (fun i r =>
          (r,
           {| Long.form_win_rate := mjoin (form !! i);
              Long.surface_form_win_rate := mjoin (surface_form !! i);
              Long.games_delta_avg := mjoin (games !! i);
              Long.sets_delta_avg := mjoin (sets !! i);
              Long.tiebreak_rate := mjoin (ties !! i);
              Long.rest_days := clip 0 60 (default 30 (mjoin (rest !! i)));
              Long.rank_trend := mjoin (ranks !! i);
              Long.points_trend := mjoin (points !! i) |}))
       tbl.

(** ** Feature assembler *)

(** The frame after [aggregate_back]: the row, the pre-match ratings, the
    head-to-head columns and the rolled statistics of both sides. *)
Record Wide := mkWide {
  wide_match : Match;
  wide_id : nat;
  wide_elo : Elo.snapshot;
  h2h_advantage : R;
  last_winner_indicator : Z;
  wide_p1 : option Long.stats;
  wide_p2 : option Long.stats
}.

(** [long_df[side].set_index("match_id").reindex(df.match_id)]. *)
Definition side_of (rolled : list (Long.row * Long.stats)) (side : bool)
    (k : nat) : option Long.stats :=
  snd <$> head (filter (fun rs => Long.is_player_1 (fst rs) = side
                                   ∧ Long.match_id (fst rs) = k) rolled).

Definition aggregate_back (df : list Match) (elo : list Elo.snapshot)
    (h2h : list (R * Z)) (rolled : list (Long.row * Long.stats)) : list Wide :=
  imap (fun i x =>
          {| wide_match := x.1; wide_id := i; wide_elo := x.2.1;
             h2h_advantage := x.2.2.1; last_winner_indicator := x.2.2.2;
             wide_p1 := side_of rolled true i;
             wide_p2 := side_of rolled false i |})
       (zip df (zip elo h2h)).

(** The chronological feature engine: the frame that [preprocess] holds
    after [aggregate_back], for a date-ordered [df]. *)
Definition engine (cfg : PreprocessConfig) (df : list Match) : list Wide :=
  aggregate_back df (Elo.compute_elo cfg df) (H2H.compute_head_to_head df)
    (add_rolling_features (expand_long df) cfg).

(** The numeric difference columns ([numeric_diff_cols]). *)
Record Features := mkFeatures {
  rank_diff : option R;
  pts_diff : option R;
  odd_diff : option R;
  elo_diff : option R;
  surface_elo_diff : option R;
  form_diff : option R;
  surface_form_diff : option R;
  games_margin_diff : option R;
  sets_margin_diff : option R;
  rest_days_diff : option R;
  tiebreak_rate_diff : option R;
  rank_trend_diff : option R;
  points_trend_diff : option R;
  feat_h2h_advantage : option R;
  feat_last_winner_indicator : option R
}.

Definition stat_diff (w : Wide) (col : Long.stats → option R) : option R :=
  osub (wide_p1 w ≫= col) (wide_p2 w ≫= col).

Definition features (w : Wide) : Features :=
  let m := wide_match w in
  let e := wide_elo w in
  {| rank_diff := osub (rank_1 m) (rank_2 m);
     pts_diff := osub (pts_1 m) (pts_2 m);
     odd_diff := osub (odd_1 m) (odd_2 m);
     elo_diff := Some (Elo.elo_p1 e - Elo.elo_p2 e)%R;
     surface_elo_diff := Some (Elo.surface_elo_p1 e - Elo.surface_elo_p2 e)%R;
     form_diff := stat_diff w Long.form_win_rate;
     surface_form_diff := stat_diff w Long.surface_form_win_rate;
     games_margin_diff := stat_diff w Long.games_delta_avg;
     sets_margin_diff := stat_diff w Long.sets_delta_avg;
     rest_days_diff := stat_diff w (fun s => Some (IZR (Long.rest_days s)));
     tiebreak_rate_diff := stat_diff w Long.tiebreak_rate;
     rank_trend_diff := stat_diff w Long.rank_trend;
     points_trend_diff := stat_diff w Long.points_trend;
     feat_h2h_advantage := Some (h2h_advantage w);
     feat_last_winner_indicator := Some (IZR (last_winner_indicator w)) |}.

(** ** The driver *)

(** A row of the raw table as [load_raw_matches] returns it: players and
    date may be missing ([raw_date] is the value of
    [pd.to_datetime(..., errors="coerce")]), the surface column holds a
    category on every row, and the table carries no derived column of its
    own. *)
Record RawRow := mkRaw {
  raw_player_1 : option string;
  raw_player_2 : option string;
  raw_date : option Date;
  raw_winner : option string;
  raw_surface : string;
  raw_score : option string;
  raw_rank_1 : option R;
  raw_rank_2 : option R;
  raw_pts_1 : option R;
  raw_pts_2 : option R;
  raw_odd_1 : option R;
  raw_odd_2 : option R;
  raw_tournament : option string;
  raw_court : option string;
  raw_round : option string;
  raw_best_of : option string
}.

Record Frame := mkFrame { columns : list string; rows : list RawRow }.

(** Lines 408-410: rows without both players or without a date are dropped. *)
Definition clean (r : RawRow) : option Match :=
  match raw_player_1 r, raw_player_2 r, raw_date r with
  | Some p1, Some p2, Some d =>
      Some {| player_1 := p1; player_2 := p2; winner := raw_winner r;
              date := d; surface := raw_surface r; score := raw_score r;
              rank_1 := raw_rank_1 r; rank_2 := raw_rank_2 r;
              pts_1 := raw_pts_1 r; pts_2 := raw_pts_2 r;
              odd_1 := raw_odd_1 r; odd_2 := raw_odd_2 r;
              tournament := raw_tournament r; court := raw_court r;
              round := raw_round r; best_of := raw_best_of r |}
  | _, _, _ => None
  end.

(** Lines 408-411: the rows that reach the sort. *)
Definition retained (cfg : PreprocessConfig) (raw : list RawRow) : list Match :=
  filter (fun m => min_year cfg ≤ year (date m)) (omap clean raw).

(** What the default [sort_values("date")] promises: the same rows, dates
    ascending.  The default sorting kind is not a stable one, so nothing is
    promised about rows that share a date. *)
Definition sorts_by_date (sort_values : list Match → list Match) : Prop :=
  ∀ df, sort_values df ≡ₚ df ∧ chronological (sort_values df).

Definition date_leb (a b : Match) : bool :=
  toordinal (date a) <=? toordinal (date b).

(** A stable sort on the date, one of the sorts that keep that promise. *)
Definition sort_date_stable (df : list Match) : list Match :=
  stable_sort date_leb df.

(** Lines 395-401. *)
Definition rename_column (c : string) : string :=
  if String.eqb c "player1" then "player_1"%string
  else if String.eqb c "player2" then "player_2"%string
  else c.

Definition required_columns : list string :=
  ["date"; "player_1"; "player_2"; "winner"]%string.

(** The columns [expand_long] asks of the raw table. *)
Definition long_columns : list string :=
  ["date"; "surface"; "round"; "tournament"; "court"; "best_of";
   "player_1"; "player_2"; "rank_1"; "rank_2"; "pts_1"; "pts_2";
   "odd_1"; "odd_2"; "winner"]%string.

Definition missing_from (cols wanted : list string) : list string :=
  filter (fun c => c ∉ cols) wanted.

Inductive error :=
| KeyError (missing : list string)
| AttributeError
| ValueError.

(** A row of the returned frame: the pass-through columns, the label, the
    year and the numeric columns. *)
Record OutRow := mkOut {
  out_match : Match;
  out_y : Z;
  out_year : Z;
  out_features : Features
}.

(** What a run leaves behind besides its result: the dictionaries and
    histories the engines allocate, and the file written at the end. *)
Inductive event :=
| RatingState
| HeadToHeadState
| HistoryState
| OutputWritten (out : list OutRow).

Definition complete (f : Features) : bool :=
  bool_decide (is_Some (rank_diff f)) && bool_decide (is_Some (pts_diff f))
  && bool_decide (is_Some (odd_diff f)) && bool_decide (is_Some (elo_diff f))
  && bool_decide (is_Some (surface_elo_diff f))
  && bool_decide (is_Some (form_diff f))
  && bool_decide (is_Some (surface_form_diff f))
  && bool_decide (is_Some (games_margin_diff f))
  && bool_decide (is_Some (sets_margin_diff f))
  && bool_decide (is_Some (rest_days_diff f))
  && bool_decide (is_Some (tiebreak_rate_diff f))
  && bool_decide (is_Some (rank_trend_diff f))
  && bool_decide (is_Some (points_trend_diff f))
  && bool_decide (is_Some (feat_h2h_advantage f))
  && bool_decide (is_Some (feat_last_winner_indicator f)).

Definition out_row (w : Wide) : OutRow :=
  {| out_match := wide_match w; out_y := label (wide_match w);
     out_year := year (date (wide_match w)); out_features := features w |}.

(** Lines 450-476: [dropna] on the numeric columns, then the projection. *)
Definition select_output (wide : list Wide) : list OutRow :=
  out_row <$> filter (fun w => complete (features w) = true) wide.

(** The rows handed to the engines, in processing order. *)
Definition processing_order (sort_values : list Match → list Match)
    (cfg : PreprocessConfig) (df : Frame) : list Match :=
  sort_values (retained cfg (rows df)).

(** [preprocess] as [run_pipeline] calls it (the rank, points and odds
    difference columns are on the table), with the events it causes up to
    its return or raise.  The checks come in source order: the required
    columns (lines 403-406); the score column read by [add_score_features]
    (without it [df.get("score")] is [None] and [fillna] fails); the rows
    left by the filters of lines 408-411 (with none, line 130 assigns a
    frame without columns to five column names, a [ValueError], and no
    engine has run yet; sorting does not change the number of rows); the
    columns [expand_long] asks for (lines 233-236, after both engines have
    run); and the window sizes, which [rolling] rejects below its
    [min_periods]. *)
Definition preprocess (sort_values : list Match → list Match)
    (df : Frame) (cfg : PreprocessConfig)
  : list event * (error + list OutRow) :=
  let cols := rename_column <$> columns df in
  match missing_from cols required_columns with
  | (_ :: _) as missing => ([], inl (KeyError missing))
  | [] =>
      let ordered := processing_order sort_values cfg df in
      if bool_decide ("score"%string ∈ cols) then
        if bool_decide (retained cfg (rows df) = []) then
          ([], inl ValueError)
        else
          match missing_from cols long_columns with
          | (_ :: _) as missing =>
              ([RatingState; HeadToHeadState], inl (KeyError missing))
          | [] =>
              if bool_decide (3 ≤ rolling_matches cfg
                              ∧ 2 ≤ rolling_surface_matches cfg)%nat then
                ([RatingState; HeadToHeadState; HistoryState],
                 inr (select_output (engine cfg ordered)))
              else
                ([RatingState; HeadToHeadState; HistoryState], inl ValueError)
          end
      else ([], inl AttributeError)
  end.

(** [run_pipeline] from the loaded table on: the file is written after
    [preprocess] has returned. *)
Definition run_pipeline (sort_values : list Match → list Match)
    (cfg : PreprocessConfig) (df : Frame)
  : list event * (error + list OutRow) :=
  match preprocess sort_values df cfg with
  | (evs, inr out) => (evs ++ [OutputWritten out], inr out)
  | (evs, inl e) => (evs, inl e)
  end.

(** ** Specification-level notions *)

(** "Take up to the last [w] entries". *)
Definition last_n {V} (w : nat) (s : list V) : list V :=
  drop (length s - w) s.

(** "Trailing mean over window [w], minimum [mp]" of the entries that
    precede the current one. *)
Definition trailing_mean (w mp : nat) (prior : list (option R)) : option R :=
  let obs := observations (last_n w prior) in
  if (length obs <? mp)%nat then None else Some (mean obs).

(** The trend the code reports: the value at the previous entry minus the
    value at the entry before it. *)
Definition trend_at (prior : list (option R)) : option R :=
  match rev prior with
  | a :: b :: _ => osub a b
  | _ => None
  end.

(** The trend in the words of the specification: "the value two matches ago
    minus the value three matches ago". *)
Definition trend_two_minus_three (prior : list (option R)) : option R :=
  match rev prior with
  | _ :: b :: c :: _ => osub b c
  | _ => None
  end.

(** The long rows of player [p] in a date-ordered frame whose first row has
    identifier [k], oldest first. *)
Fixpoint entries_from (k : nat) (df : list Match) (p : string)
  : list Long.row :=
  match df with
  | [] => []
  | m :: rest =>
      (if decide (player_1 m = p) then [first_row k m] else [])
      ++ (if decide (player_2 m = p) then [second_row k m] else [])
      ++ entries_from (S k) rest p
  end.

Definition player_entries (df : list Match) (p : string) : list Long.row :=
  entries_from 0 df p.

(** The entries of a player that stand above row [(i, side)] of the sorted
    long frame: those of earlier matches, and for the second row of a record
    naming one player twice, the first row of that record. *)
Definition entries_before (df : list Match) (i : nat) (side : bool)
    : list Long.row :=
  match df !! i with
  | Some m =>
      if side then player_entries (take i df) (player_1 m)
      else player_entries (take i df) (player_2 m)
             ++ (if decide (player_1 m = player_2 m)
                 then [first_row i m] else [])
  | None => []
  end.

(** The statistics of a long row as a function of the entries of its player
    that precede it. *)
Definition stats_from (cfg : PreprocessConfig) (r : Long.row)
    (prior : list Long.row) : Long.stats :=
  let on_surface :=
    filter (fun x => Long.surface x = Long.surface r) prior in
  {| Long.form_win_rate :=
       trailing_mean (rolling_matches cfg) 3 (real_col Long.won <$> prior);
     Long.surface_form_win_rate :=
       trailing_mean (rolling_surface_matches cfg) 2
         (real_col Long.won <$> on_surface);
     Long.games_delta_avg :=
       trailing_mean (rolling_matches cfg) 3
         (real_col Long.games_delta_signed <$> prior);
     Long.sets_delta_avg :=
       trailing_mean (rolling_matches cfg) 3
         (real_col Long.sets_delta_signed <$> prior);
     Long.tiebreak_rate :=
       trailing_mean (rolling_matches cfg) 3
         (real_col Long.tie_breaks_played <$> prior);
     Long.rest_days :=
       clip 0 60
         (default 30
            ((fun prev => toordinal (Long.date r) - toordinal (Long.date prev))
               <$> last prior));
     Long.rank_trend := trend_at (Long.player_rank <$> prior);
     Long.points_trend := trend_at (Long.player_pts <$> prior) |}.

(** Head-to-head in the words of the specification. *)
Definition met_and_won (a b : string) (m : Match) : Prop :=
  ((player_1 m = a ∧ player_2 m = b) ∨ (player_1 m = b ∧ player_2 m = a))
  ∧ winner m = Some a.

#[global] Instance met_and_won_dec a b m : Decision (met_and_won a b m).
Proof. unfold met_and_won. apply _. Defined.

(** "wins(a over b)" among the matches of [hist]. *)
Definition wins_over (hist : list Match) (a b : string) : Z :=
  Z.of_nat (length (filter (met_and_won a b) hist)).

Definition advantage_of_counts (w l : Z) : R :=
  if w + l =? 0 then 0%R else (IZR (w - l) / IZR (w + l))%R.

(** The precondition on records: the winner is one of the two players. *)
Definition valid_winner (m : Match) : Prop :=
  winner m = Some (player_1 m) ∨ winner m = Some (player_2 m).

(** Where a row [x] that precedes [y] in the input of the sort has to stand
    relative to [y] in a strict order [lt] for the sort to realise [lt]. *)
Definition placed {A} (leb : A → A → bool) (lt : relation A) (x y : A) : Prop :=
  if leb x y then lt x y else lt y x.

Fixpoint well_placed {A} (leb : A → A → bool) (lt : relation A)
    (l : list A) : Prop :=
  match l with
  | [] => True
  | x :: l' => Forall (placed leb lt x) l' ∧ well_placed leb lt l'
  end.

(** Strict order on player names. *)
Definition name_lt (a b : string) : Prop := a ≠ b ∧ String.le a b.

(** The sort key of a long row, and the row order spelled out. *)
Definition long_key_le (x y : Long.row) : Prop :=
  name_lt (Long.player x) (Long.player y)
  ∨ (Long.player x = Long.player y
     ∧ (toordinal (Long.date x) < toordinal (Long.date y)
        ∨ (toordinal (Long.date x) = toordinal (Long.date y)
           ∧ (Long.match_id x ≤ Long.match_id y)%nat))).

Definition row_lt (x y : Long.row) : Prop :=
  name_lt (Long.player x) (Long.player y)
  ∨ (Long.player x = Long.player y
     ∧ (toordinal (Long.date x) < toordinal (Long.date y)
        ∨ (toordinal (Long.date x) = toordinal (Long.date y)
           ∧ ((Long.match_id x < Long.match_id y)%nat
              ∨ (Long.match_id x = Long.match_id y
                 ∧ Long.is_player_1 x = true
                 ∧ Long.is_player_1 y = false))))).

#[global] Instance name_lt_dec a b : Decision (name_lt a b).
Proof. unfold name_lt. apply _. Defined.

#[global] Instance long_key_le_dec x y : Decision (long_key_le x y).
Proof. unfold long_key_le. apply _. Defined.

#[global] Instance row_lt_dec x y : Decision (row_lt x y).
Proof. unfold row_lt. apply _. Defined.

(** The row of match [i] for one of its sides. *)
Definition long_row (side : bool) (i : nat) (m : Match) : Long.row :=
  if side then first_row i m else second_row i m.

(** The player of one side of a record, and the statistics of that side in
    a row of the wide frame. *)
Definition player_of (side : bool) (m : Match) : string :=
  if side then player_1 m else player_2 m.

Definition side_stats (side : bool) (w : Wide) : option Long.stats :=
  if side then wide_p1 w else wide_p2 w.

(** The rank trend written for one side of row [i] of the wide frame. *)
Definition rank_trend_of (side : bool) (wide : list Wide) (i : nat)
    : option R :=
  wide !! i ≫= fun w => side_stats side w ≫= Long.rank_trend.

(** The outcome indicators of a list of entries, as the rolling mean reads
    them. *)
Definition outcomes (entries : list Long.row) : list R :=
  (fun x => IZR (Long.won x)) <$> entries.

(** ** Sample frames *)

Definition sample_match (p1 p2 w : string) (d : Date) (sc : string)
    (r1 r2 : R) : Match :=
  {| player_1 := p1; player_2 := p2; winner := Some w; date := d;
     surface := "Hard"; score := Some sc;
     rank_1 := Some r1; rank_2 := Some r2;
     pts_1 := Some 1000%R; pts_2 := Some 900%R;
     odd_1 := Some 2%R; odd_2 := Some 2%R;
     tournament := Some "Doha"%string; court := Some "Outdoor"%string;
     round := Some "1st Round"%string; best_of := Some "3"%string |}.

(** Four matches of player A, ranked 10, 20, 40 and 45 when she plays
    them. *)
Definition trend_frame : list Match :=
  [sample_match "A" "B" "A" (mkDate 2015 1 5) "6-4 6-2" 10 50;
   sample_match "B" "A" "A" (mkDate 2015 2 5) "3-6 2-6" 51 20;
   sample_match "A" "C" "C" (mkDate 2015 3 1) "6-7 1-6" 40 60;
   sample_match "A" "B" "B" (mkDate 2016 1 1) "0-6 0-6" 45 70].

(** A raw row without ranks, points, odds and descriptive columns. *)
Definition tie_row (p1 p2 : string) : RawRow :=
  {| raw_player_1 := Some p1; raw_player_2 := Some p2;
     raw_date := Some (mkDate 2015 1 5); raw_winner := Some p1;
     raw_surface := "Hard"; raw_score := Some "6-4 6-4"%string;
     raw_rank_1 := None; raw_rank_2 := None; raw_pts_1 := None;
     raw_pts_2 := None; raw_odd_1 := None; raw_odd_2 := None;
     raw_tournament := None; raw_court := None; raw_round := None;
     raw_best_of := None |}.

Definition full_columns : list string :=
  ["tournament"; "date"; "court"; "surface"; "round"; "best_of";
   "player_1"; "player_2"; "winner"; "score"; "rank_1"; "rank_2";
   "pts_1"; "pts_2"; "odd_1"; "odd_2"]%string.

(** A table without the [winner] column. *)
Definition frame_without_winner : Frame :=
  {| columns := ["date"; "player_1"; "player_2"; "score"]%string;
     rows := [tie_row "A" "B"] |}.

(** A rating state at the end of 2015 that knows one player. *)
Definition state_2015 : Elo.state :=
  {| Elo.ratings := {["A"%string := 1600%R]};
     Elo.surface_ratings := {[("A"%string, "Hard"%string) := 1550%R]};
     Elo.last_year := Some 2015 |}.

Definition match_2016 : Match :=
  sample_match "B" "C" "B" (mkDate 2016 1 4) "6-3 6-3" 30 31.

(** A record whose winner is neither of its players. *)
Definition stray_winner_match : Match :=
  sample_match "A" "B" "Z" (mkDate 2015 1 5) "6-4 6-2" 10 50.


(** Two earlier matches of player A, then a record naming her on both
    sides. *)
Definition short_twice_named_frame : list Match :=
  [sample_match "A" "B" "A" (mkDate 2015 1 5) "6-4 6-2" 10 50;
   sample_match "B" "A" "A" (mkDate 2015 2 5) "3-6 2-6" 51 20;
   sample_match "A" "A" "A" (mkDate 2015 3 1) "6-1 6-1" 40 40].

(** ** Notions used to state further properties of the engines *)

(** Player [p] is named on a record. *)
Definition plays (p : string) (m : Match) : Prop :=
  player_1 m = p ∨ player_2 m = p.

#[global] Instance plays_dec p m : Decision (plays p m).
Proof. unfold plays. apply _. Defined.

(** A record is a meeting of [a] and [b], in either order of the two
    names. *)
Definition meeting (a b : string) (m : Match) : Prop :=
  (player_1 m = a ∧ player_2 m = b) ∨ (player_1 m = b ∧ player_2 m = a).

#[global] Instance meeting_dec a b m : Decision (meeting a b m).
Proof. unfold meeting. apply _. Defined.

Definition meetings (a b : string) (hist : list Match) : list Match :=
  filter (meeting a b) hist.

(** The player to whom the head-to-head tracker books a record (lines
    375-382): [player_1] when she is the recorded winner, [player_2] in
    every other case. *)
Definition credited (m : Match) : string :=
  if winner_is m (player_1 m) then player_1 m else player_2 m.

(** The meetings of [hist] booked to [a]. *)
Definition booked_to (a b : string) (hist : list Match) : Z :=
  Z.of_nat (length (filter (fun m => credited m = a) (meetings a b hist))).

(** The direction column as the last meeting of the pair determines it. *)
Definition direction_of_last (a b : string) (hist : list Match) : Z :=
  match last (meetings a b hist) with
  | Some e => if decide (credited e = a) then 1 else -1
  | None => 0
  end.

(** The configuration with another value for [rolling_days]. *)
Definition with_rolling_days (d : Z) (cfg : PreprocessConfig)
    : PreprocessConfig :=
  {| min_year := min_year cfg; rolling_matches := rolling_matches cfg;
     rolling_surface_matches := rolling_surface_matches cfg;
     rolling_days := d; elo_k := elo_k cfg;
     surface_elo_k := surface_elo_k cfg; elo_decay := elo_decay cfg |}.

(** The record with its two sides exchanged: the same match, written with
    the other player first. *)
Definition swap_sides (m : Match) : Match :=
  {| player_1 := player_2 m; player_2 := player_1 m; winner := winner m;
     date := date m; surface := surface m; score := score m;
     rank_1 := rank_2 m; rank_2 := rank_1 m; pts_1 := pts_2 m;
     pts_2 := pts_1 m; odd_1 := odd_2 m; odd_2 := odd_1 m;
     tournament := tournament m; court := court m; round := round m;
     best_of := best_of m |}.

(** The record without its descriptive columns: tournament, court, round
    and best_of. *)
Definition without_context (m : Match) : Match :=
  {| player_1 := player_1 m; player_2 := player_2 m; winner := winner m;
     date := date m; surface := surface m; score := score m;
     rank_1 := rank_1 m; rank_2 := rank_2 m; pts_1 := pts_1 m;
     pts_2 := pts_2 m; odd_1 := odd_1 m; odd_2 := odd_2 m;
     tournament := None; court := None; round := None; best_of := None |}.

(** The numeric columns with every sign changed. *)
Definition opposite (f : Features) : Features :=
  {| rank_diff := Ropp <$> rank_diff f;
     pts_diff := Ropp <$> pts_diff f;
     odd_diff := Ropp <$> odd_diff f;
     elo_diff := Ropp <$> elo_diff f;
     surface_elo_diff := Ropp <$> surface_elo_diff f;
     form_diff := Ropp <$> form_diff f;
     surface_form_diff := Ropp <$> surface_form_diff f;
     games_margin_diff := Ropp <$> games_margin_diff f;
     sets_margin_diff := Ropp <$> sets_margin_diff f;
     rest_days_diff := Ropp <$> rest_days_diff f;
     tiebreak_rate_diff := Ropp <$> tiebreak_rate_diff f;
     rank_trend_diff := Ropp <$> rank_trend_diff f;
     points_trend_diff := Ropp <$> points_trend_diff f;
     feat_h2h_advantage := Ropp <$> feat_h2h_advantage f;
     feat_last_winner_indicator := Ropp <$> feat_last_winner_indicator f |}.

(** ** Scores as the data set writes them *)

(** The decimal digits of a number. *)
Definition digits_of (n : nat) : list ascii :=
  list_ascii_of_string (DecimalString.NilZero.string_of_uint (Nat.to_uint n)).

(** One set, "a-b", and a match: its sets separated by one blank. *)
Definition render_set (p : nat * nat) : list ascii :=
  digits_of p.1 ++ Score.hyphen :: digits_of p.2.

Fixpoint render_sets (sets : list (nat * nat)) : list ascii :=
  match sets with
  | [] => []
  | p :: rest =>
      match rest with
      | [] => render_set p
      | _ :: _ => render_set p ++ " "%char :: render_sets rest
      end
  end.

Definition score_text (sets : list (nat * nat)) : string :=
  string_of_list_ascii (render_sets sets).

(** A decimal digit; the two groups of the pattern on a written set; the
    characters of a written score; and the shape of a decoded tally. *)
Definition digit_char (c : ascii) : Prop := Score.is_digit c = true.

Definition written (p : nat * nat) : list ascii * list ascii :=
  (digits_of p.1, digits_of p.2).

Definition score_char (c : ascii) : Prop :=
  Score.is_digit c = true ∨ c = Score.hyphen ∨ c = " "%char.

Definition consistent (t : Score.tally) : Prop :=
  Score.nonneg t ∧ Score.sets_1 t ≤ Score.games_1 t
  ∧ Score.sets_2 t ≤ Score.games_2 t
  ∧ 7 * Score.tie_breaks t ≤ Score.games_1 t + Score.games_2 t.

(** The counts a list of sets stands for: the games of each side, the sets
    each side took, and the sets in which a side reached seven games. *)
Definition tally_of_sets (sets : list (nat * nat)) : Score.tally :=
  {| Score.games_1 := Z.of_nat (sum_list_with fst sets);
     Score.games_2 := Z.of_nat (sum_list_with snd sets);
     Score.sets_1 :=
       Z.of_nat (length (filter (fun p => p.2 < p.1)%nat sets));
     Score.sets_2 :=
       Z.of_nat (length (filter (fun p => p.1 < p.2)%nat sets));
     Score.tie_breaks :=
       Z.of_nat (length (filter (fun p => 7 ≤ p.1 `max` p.2)%nat sets)) |}.

(** ** Loading: the column names and the choice of the file *)

(** [str.replace(" ", "_")]. *)
Definition replace_blank (s : list ascii) : list ascii :=
  map (fun c => if Ascii.eqb c " " then "_"%char else c) s.

(** [c.strip().lower().replace(" ", "_")] (line 87). *)
Definition normalise_column (c : string) : string :=
  string_of_list_ascii
    (replace_blank (Score.lower (Score.strip (list_ascii_of_string c)))).

(** One character of a normalised name: lower case, the blank replaced. *)
Definition tidy_char (c : ascii) : ascii :=
  if Ascii.eqb (Score.lower_char c) " " then "_"%char else Score.lower_char c.

(** [load_raw_matches], on the header of the file it has read: the column
    names of the frame it returns. *)
Definition load_raw_matches (header : list string) : list string :=
  normalise_column <$> header.

(** A file found under the data set directory: [p.name] and
    [p.stat().st_size]. *)
Record CsvFile := mkFile { file_name : string; st_size : Z }.

Definition newline : ascii := "010"%char.

Definition no_newline (s : list ascii) : bool :=
  forallb (fun c => negb (Ascii.eqb c newline)) s.

Definition text_eqb (s t : list ascii) : bool :=
  bool_decide (s = t).

(** [re.search(r"^wta.*\.csv$", name, re.I)]: the name starts with "wta"
    in any case; [.*] takes [k] characters other than a line feed; ".csv"
    follows, at the end of the name or before a final line feed. *)
Definition wta_csv (name : string) : bool :=
  let s := Score.lower (list_ascii_of_string name) in
  Score.starts_with (list_ascii_of_string "wta") s
  && existsb
       (fun k =>
          no_newline (take k (drop 3 s))
          && (text_eqb (drop k (drop 3 s)) (list_ascii_of_string ".csv")
              || text_eqb (drop k (drop 3 s))
                   (list_ascii_of_string ".csv" ++ [newline])))
       (seq 0 (S (length (drop 3 s)))).

(** ["match" in p.name.lower()]. *)
Definition match_named (name : string) : bool :=
  Score.contains (list_ascii_of_string "match")
    (Score.lower (list_ascii_of_string name)).

(** [A or B or C] on lists: the first that is not empty. *)
Definition or_else {A} (l k : list A) : list A :=
  match l with [] => k | _ :: _ => l end.

(** [max(files, key=size)] scanning from [best]: the first file of
    greatest size. *)
Fixpoint largest (best : CsvFile) (files : list CsvFile) : CsvFile :=
  match files with
  | [] => best
  | f :: rest =>
      largest (if st_size best <? st_size f then f else best) rest
  end.

(** The two ways the search can fail: no candidate (line 76), and [max]
    called on an empty list. *)
Inductive file_error := FileNotFoundError | EmptyMaxError.

(** [find_matches_csv], on the files [root.rglob("*.csv")] lists. *)
Definition find_matches_csv (candidates : list CsvFile)
    : file_error + CsvFile :=
  match candidates with
  | [] => inl FileNotFoundError
  | _ :: _ =>
      let preferred :=
        or_else (filter (fun p => wta_csv (file_name p) = true) candidates)
          (or_else
             (filter (fun p => match_named (file_name p) = true) candidates)
             candidates) in
      match preferred with
      | [] => inl EmptyMaxError
      | f :: rest => inr (largest f rest)
      end
  end.

(** ** Further sample frames *)

(** Four meetings of A and B; before the fourth each of them has three
    entries, all on the same surface. *)
Definition rematch_frame : list Match :=
  [sample_match "A" "B" "A" (mkDate 2015 1 5) "6-4 6-2" 10 50;
   sample_match "B" "A" "A" (mkDate 2015 2 5) "3-6 2-6" 51 20;
   sample_match "A" "B" "B" (mkDate 2015 3 1) "6-7 1-6" 40 60;
   sample_match "A" "B" "A" (mkDate 2015 3 20) "6-0 6-0" 45 70].

(** A table without the [score] column, and one without the [court]
    column. *)
Definition frame_without_score : Frame :=
  {| columns := ["date"; "player_1"; "player_2"; "winner"]%string;
     rows := [tie_row "A" "B"] |}.

Definition frame_without_court : Frame :=
  {| columns :=
       ["tournament"; "date"; "surface"; "round"; "best_of"; "player_1";
        "player_2"; "winner"; "score"; "rank_1"; "rank_2"; "pts_1"; "pts_2";
        "odd_1"; "odd_2"]%string;
     rows := [tie_row "A" "B"] |}.

(** A record naming one player on both sides. *)
Definition twice_named_match : Match :=
  sample_match "A" "A" "A" (mkDate 2016 1 4) "6-1 6-1" 40 40.


(** A fifth meeting of A and B after those of [rematch_frame]. *)
Definition rematch_frame_5 : list Match :=
  rematch_frame
  ++ [sample_match "B" "A" "B" (mkDate 2015 4 10) "6-3 6-4" 60 44].

(** ** Tables of complete records *)

(** The raw row of a record: both players and the date are present. *)
Definition raw_of (m : Match) : RawRow :=
  {| raw_player_1 := Some (player_1 m); raw_player_2 := Some (player_2 m);
     raw_date := Some (date m); raw_winner := winner m;
     raw_surface := surface m; raw_score := score m;
     raw_rank_1 := rank_1 m; raw_rank_2 := rank_2 m;
     raw_pts_1 := pts_1 m; raw_pts_2 := pts_2 m;
     raw_odd_1 := odd_1 m; raw_odd_2 := odd_2 m;
     raw_tournament := tournament m; raw_court := court m;
     raw_round := round m; raw_best_of := best_of m |}.

(** The table with every column that holds the records of [df], in the
    order of [df]. *)
Definition table_of (df : list Match) : Frame :=
  {| columns := full_columns; rows := raw_of <$> df |}.


(** Dates strictly ascending: the rows are in date order and no two of them
    share a date. *)
Definition date_lt (a b : Match) : Prop :=
  toordinal (date a) < toordinal (date b).

Definition strictly_chronological (df : list Match) : Prop :=
  StronglySorted date_lt df.



(** * Properties *)

(** ** Score decoder *)

Section score_facts.
Import Score.

Lemma span_digits_app s :
  fst (span_digits s) ++ snd (span_digits s) = s.
Proof.
  induction s as [|c s IH]; simpl; [done|].
  destruct (is_digit c); [|done].
  destruct (span_digits s) as [ds rest]; simpl in *. by rewrite IH.
Qed.

Lemma span_digits_digits s : Forall (fun c => is_digit c = true) (fst (span_digits s)).
Proof.
  induction s as [|c s IH]; simpl; [constructor|].
  destruct (is_digit c) eqn:Hc; [|constructor].
  destruct (span_digits s) as [ds rest]; simpl in *. by constructor.
Qed.

Lemma match_here_inv s lhs rhs rest :
  match_here s = Some (lhs, rhs, rest) →
  Forall (fun c => is_digit c = true) lhs
  ∧ Forall (fun c => is_digit c = true) rhs
  ∧ (List.length rest < List.length s)%nat.
Proof.
  unfold match_here. intros Hm.
  pose proof (span_digits_app s) as Happ.
  pose proof (span_digits_digits s) as Hd.
  destruct (span_digits s) as [[|d ds] [|c after]]; simpl in *; try done.
  destruct (Ascii.eqb c hyphen); [|done].
  pose proof (span_digits_app after) as Happ'.
  pose proof (span_digits_digits after) as Hd'.
  destruct (span_digits after) as [[|e es] rest']; simpl in *; [done|].
  injection Hm as <- <- <-. repeat split; [done..|].
  subst s after. simpl. rewrite !length_app. simpl. rewrite !length_app. lia.
Qed.

(** The scan never needs more fuel than the length of the text. *)
Lemma findall_from_enough n s :
  (List.length s ≤ n)%nat → findall_from n s = findall s.
Proof.
  unfold findall. revert s.
  induction (lt_wf n) as [n _ IH]. intros s Hn.
  destruct s as [|c s]; [by destruct n|].
  destruct n as [|n]; simpl in Hn; [lia|]. simpl.
  destruct (match_here (c :: s)) as [[[lhs rhs] rest]|] eqn:Hm.
  - apply match_here_inv in Hm as (_ & _ & Hlen). simpl in Hlen.
    f_equal. rewrite (IH n) by lia.
    symmetry. rewrite (IH (List.length s)) by lia. done.
  - rewrite (IH n) by lia. done.
Qed.

Lemma findall_digits s :
  Forall (fun p => Forall (fun c => is_digit c = true) (fst p)
                   ∧ Forall (fun c => is_digit c = true) (snd p))
         (findall s).
Proof.
  unfold findall. generalize (List.length s) as n. intros n. revert s.
  induction n as [|n IH]; intros s; simpl; [constructor|].
  destruct s as [|c s]; [constructor|].
  destruct (match_here (c :: s)) as [[[lhs rhs] rest]|] eqn:Hm; [|apply IH].
  apply match_here_inv in Hm as (Hl & Hr & _). constructor; [done|apply IH].
Qed.

Lemma fold_digits_nonneg ds acc :
  0 ≤ acc → Forall (fun c => is_digit c = true) ds →
  0 ≤ fold_left (fun a c => 10 * a + (Z.of_N (N_of_ascii c) - 48)) ds acc.
Proof.
  revert acc. induction ds as [|c ds IH]; intros acc Hacc Hds; simpl; [done|].
  inversion Hds as [|? ? Hc Hds']; subst. apply IH; [|done].
  unfold is_digit in Hc. apply andb_true_iff in Hc as [Hc _].
  apply N.leb_le in Hc. lia.
Qed.

Lemma int_of_digits_nonneg ds :
  Forall (fun c => is_digit c = true) ds → 0 ≤ int_of_digits ds.
Proof. intros Hds. by apply fold_digits_nonneg. Qed.

Lemma add_set_nonneg t p :
  nonneg t → 0 ≤ int_of_digits (fst p) → 0 ≤ int_of_digits (snd p) →
  nonneg (add_set t p).
Proof.
  unfold nonneg, add_set. intros (?&?&?&?&?) ? ?. simpl.
  repeat split; repeat case_match; lia.
Qed.

Lemma fold_add_set_nonneg ps t :
  nonneg t →
  Forall (fun p => Forall (fun c => is_digit c = true) (fst p)
                   ∧ Forall (fun c => is_digit c = true) (snd p)) ps →
  nonneg (fold_left add_set ps t).
Proof.
  revert t. induction ps as [|p ps IH]; intros t Ht Hps; simpl; [done|].
  inversion Hps as [|? ? [Hl Hr] Hps']; subst.
  apply IH; [|done]. apply add_set_nonneg; auto using int_of_digits_nonneg.
Qed.

(** Every value decodes to five non-negative counts: the decoder is a total
    function, so no input makes it fail. *)
Lemma parse_score_nonneg v : nonneg (parse_score v).
Proof.
  assert (nonneg zeros) as Hz by (unfold nonneg; simpl; lia).
  destruct v as [text|]; simpl; [|done].
  destruct (strip (list_ascii_of_string text)) as [|c s]; [done|].
  destruct (walkover (c :: s)); [done|].
  apply fold_add_set_nonneg; [done|apply findall_digits].
Qed.

(** A value that is not text, an empty token and a walkover token decode to
    zeros. *)
Lemma parse_score_degenerate :
  parse_score None = zeros
  ∧ (∀ text, strip (list_ascii_of_string text) = [] →
             parse_score (Some text) = zeros)
  ∧ (∀ text, walkover (strip (list_ascii_of_string text)) = true →
             parse_score (Some text) = zeros).
Proof.
  split; [done|]. split; intros text H; unfold parse_score.
  - by rewrite H.
  - destruct (strip (list_ascii_of_string text)); [done|]. by rewrite H.
Qed.

(** One set: its games go to the two sides, the set to the side with
    strictly more games, and a tie-break is counted exactly when the larger
    count reaches seven. *)
Lemma add_set_spec t p :
  let g1 := int_of_digits (fst p) in
  let g2 := int_of_digits (snd p) in
  games_1 (add_set t p) = games_1 t + g1
  ∧ games_2 (add_set t p) = games_2 t + g2
  ∧ sets_1 (add_set t p) = sets_1 t + (if bool_decide (g2 < g1) then 1 else 0)
  ∧ sets_2 (add_set t p) = sets_2 t + (if bool_decide (g1 < g2) then 1 else 0)
  ∧ tie_breaks (add_set t p)
    = tie_breaks t + (if bool_decide (7 ≤ Z.max g1 g2) then 1 else 0).
Proof.
  simpl. unfold add_set. simpl.
  repeat split; repeat case_bool_decide; repeat case_match; lia.
Qed.

(** C8: a retirement token that carries the games played before the
    retirement is decoded like any other score, not to zeros. *)
Theorem parse_score_retirement :
  parse_score (Some "6-4 2-1 RET"%string) = Tally 8 5 2 0 0
  ∧ parse_score (Some "6-4 2-1 RET"%string) ≠ zeros.
Proof. split; [by vm_compute|]. by vm_compute. Qed.
End score_facts.

(** ** Rating engine *)

Section elo_facts.
Import Elo.

Lemma power_of_ten_pos x : (0 < Rpower 10 x)%R.
Proof. unfold Rpower. apply exp_pos. Qed.

Lemma expected_score_bounds mine theirs :
  (0 < expected_score mine theirs < 1)%R.
Proof.
  unfold expected_score.
  pose proof (power_of_ten_pos ((theirs - mine) / 400)) as Hp.
  split.
  - apply Rdiv_lt_0_compat; lra.
  - apply (Rmult_lt_reg_r (1 + Rpower 10 ((theirs - mine) / 400))); [lra|].
    field_simplify; lra.
Qed.

Lemma pull_offset decay r : (pull decay r - 1500 = (r - 1500) * decay)%R.
Proof. unfold pull. lra. Qed.

Lemma decay_factor_compounds cfg (n : nat) :
  decay_factor cfg (Z.of_nat n) = (exp (- elo_decay cfg) ^ n)%R.
Proof.
  unfold decay_factor. induction n as [|n IH].
  - simpl. rewrite Rmult_0_r. apply exp_0.
  - rewrite Nat2Z.inj_succ, succ_IZR. simpl pow. rewrite <- IH.
    rewrite <- exp_plus. f_equal. lra.
Qed.

(** C5: when the year of a match exceeds the last year seen, every rating
    the tables hold is pulled toward 1500 by the factor of the elapsed
    years before the match reads them; with no elapsed year the tables are
    left as they are, and the year of the match becomes the last year
    seen, so that a later match of the same year brings no further
    decay. *)
Theorem decay_on_year_change cfg st m prev :
  last_year st = Some prev →
  let yr := year (date m) in
  let st1 := apply_decay cfg st yr in
  step cfg st m = (apply_result cfg st1 m, read st1 m)
  ∧ last_year (fst (step cfg st m)) = Some yr
  ∧ (prev < yr →
     (∀ p old, ratings st !! p = Some old →
        ratings st1 !! p
        = Some (1500 + (old - 1500) * exp (- elo_decay cfg * IZR (yr - prev)))%R)
     ∧ (∀ k old, surface_ratings st !! k = Some old →
          surface_ratings st1 !! k
          = Some (1500 + (old - 1500) * exp (- elo_decay cfg * IZR (yr - prev)))%R)
     ∧ dom (ratings st1) = dom (ratings st)
     ∧ dom (surface_ratings st1) = dom (surface_ratings st)
     ∧ exp (- elo_decay cfg * IZR (yr - prev))
       = (exp (- elo_decay cfg) ^ Z.to_nat (yr - prev))%R
     ∧ (yr - prev = 1 →
        ∀ p old new, ratings st !! p = Some old → ratings st1 !! p = Some new →
          (new - 1500 = (old - 1500) * exp (- elo_decay cfg))%R))
  ∧ (yr = prev →
     ratings st1 = ratings st ∧ surface_ratings st1 = surface_ratings st).
Proof.
  intros Hprev yr st1. split; [done|].
  split.
  { unfold step, apply_result, apply_decay. simpl. rewrite Hprev.
    by case_bool_decide. }
  split.
  - intros Hlt.
    assert (ratings st1 = pull (decay_factor cfg (yr - prev)) <$> ratings st
            ∧ surface_ratings st1
              = pull (decay_factor cfg (yr - prev)) <$> surface_ratings st)
      as [Hr Hs].
    { unfold st1, apply_decay. rewrite Hprev.
      rewrite bool_decide_eq_true_2 by done. done. }
    rewrite Hr, Hs. repeat split.
    + intros p old Hp. rewrite lookup_fmap, Hp. done.
    + intros k old Hk. rewrite lookup_fmap, Hk. done.
    + apply dom_fmap_L.
    + apply dom_fmap_L.
    + pose proof (decay_factor_compounds cfg (Z.to_nat (yr - prev))) as Hc.
      rewrite Z2Nat.id in Hc by lia. exact Hc.
    + intros Hone p old new Hp. rewrite lookup_fmap, Hp. simpl.
      intros [= <-]. rewrite pull_offset. unfold decay_factor.
      rewrite Hone. f_equal. f_equal. lra.
  - intros Heq. unfold st1, apply_decay. rewrite Hprev.
    rewrite bool_decide_eq_false_2 by lia. done.
Qed.
End elo_facts.

(** ** Head-to-head tracker *)

Section h2h_facts.
Import H2H.

Lemma h2h_run_app st pre post :
  run st (pre ++ post) = run st pre ++ run (state_after st pre) post.
Proof.
  revert st. induction pre as [|m pre IH]; intros st; simpl; [done|].
  f_equal. apply IH.
Qed.

Lemma h2h_run_length st df : length (run st df) = length df.
Proof. revert st. induction df as [|m df IH]; intros st; simpl; [done|]. by rewrite IH. Qed.

(** The row of a match is read from the state its predecessors left. *)
Lemma h2h_run_lookup st pre m post :
  run st (pre ++ m :: post) !! length pre
  = Some (advantage (state_after st pre) (player_1 m) (player_2 m),
          last_meeting_direction (state_after st pre) (player_1 m) (player_2 m)).
Proof.
  rewrite h2h_run_app. rewrite lookup_app_r by (rewrite h2h_run_length; lia).
  rewrite h2h_run_length, Nat.sub_diag. done.
Qed.

Lemma wins_of_record st m a b :
  valid_winner m →
  wins_of (record st m) (a, b)
  = wins_of st (a, b) + (if decide (met_and_won a b m) then 1 else 0).
Proof.
  intros Hv. unfold record, winner_is, wins_of.
  case_bool_decide as Hw; simpl.
  - destruct (decide ((player_1 m, player_2 m) = (a, b))) as [[= <- <-]|Hk].
    + rewrite lookup_insert_eq. simpl.
      rewrite decide_True; [done|]. split; [by left|done].
    + rewrite lookup_insert_ne by done.
      rewrite decide_False; [lia|].
      intros [[[<- <-]|[Hb Ha]] Hwa]; [done|].
      rewrite Hw in Hwa. injection Hwa as Hab. congruence.
  - destruct (decide ((player_2 m, player_1 m) = (a, b))) as [[= <- <-]|Hk].
    + rewrite lookup_insert_eq. simpl.
      rewrite decide_True; [done|].
      split; [by right|]. by destruct Hv.
    + rewrite lookup_insert_ne by done.
      rewrite decide_False; [lia|].
      intros [[[<- <-]|[Hb Ha]] Hwa]; [done|]. congruence.
Qed.

Lemma wins_over_cons m hist a b :
  wins_over (m :: hist) a b
  = (if decide (met_and_won a b m) then 1 else 0) + wins_over hist a b.
Proof.
  unfold wins_over. rewrite filter_cons. case_decide; simpl; lia.
Qed.

(** The counter of an ordered pair is the number of earlier meetings its
    first player won. *)
Lemma wins_of_state_after st hist a b :
  Forall valid_winner hist →
  wins_of (state_after st hist) (a, b) = wins_of st (a, b) + wins_over hist a b.
Proof.
  intros Hv. revert st. induction Hv as [|m hist Hm Hv IH]; intros st.
  - unfold wins_over. simpl. lia.
  - unfold state_after in *. simpl. rewrite IH.
    rewrite wins_of_record by done. rewrite wins_over_cons. lia.
Qed.

Lemma wins_of_init key : wins_of init key = 0.
Proof. unfold wins_of. simpl. by rewrite lookup_empty. Qed.

Lemma wins_over_nonneg hist a b : 0 ≤ wins_over hist a b.
Proof. unfold wins_over. lia. Qed.

Lemma advantage_counts st a b :
  0 ≤ wins_of st (a, b) → 0 ≤ wins_of st (b, a) →
  advantage st a b = advantage_of_counts (wins_of st (a, b)) (wins_of st (b, a)).
Proof.
  intros Ha Hb. unfold advantage, advantage_of_counts.
  destruct (Z.ltb_spec 0 (wins_of st (a, b) + wins_of st (b, a)));
    destruct (Z.eqb_spec (wins_of st (a, b) + wins_of st (b, a)) 0); try lia; done.
Qed.

(** C7: the advantage written on a row is computed from the meetings that
    precede it: the difference of the two players' wins over their sum, and
    zero when there is none. *)
Theorem h2h_advantage_from_prior_meetings pre m post :
  Forall valid_winner pre →
  let w := wins_over pre (player_1 m) (player_2 m) in
  let l := wins_over pre (player_2 m) (player_1 m) in
  let adv := fst <$> compute_head_to_head (pre ++ m :: post) !! length pre in
  adv = Some (advantage_of_counts w l)
  ∧ (w + l ≠ 0 → adv = Some (IZR (w - l) / IZR (w + l))%R)
  ∧ (w = 0 ∧ l = 0 → adv = Some 0%R)
  ∧ (w = 1 ∧ l = 0 → adv = Some 1%R)
  ∧ (w = 1 ∧ l = 1 → adv = Some 0%R).
Proof.
  intros Hv w l adv.
  assert (adv = Some (advantage_of_counts w l)) as Hadv.
  { unfold adv, compute_head_to_head. rewrite h2h_run_lookup. simpl. f_equal.
    rewrite advantage_counts;
      rewrite ?wins_of_state_after, ?wins_of_init by done;
      rewrite ?Z.add_0_l; [done|apply wins_over_nonneg..]. }
  clearbody w l adv. subst adv. unfold advantage_of_counts.
  repeat split.
  - intros Hne. destruct (Z.eqb_spec (w + l) 0); [lia|done].
  - intros [-> ->]. done.
  - intros [-> ->]. change (Some (1 / 1)%R = Some 1%R). f_equal. lra.
  - intros [-> ->]. change (Some (0 / 2)%R = Some 0%R). f_equal. lra.
Qed.
End h2h_facts.

(** ** Stable sorting *)

Section stable_sort_facts.
Context {A : Type} (leb : A → A → bool) (lt : relation A).
Hypothesis leb_trans :
  ∀ a b c, leb a b = true → leb b c = true → leb a c = true.
Hypothesis lt_leb : ∀ a b, lt a b → leb a b = true.

Lemma insert_sorted_perm x s : insert_sorted leb x s ≡ₚ x :: s.
Proof.
  induction s as [|y s IH]; simpl; [done|].
  destruct (leb x y); [done|]. rewrite IH. apply Permutation_swap.
Qed.

Lemma stable_sort_perm l : stable_sort leb l ≡ₚ l.
Proof.
  induction l as [|x l IH]; simpl; [done|].
  rewrite insert_sorted_perm. by rewrite IH.
Qed.

Lemma insert_sorted_strongly x s :
  StronglySorted lt s → Forall (placed leb lt x) s →
  StronglySorted lt (insert_sorted leb x s).
Proof.
  intros Hs. induction Hs as [|y s Hs IH Hy]; intros Hx; simpl.
  - repeat constructor.
  - inversion Hx as [|? ? Hxy Hxs]; subst. unfold placed in Hxy.
    destruct (leb x y) eqn:Hle.
    + constructor; [by constructor|]. constructor; [done|].
      rewrite Forall_forall in Hy, Hxs |- *. intros z Hz.
      specialize (Hxs z Hz). unfold placed in Hxs.
      rewrite (leb_trans x y z) in Hxs; auto.
    + constructor; [by apply IH|].
      rewrite insert_sorted_perm. by constructor.
Qed.

(** A stable sort realises any strict order that refines its key order by
    the order of the input. *)
Lemma stable_sort_strongly l :
  well_placed leb lt l → StronglySorted lt (stable_sort leb l).
Proof.
  induction l as [|x l IH]; simpl; [constructor|].
  intros [Hx Hl]. apply insert_sorted_strongly; [by apply IH|].
  by rewrite stable_sort_perm.
Qed.
End stable_sort_facts.

Lemma filter_none {A} (P : A → Prop) `{!∀ x, Decision (P x)} (l : list A) :
  Forall (fun x => ¬ P x) l → filter P l = [].
Proof.
  induction 1 as [|x l Hx Hl IH]; [done|]. by rewrite filter_cons_False.
Qed.

Lemma filter_all {A} (P : A → Prop) `{!∀ x, Decision (P x)} (l : list A) :
  Forall P l → filter P l = l.
Proof.
  induction 1 as [|x l Hx Hl IH]; [done|]. rewrite filter_cons_True by done.
  by rewrite IH.
Qed.

(** In a list strictly sorted by an asymmetric relation the rows above a row
    are those the relation puts before it. *)
Lemma strongly_sorted_take {A} (lt : relation A) `{!∀ x y, Decision (lt x y)}
    (l : list A) (i : nat) (r : A) :
  (∀ x y, lt x y → lt y x → False) →
  StronglySorted lt l → l !! i = Some r →
  take i l = filter (fun x => lt x r) l.
Proof.
  intros Hasym Hs. revert i. induction Hs as [|y s Hs IH Hy]; intros i Hi; [done|].
  destruct i as [|i]; simpl in *.
  - injection Hi as ->. rewrite filter_cons_False by eauto.
    symmetry. apply filter_none. rewrite Forall_forall in Hy |- *.
    intros z Hz Hzr. eauto.
  - rewrite (IH i Hi). rewrite filter_cons_True; [done|].
    rewrite Forall_forall in Hy. apply Hy. by eapply list_elem_of_lookup_2.
Qed.

(** ** The order of the sorted long frame *)

Lemma string_leb_le a b : String.leb a b = true ↔ String.le a b.
Proof. unfold String.le. by rewrite Is_true_true. Qed.

Lemma name_lt_irrefl a : ¬ name_lt a a.
Proof. by intros [? _]. Qed.

Lemma name_lt_asym a b : name_lt a b → name_lt b a → False.
Proof.
  intros [Hne Hab] [_ Hba]. apply Hne.
  by apply (anti_symm String.le).
Qed.

Lemma name_lt_trans a b c : name_lt a b → name_lt b c → name_lt a c.
Proof.
  intros [Hab Hle1] [Hbc Hle2]. split.
  - intros ->. apply Hab. by apply (anti_symm String.le).
  - by trans b.
Qed.

Lemma name_trichotomy a b : a = b ∨ name_lt a b ∨ name_lt b a.
Proof.
  destruct (decide (a = b)) as [|Hne]; [by left|right].
  destruct (total String.le a b); [left|right]; split; auto.
Qed.

Lemma long_key_leb_spec x y : long_key_leb x y = true ↔ long_key_le x y.
Proof.
  unfold long_key_leb, long_key_le, name_lt.
  destruct (String.eqb_spec (Long.player x) (Long.player y)) as [Hp|Hp].
  - destruct (Z.eqb_spec (toordinal (Long.date x)) (toordinal (Long.date y)))
      as [Hd|Hd].
    + rewrite Nat.leb_le. split.
      * intros Hid. right. split; [done|]. by right.
      * intros [[Hne _]|[_ [Hlt|[_ Hid]]]]; [done|lia|done].
    + rewrite Z.ltb_lt. split.
      * intros Hlt. right. split; [done|]. by left.
      * intros [[Hne _]|[_ [Hlt|[Heq _]]]]; done.
  - rewrite string_leb_le. split.
    + intros Hle. by left.
    + intros [[_ Hle]|[Heq _]]; done.
Qed.

Lemma long_key_le_trans x y z :
  long_key_le x y → long_key_le y z → long_key_le x z.
Proof.
  unfold long_key_le.
  intros [Hxy|[Hxy Hxy']] [Hyz|[Hyz Hyz']].
  - left. by eapply name_lt_trans.
  - left. by rewrite <- Hyz.
  - left. by rewrite Hxy.
  - right. split; [congruence|lia].
Qed.

Lemma long_key_le_total x y : long_key_le x y ∨ row_lt y x.
Proof.
  unfold long_key_le, row_lt.
  destruct (name_trichotomy (Long.player x) (Long.player y)) as [Hp|[Hp|Hp]];
    [|by left; left|by right; left].
  destruct (Z.lt_total (toordinal (Long.date x)) (toordinal (Long.date y)))
    as [?|[?|?]]; [by left; right; split; [|left]| |by right; right; split; [|left]].
  destruct (Nat.le_gt_cases (Long.match_id x) (Long.match_id y)).
  - left. right. split; [done|]. right. done.
  - right. right. split; [done|]. right. split; [done|]. by left.
Qed.

Lemma row_lt_key_le x y : row_lt x y → long_key_le x y.
Proof.
  unfold row_lt, long_key_le.
  intros [Hn|[Hp [Hd|[Hd [Hid|(Hid & _)]]]]]; [by left|right..];
    (split; [done|]); [by left|right; split; [done|lia]..].
Qed.

Lemma row_lt_asym x y : row_lt x y → row_lt y x → False.
Proof.
  unfold row_lt.
  intros [Hxy|[Hxy Hxy']] [Hyx|[Hyx Hyx']].
  - by eapply name_lt_asym.
  - rewrite Hyx in Hxy. by eapply name_lt_irrefl.
  - rewrite Hxy in Hyx. by eapply name_lt_irrefl.
  - destruct Hxy' as [?|[? [?|(?&?&?)]]], Hyx' as [?|[? [?|(?&?&?)]]];
      try lia; congruence.
Qed.

Lemma row_lt_irrefl x : ¬ row_lt x x.
Proof. intros H. by eapply row_lt_asym. Qed.

(** A row that precedes another in the concatenation of the two blocks is
    well placed when its identifier is smaller, or when it is a first-block
    row and the other a second-block row. *)
Lemma placed_long x y :
  (Long.match_id x < Long.match_id y)%nat
  ∨ (Long.is_player_1 x = true ∧ Long.is_player_1 y = false) →
  placed long_key_leb row_lt x y.
Proof.
  intros Hpos. unfold placed.
  destruct (long_key_leb x y) eqn:Hle.
  - apply long_key_leb_spec in Hle. unfold long_key_le, row_lt in *.
    destruct Hle as [?|[? [?|[? Hid]]]]; [by left|by right; split; [|left]|].
    right. split; [done|]. right. split; [done|].
    destruct Hpos as [?|[? ?]]; [by left|].
    destruct (decide (Long.match_id x = Long.match_id y)); [by right|left; lia].
  - destruct (long_key_le_total x y) as [Hle'|]; [|done].
    apply long_key_leb_spec in Hle'. congruence.
Qed.

Lemma well_placed_app {A} (leb : A → A → bool) (lt : relation A) l1 l2 :
  well_placed leb lt l1 → well_placed leb lt l2 →
  (∀ x y, x ∈ l1 → y ∈ l2 → placed leb lt x y) →
  well_placed leb lt (l1 ++ l2).
Proof.
  intros H1 H2 H12. induction l1 as [|x l1 IH]; simpl; [done|].
  destruct H1 as [Hx H1]. split.
  - apply Forall_app. split; [done|].
    apply Forall_forall. intros y Hy. apply H12; [left|done].
  - apply IH; [done|]. intros x' y Hx' Hy. apply H12; [by right|done].
Qed.

Lemma well_placed_block (mk : nat → Match → Long.row) k df :
  (∀ j m, Long.match_id (mk j m) = j) →
  well_placed long_key_leb row_lt (imap (fun j => mk (k + j)%nat) df).
Proof.
  intros Hid. revert k. induction df as [|m df IH]; intros k; simpl; [done|].
  split.
  - apply Forall_forall. intros y Hy.
    apply list_elem_of_lookup in Hy as [j Hj].
    rewrite list_lookup_imap in Hj.
    destruct (df !! j) as [mj|]; simplify_eq/=.
    apply placed_long. left. rewrite !Hid. lia.
  - erewrite imap_ext; [apply (IH (S k))|].
    intros j mj _. simpl. f_equal. lia.
Qed.

Lemma elem_of_imap_rows (mk : nat → Match → Long.row) df x :
  x ∈ imap mk df ↔ ∃ j m, df !! j = Some m ∧ x = mk j m.
Proof.
  rewrite list_elem_of_lookup. split.
  - intros [j Hj]. rewrite list_lookup_imap in Hj.
    destruct (df !! j) as [m|] eqn:Hm; simplify_eq/=. eauto.
  - intros (j & m & Hm & ->). exists j. by rewrite list_lookup_imap, Hm.
Qed.

Lemma well_placed_expand_long df :
  well_placed long_key_leb row_lt (expand_long df).
Proof.
  unfold expand_long. apply well_placed_app.
  - apply (well_placed_block first_row 0). done.
  - apply (well_placed_block second_row 0). done.
  - intros x y Hx Hy.
    apply elem_of_imap_rows in Hx as (j & m & _ & ->).
    apply elem_of_imap_rows in Hy as (j' & m' & _ & ->).
    apply placed_long. by right.
Qed.

(** The sorted long frame holds the rows of the long frame, in the row
    order. *)
Lemma sort_long_perm long_df : sort_long long_df ≡ₚ long_df.
Proof. apply stable_sort_perm. Qed.

Lemma sort_long_sorted df :
  StronglySorted row_lt (sort_long (expand_long df)).
Proof.
  apply stable_sort_strongly.
  - intros a b c. rewrite !long_key_leb_spec. apply long_key_le_trans.
  - intros a b Hab. apply long_key_leb_spec. by apply row_lt_key_le.
  - apply well_placed_expand_long.
Qed.

(** ** Rolling window aggregator *)

Lemma shift_length {V} n (s : list (option V)) : length (shift n s) = length s.
Proof. unfold shift. rewrite length_take, length_app. lia. Qed.

Lemma shift_lookup {V} n (s : list (option V)) j :
  (j < length s)%nat →
  shift n s !! j
  = Some (if decide (j < n)%nat then None else default None (s !! (j - n)%nat)).
Proof.
  intros Hj. unfold shift. rewrite lookup_take_lt by done.
  case_decide as Hn.
  - rewrite lookup_app_l by (rewrite length_replicate; lia).
    by rewrite lookup_replicate_2.
  - rewrite lookup_app_r by (rewrite length_replicate; lia).
    rewrite length_replicate.
    destruct (lookup_lt_is_Some_2 s (j - n)%nat) as [x Hx]; [lia|].
    by rewrite Hx.
Qed.

Lemma shift_one_take {V} (s : list (option V)) j :
  (j < length s)%nat → take (S j) (shift 1 s) = None :: take j s.
Proof.
  intros Hj. unfold shift. rewrite take_take.
  replace (S j `min` length s)%nat with (S j) by lia. done.
Qed.

(** What [_rolling] writes at a position: the trailing mean of the entries
    before it. *)
Lemma rolling_lookup (s : list (option R)) (w mp j : nat) :
  (j < length s)%nat →
  _rolling s w mp !! j = Some (trailing_mean w mp (take j s)).
Proof.
  intros Hj. unfold _rolling, rolling_mean.
  rewrite list_lookup_imap.
  destruct (lookup_lt_is_Some_2 (shift 1 s) j) as [x Hx];
    [by rewrite shift_length|].
  rewrite Hx. simpl. f_equal. unfold trailing_mean, window, last_n.
  rewrite Nat.add_1_r, shift_one_take by done.
  rewrite length_take, Nat.min_l by lia.
  destruct (decide (j < w)%nat) as [Hw|Hw].
  - replace (S j - w)%nat with 0%nat by lia.
    replace (j - w)%nat with 0%nat by lia. done.
  - replace (S j - w)%nat with (S (j - w)) by lia. done.
Qed.

Lemma rev_take_S {V} (s : list V) j x :
  s !! j = Some x → rev (take (S j) s) = x :: rev (take j s).
Proof. intros Hx. rewrite (take_S_r _ _ _ Hx). apply rev_unit. Qed.

(** What [s.shift(1) - s.shift(2)] writes at a position. *)
Lemma trend_lookup (s : list (option R)) j :
  (j < length s)%nat → trend s !! j = Some (trend_at (take j s)).
Proof.
  intros Hj. unfold trend. rewrite lookup_zip_with.
  rewrite !shift_lookup by done. simpl. f_equal. unfold trend_at.
  destruct j as [|[|j]].
  - done.
  - destruct (lookup_lt_is_Some_2 s 0) as [a Ha]; [lia|].
    rewrite (rev_take_S s 0 a Ha). simpl. rewrite Ha. simpl. by destruct a.
  - destruct (lookup_lt_is_Some_2 s (S j)) as [a Ha]; [lia|].
    destruct (lookup_lt_is_Some_2 s j) as [b Hb]; [lia|].
    rewrite (rev_take_S s (S j) a Ha), (rev_take_S s j b Hb).
    repeat case_decide; try lia.
    replace (S (S j) - 1)%nat with (S j) by lia.
    replace (S (S j) - 2)%nat with j by lia.
    by rewrite Ha, Hb.
Qed.

Lemma last_take_S {V} (s : list V) j :
  (j < length s)%nat → last (take (S j) s) = s !! j.
Proof.
  intros Hj. destruct (lookup_lt_is_Some_2 s j Hj) as [x Hx].
  rewrite (take_S_r _ _ _ Hx), Hx. apply last_snoc.
Qed.

(** What [diff().dt.days] writes at a position. *)
Lemma diff_days_lookup (s : list Date) j d :
  s !! j = Some d →
  diff_days s !! j
  = Some ((fun prev => toordinal d - toordinal prev) <$> last (take j s)).
Proof.
  intros Hd. unfold diff_days. rewrite list_lookup_imap, Hd. simpl.
  destruct j as [|j]; [done|]. rewrite last_take_S; [done|].
  apply lookup_lt_Some in Hd. lia.
Qed.

(** Grouped series: the series of a row's group up to the row is the series
    of the rows of the group that stand above it. *)
Lemma group_take {A} (P : A → Prop) `{!∀ x, Decision (P x)} (tbl : list A) i :
  take (length (filter P (take i tbl))) (filter P tbl) = filter P (take i tbl).
Proof.
  assert (filter P tbl = filter P (take i tbl) ++ filter P (drop i tbl)) as ->
    by (by rewrite <- filter_app, take_drop).
  by rewrite take_app_length.
Qed.

Lemma group_lookup {A} (P : A → Prop) `{!∀ x, Decision (P x)} (tbl : list A) i r :
  tbl !! i = Some r → P r →
  filter P tbl !! length (filter P (take i tbl)) = Some r.
Proof.
  intros Hr HP.
  assert (filter P tbl
          = filter P (take i tbl) ++ r :: filter P (drop (S i) tbl)) as ->.
  { rewrite <- (take_drop_middle tbl i r Hr) at 1.
    by rewrite filter_app, filter_cons_True. }
  by rewrite list_lookup_middle.
Qed.

Lemma grouped_apply_lookup {K V W} `{EqDecision K}
    (key : Long.row → K) (col : Long.row → V)
    (f : list V → list (option W)) (g : list V → V → option W) tbl i r :
  (∀ s j v, s !! j = Some v → f s !! j = Some (g (take j s) v)) →
  tbl !! i = Some r →
  grouped_apply key col f tbl !! i
  = Some (g (col <$> filter (fun x => key x = key r) (take i tbl)) (col r)).
Proof.
  intros Hf Hr. unfold grouped_apply. rewrite list_lookup_imap, Hr. simpl.
  f_equal.
  rewrite (Hf _ _ (col r)).
  - simpl. f_equal. rewrite <- fmap_take.
    rewrite <- (length_fmap col (filter _ (take i tbl))) at 1.
    rewrite length_fmap. by rewrite group_take.
  - rewrite list_lookup_fmap.
    by rewrite (group_lookup _ tbl i r Hr).
Qed.

Lemma rolling_causal w mp (s : list (option R)) j v :
  s !! j = Some v → _rolling s w mp !! j = Some (trailing_mean w mp (take j s)).
Proof. intros Hv. apply rolling_lookup. by eapply lookup_lt_Some. Qed.

Lemma trend_causal (s : list (option R)) j v :
  s !! j = Some v → trend s !! j = Some (trend_at (take j s)).
Proof. intros Hv. apply trend_lookup. by eapply lookup_lt_Some. Qed.

(** The statistics of a row of the sorted frame are those of the rows of its
    player that stand above it. *)
Lemma add_rolling_features_lookup long_df cfg i r :
  sort_long long_df !! i = Some r →
  add_rolling_features long_df cfg !! i
  = Some (r, stats_from cfg r
               (filter (fun x => Long.player x = Long.player r)
                       (take i (sort_long long_df)))).
Proof.
  intros Hr. unfold add_rolling_features. rewrite list_lookup_imap, Hr. simpl.
  do 2 f_equal. unfold stats_from.
  rewrite !(grouped_apply_lookup _ _ _
              (fun prior _ => trailing_mean _ _ prior) _ i r)
    by (done || intros; by eapply rolling_causal).
  rewrite !(grouped_apply_lookup _ _ _
              (fun prior _ => trend_at prior) _ i r)
    by (done || intros; by eapply trend_causal).
  rewrite (grouped_apply_lookup _ _ diff_days
              (fun prior d =>
                 (fun prev => toordinal d - toordinal prev) <$> last prior)
              _ i r)
    by (done || intros; by apply diff_days_lookup).
  simpl. f_equal.
  - do 2 f_equal. rewrite list_filter_filter. apply list_filter_iff.
    intros x. split; [intros [= H1 H2]; by split|intros [H1 H2]; by rewrite H1, H2].
  - do 2 f_equal. rewrite fmap_last. by destruct (last _).
Qed.

(** ** The entries above a row of the sorted long frame *)

Lemma strongly_sorted_filter {A} (lt : relation A) (P : A → Prop)
    `{!∀ x, Decision (P x)} (l : list A) :
  StronglySorted lt l → StronglySorted lt (filter P l).
Proof.
  induction 1 as [|x l Hl IH Hx]; [constructor|].
  rewrite filter_cons. case_decide; [|done].
  constructor; [done|]. rewrite Forall_forall in Hx |- *.
  intros y [_ Hy]%list_elem_of_filter. by apply Hx.
Qed.

Lemma strongly_sorted_nodup {A} (lt : relation A) (l : list A) :
  (∀ x, ¬ lt x x) → StronglySorted lt l → NoDup l.
Proof.
  intros Hirr. induction 1 as [|x l Hl IH Hx]; constructor; [|done].
  rewrite Forall_forall in Hx. intros Hin. by eapply Hirr, Hx.
Qed.

Lemma strongly_sorted_lookup {A} (lt : relation A) (l : list A) j i a b :
  StronglySorted lt l → l !! j = Some a → l !! i = Some b → (j < i)%nat →
  lt a b.
Proof.
  intros Hs. revert j i. induction Hs as [|x l Hl IH Hx]; intros j i Ha Hb Hji;
    [done|].
  destruct i as [|i]; [lia|]. destruct j as [|j]; simpl in *.
  - injection Ha as ->. rewrite Forall_forall in Hx.
    apply Hx. by eapply list_elem_of_lookup_2.
  - eapply (IH j i); [done..|lia].
Qed.

#[global] Instance date_le_trans : Transitive date_le.
Proof. unfold date_le. intros a b c ? ?. lia. Qed.

Lemma chronological_lookup df j i a b :
  chronological df → df !! j = Some a → df !! i = Some b → (j ≤ i)%nat →
  toordinal (date a) ≤ toordinal (date b).
Proof.
  intros Hc Ha Hb Hji. destruct (decide (j = i)) as [->|Hne].
  - rewrite Ha in Hb. injection Hb as ->. lia.
  - apply Sorted_StronglySorted in Hc; [|apply _].
    apply (strongly_sorted_lookup date_le df j i a b); [done..|lia].
Qed.

Lemma chronological_take df i : chronological df → chronological (take i df).
Proof.
  intros Hc. apply Sorted_StronglySorted in Hc; [|apply _].
  apply StronglySorted_Sorted.
  rewrite <- (take_drop i df) in Hc. by apply StronglySorted_app_1_l in Hc.
Qed.

Section long_rows.
Implicit Types (side : bool) (m : Match).

Lemma long_row_id side i m : Long.match_id (long_row side i m) = i.
Proof. by destruct side. Qed.

Lemma long_row_side side i m : Long.is_player_1 (long_row side i m) = side.
Proof. by destruct side. Qed.

Lemma long_row_date side i m : Long.date (long_row side i m) = date m.
Proof. by destruct side. Qed.

Lemma long_row_player side i m :
  Long.player (long_row side i m) = if side then player_1 m else player_2 m.
Proof. by destruct side. Qed.

Lemma elem_of_expand_long df x :
  x ∈ expand_long df ↔ ∃ side j m, df !! j = Some m ∧ x = long_row side j m.
Proof.
  unfold expand_long. rewrite elem_of_app, !elem_of_imap_rows. split.
  - intros [(j & m & ? & ->)|(j & m & ? & ->)];
      [exists true, j, m|exists false, j, m]; done.
  - intros ([] & j & m & ? & ->); [left|right]; eauto.
Qed.

Lemma elem_of_entries_from k df p x :
  x ∈ entries_from k df p
  ↔ ∃ side j m, df !! j = Some m ∧ x = long_row side (k + j) m
                ∧ Long.player x = p.
Proof.
  revert k. induction df as [|m0 df IH]; intros k; simpl.
  - split; [by intros ?%not_elem_of_nil|by intros (?&?&?&?&_)].
  - rewrite !elem_of_app, IH. split.
    + intros [Hx|[Hx|(side & j & m & Hm & -> & Hp)]].
      * case_decide; [|by apply not_elem_of_nil in Hx].
        apply list_elem_of_singleton in Hx as ->.
        exists true, 0%nat, m0. by rewrite Nat.add_0_r.
      * case_decide; [|by apply not_elem_of_nil in Hx].
        apply list_elem_of_singleton in Hx as ->.
        exists false, 0%nat, m0. by rewrite Nat.add_0_r.
      * exists side, (S j), m.
        replace (k + S j)%nat with (S k + j)%nat by lia. done.
    + intros (side & [|j] & m & Hm & -> & Hp); simpl in Hm.
      * injection Hm as ->. rewrite Nat.add_0_r in *.
        destruct side; simpl in Hp.
        -- left. rewrite decide_True by done. by apply list_elem_of_singleton.
        -- right; left. rewrite decide_True by done.
           by apply list_elem_of_singleton.
      * right; right. exists side, j, m.
        replace (S k + j)%nat with (k + S j)%nat by lia. done.
Qed.

Lemma row_lt_intro x y :
  Long.player x = Long.player y →
  toordinal (Long.date x) ≤ toordinal (Long.date y) →
  (Long.match_id x < Long.match_id y)%nat
  ∨ (Long.match_id x = Long.match_id y
     ∧ Long.is_player_1 x = true ∧ Long.is_player_1 y = false) →
  row_lt x y.
Proof.
  intros Hp Hd Hid. right. split; [done|].
  destruct (decide (toordinal (Long.date x) = toordinal (Long.date y)));
    [by right|left; lia].
Qed.

Lemma row_lt_elim x y :
  Long.player x = Long.player y → row_lt x y →
  toordinal (Long.date x) < toordinal (Long.date y)
  ∨ (toordinal (Long.date x) = toordinal (Long.date y)
     ∧ ((Long.match_id x < Long.match_id y)%nat
        ∨ (Long.match_id x = Long.match_id y
           ∧ Long.is_player_1 x = true ∧ Long.is_player_1 y = false))).
Proof.
  intros Hp [Hlt|[_ H]]; [|done]. rewrite Hp in Hlt.
  by apply name_lt_irrefl in Hlt.
Qed.

(** Among the rows of one player in a date-ordered frame, the row order is
    the order of the identifiers, then first side before second side. *)
Lemma row_lt_chronological df s j mj t i m :
  chronological df → df !! j = Some mj → df !! i = Some m →
  Long.player (long_row s j mj) = Long.player (long_row t i m) →
  row_lt (long_row s j mj) (long_row t i m)
  ↔ (j < i)%nat ∨ (j = i ∧ s = true ∧ t = false).
Proof.
  intros Hc Hj Hi Hp. split.
  - intros Hlt. apply row_lt_elim in Hlt; [|done].
    rewrite !long_row_id, !long_row_side, !long_row_date in Hlt.
    destruct Hlt as [Hd|[_ Hid]]; [|done].
    destruct (decide (j < i)%nat); [by left|].
    pose proof (chronological_lookup df i j m mj Hc Hi Hj). lia.
  - intros Hid. apply row_lt_intro; [done|..].
    + rewrite !long_row_date.
      apply (chronological_lookup df j i); [done..|lia].
    + by rewrite !long_row_id, !long_row_side.
Qed.

Lemma entries_from_sorted k df p :
  chronological df → StronglySorted row_lt (entries_from k df p).
Proof.
  intros Hc. apply Sorted_StronglySorted in Hc; [|apply _].
  revert k. induction Hc as [|m df Hdf IH Hm]; intros k; simpl; [constructor|].
  assert (∀ side, Forall (row_lt (long_row side k m))
                    (filter (fun x => Long.player x
                                      = Long.player (long_row side k m))
                            (entries_from (S k) df p))) as Hlater.
  { intros side. apply Forall_forall.
    intros x [Hp (t & j & mj & Hj & -> & _)%elem_of_entries_from]%list_elem_of_filter.
    apply row_lt_intro; [done|..].
    - rewrite !long_row_date. rewrite Forall_forall in Hm.
      apply Hm. by eapply list_elem_of_lookup_2.
    - rewrite !long_row_id. left. lia. }
  assert (∀ side, Long.player (long_row side k m) = p →
                  Forall (row_lt (long_row side k m)) (entries_from (S k) df p))
    as Hall.
  { intros side Hp. specialize (Hlater side). rewrite filter_all in Hlater; [done|].
    apply Forall_forall. intros x (?&?&?&?&?&Hx)%elem_of_entries_from. congruence. }
  repeat case_decide; simpl.
  - constructor; [constructor; [by apply IH|by apply (Hall false)]|].
    constructor; [|by apply (Hall true)].
    apply row_lt_intro; simpl; [congruence|lia|by right].
  - constructor; [by apply IH|by apply (Hall true)].
  - constructor; [by apply IH|by apply (Hall false)].
  - apply IH.
Qed.

Lemma elem_of_entries_before df i side m x :
  df !! i = Some m →
  x ∈ entries_before df i side
  ↔ ∃ s j mj, df !! j = Some mj ∧ x = long_row s j mj
              ∧ Long.player x = Long.player (long_row side i m)
              ∧ ((j < i)%nat ∨ (j = i ∧ s = true ∧ side = false)).
Proof.
  intros Hm. unfold entries_before, player_entries. rewrite Hm.
  rewrite long_row_player. destruct side.
  - rewrite elem_of_entries_from. split.
    + intros (s & j & mj & Hj & -> & Hp).
      apply lookup_take_Some in Hj as [Hj Hlt].
      exists s, j, mj. repeat split; [done..|by left].
    + intros (s & j & mj & Hj & -> & Hp & [Hlt|(_ & _ & ?)]); [|done].
      exists s, j, mj. rewrite lookup_take_lt by done. done.
  - rewrite elem_of_app, elem_of_entries_from. split.
    + intros [(s & j & mj & Hj & -> & Hp)|Hx].
      * apply lookup_take_Some in Hj as [Hj Hlt].
        exists s, j, mj. repeat split; [done..|by left].
      * case_decide as Heq; [|by apply not_elem_of_nil in Hx].
        apply list_elem_of_singleton in Hx as ->.
        exists true, i, m. repeat split; [done..|by right].
    + intros (s & j & mj & Hj & -> & Hp & [Hlt|(-> & -> & _)]).
      * left. exists s, j, mj. rewrite lookup_take_lt by done. done.
      * right. rewrite Hm in Hj. injection Hj as ->. simpl in Hp.
        rewrite decide_True by done. by apply list_elem_of_singleton.
Qed.

Lemma entries_before_sorted df i side :
  chronological df → StronglySorted row_lt (entries_before df i side).
Proof.
  intros Hc. unfold entries_before, player_entries.
  destruct (df !! i) as [m|] eqn:Hm; [|constructor].
  pose proof (entries_from_sorted 0 (take i df) (player_2 m)
                (chronological_take df i Hc)) as Hs2.
  destruct side; [by apply entries_from_sorted, chronological_take|].
  case_decide as Heq; [|by rewrite app_nil_r].
  apply StronglySorted_app_2; [|done|repeat constructor].
  intros x y (s & j & mj & Hj & -> & Hp)%elem_of_entries_from
    ->%list_elem_of_singleton.
  apply lookup_take_Some in Hj as [Hj Hlt]. simpl in *.
  apply (row_lt_chronological df s j mj true i m); [done..| |by left].
  simpl. congruence.
Qed.

(** The rows of a player above row [(i, side)] of the sorted long frame of
    a date-ordered frame. *)
Lemma prior_entries df i side m :
  chronological df → df !! i = Some m →
  filter (fun x => Long.player x = Long.player (long_row side i m))
    (filter (fun x => row_lt x (long_row side i m))
            (sort_long (expand_long df)))
  = entries_before df i side.
Proof.
  intros Hc Hm.
  apply (StronglySorted_unique_strong row_lt).
  - intros x y _ _ Hxy Hyx. by destruct (row_lt_asym x y).
  - do 2 apply strongly_sorted_filter. apply sort_long_sorted.
  - by apply entries_before_sorted.
  - apply NoDup_Permutation.
    + apply (strongly_sorted_nodup row_lt); [apply row_lt_irrefl|].
      do 2 apply strongly_sorted_filter. apply sort_long_sorted.
    + apply (strongly_sorted_nodup row_lt); [apply row_lt_irrefl|].
      by apply entries_before_sorted.
    + intros x. rewrite !list_elem_of_filter, sort_long_perm.
      rewrite elem_of_expand_long, (elem_of_entries_before df i side m) by done.
      split.
      * intros (Hp & Hlt & s & j & mj & Hj & ->).
        exists s, j, mj. repeat split; [done..|].
        by apply (row_lt_chronological df s j mj side i m).
      * intros (s & j & mj & Hj & -> & Hp & Hid).
        split; [done|]. split; [|by eauto].
        by apply (row_lt_chronological df s j mj side i m).
Qed.
End long_rows.

(** ** The row the engine writes for a match *)

Lemma elo_run_app cfg st pre post :
  Elo.run cfg st (pre ++ post)
  = Elo.run cfg st pre ++ Elo.run cfg (Elo.state_after cfg st pre) post.
Proof.
  revert st. induction pre as [|m pre IH]; intros st; simpl; [done|].
  f_equal. apply IH.
Qed.

Lemma elo_run_length cfg st df : length (Elo.run cfg st df) = length df.
Proof.
  revert st. induction df as [|m df IH]; intros st; simpl; [done|].
  by rewrite IH.
Qed.

(** The ratings written on a row are read from the state left by the rows
    before it, after the decay its own year calls for. *)
Lemma elo_run_lookup cfg st df i m :
  df !! i = Some m →
  Elo.run cfg st df !! i
  = Some (Elo.read (Elo.apply_decay cfg (Elo.state_after cfg st (take i df))
                      (year (date m))) m).
Proof.
  intros Hm. rewrite <- (take_drop_middle df i m Hm) at 1.
  rewrite elo_run_app. rewrite lookup_app_r; rewrite elo_run_length.
  - rewrite length_take_le by (apply lookup_lt_Some in Hm; lia).
    by rewrite Nat.sub_diag.
  - rewrite length_take. lia.
Qed.

Lemma h2h_run_lookup_at st df i m :
  df !! i = Some m →
  H2H.run st df !! i
  = Some (H2H.advantage (H2H.state_after st (take i df))
            (player_1 m) (player_2 m),
          H2H.last_meeting_direction (H2H.state_after st (take i df))
            (player_1 m) (player_2 m)).
Proof.
  intros Hm. rewrite <- (take_drop_middle df i m Hm) at 1.
  rewrite <- (h2h_run_lookup st (take i df) m (drop (S i) df)).
  by rewrite length_take_le by (apply lookup_lt_Some in Hm; lia).
Qed.

Lemma add_rolling_features_length long_df cfg :
  length (add_rolling_features long_df cfg) = length (sort_long long_df).
Proof. unfold add_rolling_features. by rewrite length_imap. Qed.

Lemma side_of_rolled df cfg side i m :
  chronological df → df !! i = Some m →
  side_of (add_rolling_features (expand_long df) cfg) side i
  = Some (stats_from cfg (long_row side i m) (entries_before df i side)).
Proof.
  intros Hc Hm.
  set (tbl := sort_long (expand_long df)).
  set (rolled := add_rolling_features (expand_long df) cfg).
  set (r := long_row side i m).
  assert (∀ pos r', tbl !! pos = Some r' →
            rolled !! pos
            = Some (r', stats_from cfg r'
                          (filter (fun x => Long.player x = Long.player r')
                             (filter (fun x => row_lt x r') tbl)))) as Hrolled.
  { intros pos r' Hr'. unfold rolled.
    rewrite (add_rolling_features_lookup _ cfg pos r' Hr').
    fold tbl. rewrite (strongly_sorted_take row_lt tbl pos r'); [done|..].
    - apply row_lt_asym.
    - apply sort_long_sorted.
    - done. }
  assert (r ∈ tbl) as Hin.
  { unfold tbl. rewrite sort_long_perm. apply elem_of_expand_long.
    by exists side, i, m. }
  apply list_elem_of_lookup in Hin as [pos Hpos].
  assert (rolled !! pos
          = Some (r, stats_from cfg r (entries_before df i side))) as Hrow.
  { rewrite (Hrolled pos r Hpos). unfold r, tbl.
    by rewrite (prior_entries df i side m Hc Hm). }
  unfold side_of. fold rolled.
  set (Q := fun rs : Long.row * Long.stats =>
              Long.is_player_1 rs.1 = side ∧ Long.match_id rs.1 = i).
  assert (∀ x, x ∈ filter Q rolled →
               x = (r, stats_from cfg r (entries_before df i side))) as Huniq.
  { intros [r' s'] [[Hside Hid] Hx]%list_elem_of_filter. simpl in *.
    apply list_elem_of_lookup in Hx as [pos' Hpos'].
    destruct (lookup_lt_is_Some_2 tbl pos') as [r'' Hr''].
    { apply lookup_lt_Some in Hpos'. unfold rolled in Hpos'.
      by rewrite add_rolling_features_length in Hpos'. }
    pose proof (Hrolled pos' r'' Hr'') as Hcopy.
    rewrite Hpos' in Hcopy. injection Hcopy as Heq _. subst r''.
    assert (r' = r) as ->.
    { assert (r' ∈ expand_long df) as Hr'.
      { rewrite <- sort_long_perm. by eapply list_elem_of_lookup_2. }
      apply elem_of_expand_long in Hr' as (s & j & mj & Hj & ->).
      rewrite long_row_side in Hside. rewrite long_row_id in Hid. subst s j.
      rewrite Hm in Hj. by injection Hj as ->. }
    assert (pos' = pos) as ->.
    { eapply NoDup_lookup; [|exact Hr''|exact Hpos].
      apply (strongly_sorted_nodup row_lt); [apply row_lt_irrefl|].
      apply sort_long_sorted. }
    rewrite Hrow in Hpos'. by injection Hpos' as <-. }
  destruct (filter Q rolled) as [|x rest] eqn:Hf.
  - assert ((r, stats_from cfg r (entries_before df i side)) ∈ filter Q rolled)
      as Habs.
    { apply list_elem_of_filter. split.
      - unfold Q, r. simpl. by rewrite long_row_side, long_row_id.
      - by eapply list_elem_of_lookup_2. }
    rewrite Hf in Habs. by apply not_elem_of_nil in Habs.
  - simpl. rewrite (Huniq x) by left. done.
Qed.

(** The row of the wide frame for the match at position [i] of a
    date-ordered frame, in terms of the rows before it. *)
Lemma engine_lookup cfg df i m :
  chronological df → df !! i = Some m →
  engine cfg df !! i
  = Some {| wide_match := m;
            wide_id := i;
            wide_elo :=
              Elo.read
                (Elo.apply_decay cfg
                   (Elo.state_after cfg Elo.init (take i df)) (year (date m)))
                m;
            h2h_advantage :=
              H2H.advantage (H2H.state_after H2H.init (take i df))
                (player_1 m) (player_2 m);
            last_winner_indicator :=
              H2H.last_meeting_direction
                (H2H.state_after H2H.init (take i df))
                (player_1 m) (player_2 m);
            wide_p1 :=
              Some (stats_from cfg (first_row i m) (entries_before df i true));
            wide_p2 :=
              Some (stats_from cfg (second_row i m)
                      (entries_before df i false)) |}.
Proof.
  intros Hc Hm. unfold engine, aggregate_back.
  rewrite list_lookup_imap.
  rewrite (lookup_zip_with pair df
             (zip (Elo.compute_elo cfg df) (H2H.compute_head_to_head df)) i).
  rewrite (lookup_zip_with pair (Elo.compute_elo cfg df)
             (H2H.compute_head_to_head df) i).
  unfold Elo.compute_elo, H2H.compute_head_to_head.
  rewrite Hm, (elo_run_lookup _ _ _ _ _ Hm), (h2h_run_lookup_at _ _ _ _ Hm).
  simpl.
  rewrite (side_of_rolled df cfg true i m Hc Hm).
  rewrite (side_of_rolled df cfg false i m Hc Hm). done.
Qed.

Lemma engine_length cfg df : length (engine cfg df) = length df.
Proof.
  unfold engine, aggregate_back. rewrite length_imap.
  rewrite (length_zip_with pair df), (length_zip_with pair (Elo.compute_elo cfg df)).
  unfold Elo.compute_elo, H2H.compute_head_to_head.
  rewrite elo_run_length, h2h_run_length. lia.
Qed.

(** ** No temporal leakage *)

Lemma entries_before_distinct df i side m :
  df !! i = Some m → (side = false → player_1 m ≠ player_2 m) →
  entries_before df i side = player_entries (take i df) (player_of side m).
Proof.
  intros Hm Hne. unfold entries_before. rewrite Hm. destruct side; [done|].
  rewrite decide_False by auto. by rewrite app_nil_r.
Qed.

Lemma entries_before_prefix pre m post side :
  entries_before (pre ++ m :: post) (length pre) side
  = entries_before (pre ++ [m]) (length pre) side.
Proof.
  unfold entries_before. rewrite !list_lookup_middle by done.
  by rewrite !take_app_length.
Qed.

Lemma chronological_same_date pre m m' :
  chronological (pre ++ [m]) → date m' = date m → chronological (pre ++ [m']).
Proof.
  intros Hc Hd. apply Sorted_StronglySorted in Hc; [|apply _].
  apply StronglySorted_Sorted.
  apply StronglySorted_app in Hc as (Hlt & Hpre & _).
  apply StronglySorted_app_2; [|done|repeat constructor].
  intros x y Hx ->%list_elem_of_singleton.
  specialize (Hlt x m Hx). unfold date_le in *. rewrite Hd. apply Hlt. by left.
Qed.

Lemma chronological_prefix pre m post :
  chronological (pre ++ m :: post) → chronological (pre ++ [m]).
Proof.
  intros Hc. apply (chronological_take _ (S (length pre))) in Hc.
  rewrite (take_app_ge pre) in Hc by lia.
  replace (S (length pre) - length pre)%nat with 1%nat in Hc by lia.
  by simpl in Hc.
Qed.

(** A row never depends on the rows after it. *)
Lemma no_later_match_in_row cfg pre m post :
  chronological (pre ++ m :: post) →
  engine cfg (pre ++ m :: post) !! length pre
  = engine cfg (pre ++ [m]) !! length pre.
Proof.
  intros Hc.
  rewrite (engine_lookup cfg (pre ++ m :: post) (length pre) m Hc)
    by (by rewrite list_lookup_middle).
  rewrite (engine_lookup cfg (pre ++ [m]) (length pre) m);
    [|by eapply chronological_prefix|by rewrite list_lookup_middle].
  rewrite !take_app_length.
  by rewrite (entries_before_prefix pre m post true),
    (entries_before_prefix pre m post false).
Qed.

(** The row of a match between two distinct players is a function of the
    rows before it and of what is known of the match before it starts. *)
Lemma own_result_not_in_row cfg pre m post m' :
  chronological (pre ++ m :: post) → player_1 m ≠ player_2 m →
  forget_outcome m' = forget_outcome m →
  features <$> engine cfg (pre ++ m :: post) !! length pre
  = features <$> engine cfg (pre ++ [m']) !! length pre.
Proof.
  intros Hc Hne Hm'.
  assert (player_1 m' = player_1 m ∧ player_2 m' = player_2 m
          ∧ date m' = date m ∧ surface m' = surface m
          ∧ rank_1 m' = rank_1 m ∧ rank_2 m' = rank_2 m
          ∧ pts_1 m' = pts_1 m ∧ pts_2 m' = pts_2 m
          ∧ odd_1 m' = odd_1 m ∧ odd_2 m' = odd_2 m)
    as (Hp1 & Hp2 & Hd & Hs & Hr1 & Hr2 & Hq1 & Hq2 & Ho1 & Ho2).
  { unfold forget_outcome in Hm'. by injection Hm'. }
  assert (chronological (pre ++ [m'])) as Hc'.
  { eapply chronological_same_date; [|done]. by eapply chronological_prefix. }
  rewrite (engine_lookup cfg (pre ++ m :: post) (length pre) m Hc)
    by (by rewrite list_lookup_middle).
  rewrite (engine_lookup cfg (pre ++ [m']) (length pre) m' Hc')
    by (by rewrite list_lookup_middle).
  rewrite !take_app_length.
  rewrite (entries_before_distinct (pre ++ m :: post) _ true m),
    (entries_before_distinct (pre ++ m :: post) _ false m),
    (entries_before_distinct (pre ++ [m']) _ true m'),
    (entries_before_distinct (pre ++ [m']) _ false m')
    by (rewrite ?list_lookup_middle; try done; intros _; congruence).
  rewrite !take_app_length. simpl. f_equal.
  unfold features, stat_diff, Elo.read. simpl.
  by rewrite Hp1, Hp2, Hd, Hs, Hr1, Hr2, Hq1, Hq2, Ho1, Ho2.
Qed.

(** X30: the engines do not look ahead.  On a date-ordered list of records
    handed to the engines (the frame after line 413) the numeric columns of
    every row are those computed from the list cut after that row; and for
    a record with two distinct players they are those of the cut list with
    any other winner and score written on the record: nothing of a later
    record, and nothing of the record's own result, enters its row. *)
Theorem no_temporal_leakage cfg pre m post :
  chronological (pre ++ m :: post) →
  let row := features <$> engine cfg (pre ++ m :: post) !! length pre in
  is_Some row
  ∧ row = features <$> engine cfg (pre ++ [m]) !! length pre
  ∧ (player_1 m ≠ player_2 m →
     ∀ m', forget_outcome m' = forget_outcome m →
       row = features <$> engine cfg (pre ++ [m']) !! length pre).
Proof.
  intros Hc row. split; [|split].
  - unfold row.
    rewrite (engine_lookup cfg (pre ++ m :: post) (length pre) m Hc)
      by (by rewrite list_lookup_middle).
    by eexists.
  - unfold row. by rewrite no_later_match_in_row.
  - intros Hne m' Hm'. by apply own_result_not_in_row.
Qed.

(** ** Rolling form and trends of a match *)

Lemma observations_some {V} (xs : list V) : observations (Some <$> xs) = xs.
Proof.
  induction xs as [|x xs IH]; [done|].
  unfold observations. simpl. f_equal. exact IH.
Qed.

Lemma last_n_fmap {V W} (f : V → W) w (xs : list V) :
  last_n w (f <$> xs) = f <$> last_n w xs.
Proof. unfold last_n. by rewrite length_fmap, fmap_drop. Qed.

Lemma length_last_n {V} w (xs : list V) :
  length (last_n w xs) = (w `min` length xs)%nat.
Proof. unfold last_n. rewrite length_drop. lia. Qed.

Lemma last_n_all {V} w (xs : list V) : (length xs ≤ w)%nat → last_n w xs = xs.
Proof.
  intros Hw. unfold last_n. by replace (length xs - w)%nat with 0%nat by lia.
Qed.

Lemma real_col_outcomes entries :
  real_col Long.won <$> entries = Some <$> outcomes entries.
Proof. unfold outcomes. by rewrite <- list_fmap_compose. Qed.

(** The trailing mean of a series of outcome indicators: missing below the
    minimum count, else the mean of the last entries of the window. *)
Lemma trailing_mean_outcomes w mp entries :
  (mp ≤ w)%nat →
  trailing_mean w mp (real_col Long.won <$> entries)
  = if (length (outcomes entries) <? mp)%nat then None
    else Some (mean (last_n w (outcomes entries))).
Proof.
  intros Hw. unfold trailing_mean.
  rewrite real_col_outcomes, last_n_fmap, observations_some, length_last_n.
  destruct (Nat.ltb_spec (w `min` length (outcomes entries)) mp);
    destruct (Nat.ltb_spec (length (outcomes entries)) mp); try done; lia.
Qed.

Lemma engine_side_stats cfg df i m side :
  chronological df → df !! i = Some m →
  side_stats side <$> engine cfg df !! i
  = Some (Some (stats_from cfg (long_row side i m)
                  (entries_before df i side))).
Proof.
  intros Hc Hm. rewrite (engine_lookup cfg df i m Hc Hm). simpl.
  by destruct side.
Qed.

Lemma entries_of_earlier_matches df i p :
  Forall (fun x => (Long.match_id x < i)%nat ∧ Long.player x = p)
    (player_entries (take i df) p).
Proof.
  apply Forall_forall. intros x Hx. unfold player_entries in Hx.
  apply elem_of_entries_from in Hx as (side & j & e & He & -> & Hp).
  split; [|done]. rewrite long_row_id. simpl.
  apply lookup_lt_Some in He. rewrite length_take in He. lia.
Qed.

(** C6: the form of a player before a match between two distinct players is
    the mean of her outcomes in at most the last [rolling_matches] of her
    entries in the matches strictly before it (ten by default), missing
    while there are fewer than three such entries, and the mean of all of
    them when there are exactly three; the surface form is the same over
    her earlier entries on the surface of the match, with window
    [rolling_surface_matches] (six by default) and minimum two. *)
Theorem trailing_form_of_prior_matches cfg df i m side :
  chronological df → df !! i = Some m → player_1 m ≠ player_2 m →
  (3 ≤ rolling_matches cfg)%nat → (2 ≤ rolling_surface_matches cfg)%nat →
  let earlier := player_entries (take i df) (player_of side m) in
  let prior := outcomes earlier in
  let prior_surface :=
    outcomes (filter (fun x => Long.surface x = surface m) earlier) in
  ∃ st,
    side_stats side <$> engine cfg df !! i = Some (Some st)
    ∧ Forall (fun x => (Long.match_id x < i)%nat
                       ∧ Long.player x = player_of side m) earlier
    ∧ Long.form_win_rate st
      = (if (length prior <? 3)%nat then None
         else Some (mean (last_n (rolling_matches cfg) prior)))
    ∧ Long.surface_form_win_rate st
      = (if (length prior_surface <? 2)%nat then None
         else Some (mean (last_n (rolling_surface_matches cfg) prior_surface)))
    ∧ ((length prior < 3)%nat → Long.form_win_rate st = None)
    ∧ (length prior = 3%nat → Long.form_win_rate st = Some (mean prior))
    ∧ ((length prior_surface < 2)%nat → Long.surface_form_win_rate st = None)
    ∧ (length prior_surface = 2%nat →
       Long.surface_form_win_rate st = Some (mean prior_surface))
    ∧ length (last_n (rolling_matches cfg) prior)
      = (rolling_matches cfg `min` length prior)%nat
    ∧ length (last_n (rolling_surface_matches cfg) prior_surface)
      = (rolling_surface_matches cfg `min` length prior_surface)%nat.
Proof.
  intros Hc Hm Hne Hw Hws earlier prior prior_surface.
  eexists. split; [by apply engine_side_stats|].
  split; [by apply entries_of_earlier_matches|].
  rewrite (entries_before_distinct df i side m Hm) by done. simpl.
  assert (Long.surface (long_row side i m) = surface m) as -> by by destruct side.
  fold earlier. rewrite !trailing_mean_outcomes by done.
  fold prior prior_surface.
  split; [done|]. split; [done|]. split; [|split; [|split; [|split; [|split]]]].
  - intros Hlt. by rewrite (proj2 (Nat.ltb_lt _ _) Hlt).
  - intros Heq. rewrite Heq. simpl. by rewrite last_n_all by lia.
  - intros Hlt. by rewrite (proj2 (Nat.ltb_lt _ _) Hlt).
  - intros Heq. rewrite Heq. simpl. by rewrite last_n_all by lia.
  - apply length_last_n.
  - apply length_last_n.
Qed.

Lemma trend_at_snoc older before previous :
  trend_at (older ++ [before; previous]) = osub previous before.
Proof.
  unfold trend_at. rewrite rev_app_distr. done.
Qed.

Lemma trend_at_short (s : list (option R)) :
  (length s < 2)%nat → trend_at s = None.
Proof.
  unfold trend_at. intros Hs. destruct s as [|a [|b s]]; simpl in *; [done..|lia].
Qed.

(** C3 (amended): the trend of a player before a match is her value at the
    previous entry of her history minus her value at the entry before that
    one (her previous match and the match before it whenever the match is
    between two distinct players); it is missing while she has fewer than
    two preceding entries. *)
Theorem trend_of_last_two_matches cfg df i m side :
  chronological df → df !! i = Some m →
  let earlier := entries_before df i side in
  let ranks := Long.player_rank <$> earlier in
  let points := Long.player_pts <$> earlier in
  ∃ st,
    side_stats side <$> engine cfg df !! i = Some (Some st)
    ∧ ((side = false → player_1 m ≠ player_2 m) →
       earlier = player_entries (take i df) (player_of side m))
    ∧ Long.rank_trend st = trend_at ranks
    ∧ Long.points_trend st = trend_at points
    ∧ (∀ older before previous, ranks = older ++ [before; previous] →
         Long.rank_trend st = osub previous before)
    ∧ (∀ older before previous, points = older ++ [before; previous] →
         Long.points_trend st = osub previous before)
    ∧ ((length earlier < 2)%nat →
       Long.rank_trend st = None ∧ Long.points_trend st = None).
Proof.
  intros Hc Hm earlier ranks points.
  eexists. split; [by apply engine_side_stats|].
  split; [by apply entries_before_distinct|]. simpl.
  fold earlier. fold ranks points. repeat split.
  - intros older before previous ->. apply trend_at_snoc.
  - intros older before previous ->. apply trend_at_snoc.
  - apply trend_at_short. unfold ranks. by rewrite length_fmap.
  - apply trend_at_short. unfold points. by rewrite length_fmap.
Qed.

(** C3 as stated fails: before her fourth match player A was ranked 10, 20
    and 40; the code reports 40 - 20, the wording "two matches ago minus
    three matches ago" gives 20 - 10. *)
Lemma trend_is_not_two_minus_three :
  rank_trend_of true (engine default_config trend_frame) 3
  = Some (40 - 20)%R
  ∧ trend_two_minus_three
      (Long.player_rank <$> player_entries (take 3 trend_frame) "A")
    = Some (20 - 10)%R
  ∧ rank_trend_of true (engine default_config trend_frame) 3
    ≠ trend_two_minus_three
        (Long.player_rank <$> player_entries (take 3 trend_frame) "A").
Proof.
  assert (rank_trend_of true (engine default_config trend_frame) 3
          = Some (40 - 20)%R) as Hcode by reflexivity.
  assert (trend_two_minus_three
            (Long.player_rank <$> player_entries (take 3 trend_frame) "A")
          = Some (20 - 10)%R) as Hspec by reflexivity.
  split; [done|]. split; [done|].
  rewrite Hcode, Hspec. intros [= Heq]. lra.
Qed.

(** ** Records whose winner is neither player *)

Lemma winner_is_false m p : winner m ≠ Some p → winner_is m p = false.
Proof. intros H. unfold winner_is. by rewrite bool_decide_eq_false_2. Qed.

(** ** A sort by date, and the order of the engine's rows *)

Lemma date_leb_le a b : date_leb a b = true ↔ date_le a b.
Proof. unfold date_leb, date_le. apply Z.leb_le. Qed.

Lemma stable_sort_by_date_sorted df :
  chronological (stable_sort date_leb df).
Proof.
  apply StronglySorted_Sorted, stable_sort_strongly.
  - intros a b c. rewrite !date_leb_le. apply date_le_trans.
  - intros a b. by rewrite date_leb_le.
  - induction df as [|x df IH]; simpl; [done|]. split; [|done].
    apply Forall_forall. intros y _. unfold placed.
    destruct (date_leb x y) eqn:Hxy; [by apply date_leb_le|].
    unfold date_leb in Hxy. apply Z.leb_gt in Hxy. unfold date_le. lia.
Qed.

Lemma sort_date_stable_sorts : sorts_by_date sort_date_stable.
Proof.
  intros df. split; [apply stable_sort_perm|apply stable_sort_by_date_sorted].
Qed.

Lemma engine_consumes_in_order cfg df :
  chronological df → wide_match <$> engine cfg df = df.
Proof.
  intros Hc. apply list_eq. intros i. rewrite list_lookup_fmap.
  destruct (df !! i) as [m|] eqn:Hm.
  - by rewrite (engine_lookup cfg df i m Hc Hm).
  - rewrite lookup_ge_None_2; [done|].
    rewrite engine_length. by apply lookup_ge_None.
Qed.

(** ** Schema errors *)

Lemma missing_from_elem cols wanted c :
  c ∈ wanted → c ∉ cols → c ∈ missing_from cols wanted.
Proof. intros Hw Hc. unfold missing_from. by apply list_elem_of_filter. Qed.

(** C9: when one of [player_1], [player_2], [winner], [date] is absent from
    the columns (as [preprocess] names them), the run stops with a
    [KeyError] before any engine state exists and before anything is
    written. *)
Theorem schema_error_aborts sort_values cfg df c :
  c ∈ required_columns → c ∉ (rename_column <$> columns df) →
  ∃ missing,
    c ∈ missing
    ∧ preprocess sort_values df cfg = ([], inl (KeyError missing))
    ∧ run_pipeline sort_values cfg df = ([], inl (KeyError missing)).
Proof.
  intros Hreq Hmiss.
  pose proof (missing_from_elem _ _ c Hreq Hmiss) as Hin.
  exists (missing_from (rename_column <$> columns df) required_columns).
  split; [done|].
  assert (preprocess sort_values df cfg
          = ([], inl (KeyError (missing_from (rename_column <$> columns df)
                                  required_columns)))) as Hpre.
  { unfold preprocess.
    destruct (missing_from (rename_column <$> columns df) required_columns);
      [by apply not_elem_of_nil in Hin|done]. }
  split; [done|]. unfold run_pipeline. by rewrite Hpre.
Qed.

(** ** Instances on sample frames *)

Lemma trend_frame_chronological : chronological trend_frame.
Proof. unfold trend_frame. repeat constructor; by vm_compute. Qed.

Lemma no_temporal_leakage_witness :
  chronological trend_frame
  ∧ features <$> engine default_config trend_frame !! 2%nat
    = features <$> engine default_config (take 3 trend_frame) !! 2%nat.
Proof.
  split; [exact trend_frame_chronological|].
  exact (proj1 (proj2
           (no_temporal_leakage default_config (take 2 trend_frame)
              (sample_match "A" "C" "C" (mkDate 2015 3 1) "6-7 1-6" 40 60)
              (drop 3 trend_frame) trend_frame_chronological))).
Defined.

Lemma decay_on_year_change_witness :
  Elo.last_year state_2015 = Some 2015
  ∧ 2015 < year (date match_2016)
  ∧ Elo.ratings (Elo.apply_decay default_config state_2015
                   (year (date match_2016))) !! "A"%string
    = Some (1500 + (1600 - 1500)
                   * exp (- elo_decay default_config * IZR (2016 - 2015)))%R.
Proof.
  assert (2015 < year (date match_2016)) as Hlt by (simpl; lia).
  split; [reflexivity|]. split; [exact Hlt|].
  apply (proj1 (proj1 (proj2 (proj2
           (decay_on_year_change default_config state_2015
              match_2016 2015 eq_refl))) Hlt)).
  apply lookup_singleton_eq.
Defined.

Lemma trailing_form_of_prior_matches_witness :
  chronological trend_frame
  ∧ player_1 (sample_match "A" "B" "B" (mkDate 2016 1 1) "0-6 0-6" 45 70)
    ≠ player_2 (sample_match "A" "B" "B" (mkDate 2016 1 1) "0-6 0-6" 45 70)
  ∧ ∃ st,
      side_stats true <$> engine default_config trend_frame !! 3%nat
      = Some (Some st)
      ∧ Long.form_win_rate st = Some (mean [1; 1; 0])%R.
Proof.
  split; [exact trend_frame_chronological|].
  assert (player_1 (sample_match "A" "B" "B" (mkDate 2016 1 1) "0-6 0-6" 45 70)
          ≠ player_2 (sample_match "A" "B" "B" (mkDate 2016 1 1)
                        "0-6 0-6" 45 70)) as Hne by (by simpl).
  split; [exact Hne|].
  destruct (trailing_form_of_prior_matches default_config trend_frame 3
              (sample_match "A" "B" "B" (mkDate 2016 1 1) "0-6 0-6" 45 70) true
              trend_frame_chronological eq_refl Hne)
    as (st & Hst & _ & _ & _ & _ & Hform & _).
  - simpl. lia.
  - simpl. lia.
  - exists st. split; [exact Hst|]. apply Hform. reflexivity.
Defined.

Lemma trend_of_last_two_matches_witness :
  chronological trend_frame
  ∧ ∃ st,
      side_stats true <$> engine default_config trend_frame !! 3%nat
      = Some (Some st)
      ∧ Long.rank_trend st = Some (40 - 20)%R.
Proof.
  split; [exact trend_frame_chronological|].
  destruct (trend_of_last_two_matches default_config trend_frame 3
              (sample_match "A" "B" "B" (mkDate 2016 1 1) "0-6 0-6" 45 70) true
              trend_frame_chronological eq_refl)
    as (st & Hst & _ & _ & _ & Hrank & _).
  exists st. split; [exact Hst|].
  apply (Hrank [Some 10%R] (Some 20%R) (Some 40%R)). reflexivity.
Defined.

Lemma h2h_advantage_from_prior_meetings_witness :
  Forall valid_winner [sample_match "A" "B" "A" (mkDate 2015 1 5) "6-4 6-2" 10 50]
  ∧ fst <$>
    H2H.compute_head_to_head
      ([sample_match "A" "B" "A" (mkDate 2015 1 5) "6-4 6-2" 10 50]
       ++ [sample_match "A" "B" "B" (mkDate 2016 1 1) "0-6 0-6" 45 70])
    !! 1%nat
    = Some 1%R.
Proof.
  assert (Forall valid_winner
            [sample_match "A" "B" "A" (mkDate 2015 1 5) "6-4 6-2" 10 50]) as Hv.
  { repeat constructor. }
  split; [exact Hv|].
  apply (proj1 (proj2 (proj2 (proj2
           (h2h_advantage_from_prior_meetings
              [sample_match "A" "B" "A" (mkDate 2015 1 5) "6-4 6-2" 10 50]
              (sample_match "A" "B" "B" (mkDate 2016 1 1) "0-6 0-6" 45 70)
              [] Hv))))).
  split; reflexivity.
Defined.

Lemma schema_error_aborts_witness :
  "winner"%string ∈ required_columns
  ∧ ("winner"%string ∉ rename_column <$> columns frame_without_winner)
  ∧ (∃ missing,
        run_pipeline sort_date_stable default_config frame_without_winner
        = ([], inl (KeyError missing))).
Proof.
  assert ("winner"%string ∈ required_columns) as Hreq.
  { refine (bool_decide_unpack _ _). by vm_compute. }
  assert ("winner"%string ∉ (rename_column <$> columns frame_without_winner))
    as Hmiss.
  { refine (bool_decide_unpack _ _). by vm_compute. }
  split; [exact Hreq|]. split; [exact Hmiss|].
  destruct (schema_error_aborts sort_date_stable default_config
              frame_without_winner "winner" Hreq Hmiss)
    as (missing & _ & _ & Hrun).
  exists missing. exact Hrun.
Defined.

(** * Further properties *)

(** ** Rating engine: what a match moves *)

Section elo_dynamics.
Import Elo.
Local Open Scope R_scope.

Lemma expected_score_level r : expected_score r r = 1 / 2.
Proof.
  unfold expected_score.
  replace ((r - r) / 400) with 0 by lra.
  rewrite Rpower_O by lra. lra.
Qed.

Lemma step_ratings cfg st m p :
  p ≠ player_1 m → p ≠ player_2 m →
  ratings (fst (step cfg st m)) !! p
  = ratings (apply_decay cfg st (year (date m))) !! p.
Proof.
  intros H1 H2. unfold step, apply_result. simpl.
  by rewrite !lookup_insert_ne by done.
Qed.

Lemma step_surface_ratings cfg st m k :
  k ≠ (player_1 m, surface m) → k ≠ (player_2 m, surface m) →
  surface_ratings (fst (step cfg st m)) !! k
  = surface_ratings (apply_decay cfg st (year (date m))) !! k.
Proof.
  intros H1 H2. unfold step, apply_result. simpl.
  by rewrite !lookup_insert_ne by done.
Qed.

Lemma gain_of_result k mine theirs out :
  0 < k →
  (out = 1 →
   0 < gain_1 k out (expected_score mine theirs) < k
   ∧ - k < gain_2 k out (expected_score mine theirs) < 0)
  ∧ (out = 0 →
     - k < gain_1 k out (expected_score mine theirs) < 0
     ∧ 0 < gain_2 k out (expected_score mine theirs) < k).
Proof.
  intros Hk. pose proof (expected_score_bounds mine theirs) as He.
  unfold gain_1, gain_2. split; intros ->; split; nra.
Qed.

Lemma outcome_of_winner m :
  (winner m = Some (player_1 m) → outcome m = 1)
  ∧ (winner m ≠ Some (player_1 m) → outcome m = 0).
Proof.
  unfold outcome, winner_is. split; intros Hw.
  - by rewrite bool_decide_eq_true_2.
  - by rewrite bool_decide_eq_false_2.
Qed.

(** X2: in a match between two distinct players the rating engine raises
    the rating of the side recorded as winner and lowers the rating of the
    other side, in the global table and in the table of the surface played:
    the side recorded as winner gains more than nothing and less than the
    constant of the table ([elo_k], [surface_elo_k]), the other side loses
    more than nothing and less than that constant, and between equally
    rated players each of the two moves by half of it. *)
Theorem winner_gains_loser_loses cfg st m :
  0 < elo_k cfg → 0 < surface_elo_k cfg → player_1 m ≠ player_2 m →
  let before := snd (step cfg st m) in
  let after := fst (step cfg st m) in
  let change_1 := rating_of (ratings after) (player_1 m) - elo_p1 before in
  let change_2 := rating_of (ratings after) (player_2 m) - elo_p2 before in
  let surface_change_1 :=
    rating_of (surface_ratings after) (player_1 m, surface m)
    - surface_elo_p1 before in
  let surface_change_2 :=
    rating_of (surface_ratings after) (player_2 m, surface m)
    - surface_elo_p2 before in
  (winner m = Some (player_1 m) →
   0 < change_1 < elo_k cfg
   ∧ - elo_k cfg < change_2 < 0
   ∧ 0 < surface_change_1 < surface_elo_k cfg
   ∧ - surface_elo_k cfg < surface_change_2 < 0)
  ∧ (winner m ≠ Some (player_1 m) →
     - elo_k cfg < change_1 < 0
     ∧ 0 < change_2 < elo_k cfg
     ∧ - surface_elo_k cfg < surface_change_1 < 0
     ∧ 0 < surface_change_2 < surface_elo_k cfg)
  ∧ (elo_p1 before = elo_p2 before →
     (winner m = Some (player_1 m) →
      change_1 = elo_k cfg / 2 ∧ change_2 = - elo_k cfg / 2)
     ∧ (winner m ≠ Some (player_1 m) →
        change_1 = - elo_k cfg / 2 ∧ change_2 = elo_k cfg / 2)).
Proof.
  intros Hk Hks Hne before after change_1 change_2
    surface_change_1 surface_change_2.
  set (e := expected_score (elo_p1 before) (elo_p2 before)).
  set (es := expected_score (surface_elo_p1 before) (surface_elo_p2 before)).
  assert (change_1 = gain_1 (elo_k cfg) (outcome m) e) as H1.
  { unfold change_1, after, step, apply_result, rating_of. simpl.
    rewrite lookup_insert_ne by done. rewrite lookup_insert_eq. simpl.
    unfold e, before, step. simpl. unfold rating_of. lra. }
  assert (change_2 = gain_2 (elo_k cfg) (outcome m) e) as H2.
  { unfold change_2, after, step, apply_result, rating_of. simpl.
    rewrite lookup_insert_eq. simpl.
    unfold e, before, step. simpl. unfold rating_of. lra. }
  assert (surface_change_1 = gain_1 (surface_elo_k cfg) (outcome m) es) as H3.
  { unfold surface_change_1, after, step, apply_result, rating_of. simpl.
    rewrite lookup_insert_ne by congruence. rewrite lookup_insert_eq. simpl.
    unfold es, before, step. simpl. unfold rating_of. lra. }
  assert (surface_change_2 = gain_2 (surface_elo_k cfg) (outcome m) es) as H4.
  { unfold surface_change_2, after, step, apply_result, rating_of. simpl.
    rewrite lookup_insert_eq. simpl.
    unfold es, before, step. simpl. unfold rating_of. lra. }
  destruct (gain_of_result (elo_k cfg) (elo_p1 before) (elo_p2 before)
              (outcome m) Hk) as (Hwin & Hloss).
  destruct (gain_of_result (surface_elo_k cfg) (surface_elo_p1 before)
              (surface_elo_p2 before) (outcome m) Hks)
    as (Hwin_s & Hloss_s).
  destruct (outcome_of_winner m) as [Hwon Hlost].
  fold e in Hwin, Hloss. fold es in Hwin_s, Hloss_s.
  rewrite H1, H2, H3, H4.
  split; [|split].
  - intros Hw.
    destruct (Hwin (Hwon Hw)) as [? ?]. destruct (Hwin_s (Hwon Hw)) as [? ?].
    done.
  - intros Hw.
    destruct (Hloss (Hlost Hw)) as [? ?]. destruct (Hloss_s (Hlost Hw)) as [? ?].
    done.
  - intros Hlevel. unfold e. rewrite Hlevel, expected_score_level.
    unfold gain_1, gain_2. split; intros Hw.
    + rewrite (Hwon Hw). split; lra.
    + rewrite (Hlost Hw). split; lra.
Qed.

(** X3: a record that names one player on both sides is not rejected: the
    second assignment of line 169 overwrites the first, so the player's
    rating moves by half of [elo_k] against the recorded result - down when
    she is the recorded winner, up otherwise. *)
Theorem twice_named_player_rating cfg st m :
  player_1 m = player_2 m →
  let before := snd (step cfg st m) in
  let after := ratings (fst (step cfg st m)) in
  elo_p1 before = elo_p2 before
  ∧ (winner m = Some (player_1 m) →
     rating_of after (player_1 m) = elo_p1 before - elo_k cfg / 2)
  ∧ (winner m ≠ Some (player_1 m) →
     rating_of after (player_1 m) = elo_p1 before + elo_k cfg / 2).
Proof.
  intros Heq before after.
  assert (elo_p1 before = elo_p2 before) as Hlevel.
  { unfold before, step, read. simpl. by rewrite Heq. }
  assert (rating_of after (player_1 m)
          = elo_p2 before
            + gain_2 (elo_k cfg) (outcome m)
                (expected_score (elo_p1 before) (elo_p2 before))) as Hafter.
  { unfold after, step, apply_result, rating_of. simpl.
    rewrite Heq at 1. rewrite lookup_insert_eq. simpl. done. }
  split; [done|].
  rewrite Hafter, <- Hlevel, expected_score_level. unfold gain_2.
  split; intros Hw.
  - unfold outcome, winner_is. rewrite bool_decide_eq_true_2 by done. lra.
  - unfold outcome, winner_is. rewrite bool_decide_eq_false_2 by done. lra.
Qed.
End elo_dynamics.

(** ** Rating engine: what a run keeps *)

Section elo_invariants.
Import Elo.
Local Open Scope R_scope.

Lemma state_after_cons cfg st m df :
  state_after cfg st (m :: df) = state_after cfg (fst (step cfg st m)) df.
Proof. done. Qed.

Lemma apply_decay_lookup_none cfg st yr p :
  ratings st !! p = None → ratings (apply_decay cfg st yr) !! p = None.
Proof.
  intros Hp. unfold apply_decay. destruct (last_year st); [|done].
  case_bool_decide; [|done]. simpl. by rewrite lookup_fmap, Hp.
Qed.

Lemma apply_decay_surface_lookup_none cfg st yr k :
  surface_ratings st !! k = None →
  surface_ratings (apply_decay cfg st yr) !! k = None.
Proof.
  intros Hp. unfold apply_decay. destruct (last_year st); [|done].
  case_bool_decide; [|done]. simpl. by rewrite lookup_fmap, Hp.
Qed.

(** A player the run has not met has no entry in the global table. *)
Lemma unseen_player_unrated cfg st df p :
  ratings st !! p = None → Forall (fun e => ¬ plays p e) df →
  ratings (state_after cfg st df) !! p = None.
Proof.
  intros Hp Hdf. revert st Hp.
  induction Hdf as [|m df Hm Hdf IH]; intros st Hp; [done|].
  rewrite state_after_cons. apply IH.
  rewrite step_ratings.
  - by apply apply_decay_lookup_none.
  - intros ->. apply Hm. by left.
  - intros ->. apply Hm. by right.
Qed.

Lemma unseen_on_surface_unrated cfg st df p s :
  surface_ratings st !! (p, s) = None →
  Forall (fun e => ¬ (plays p e ∧ surface e = s)) df →
  surface_ratings (state_after cfg st df) !! (p, s) = None.
Proof.
  intros Hp Hdf. revert st Hp.
  induction Hdf as [|m df Hm Hdf IH]; intros st Hp; [done|].
  rewrite state_after_cons. apply IH.
  rewrite step_surface_ratings.
  - by apply apply_decay_surface_lookup_none.
  - intros [= -> ->]. apply Hm. split; [by left|done].
  - intros [= -> ->]. apply Hm. split; [by right|done].
Qed.

(** X5: a player enters at 1500.  The pre-match rating written on the row
    of a match is 1500 for a player whom no earlier row names, and the
    surface rating is 1500 for a player whom no earlier row on that surface
    names - whatever happened to other players, decay included. *)
Theorem newcomer_is_rated_1500 cfg df i m :
  df !! i = Some m →
  ∃ snap,
    compute_elo cfg df !! i = Some snap
    ∧ (Forall (fun e => ¬ plays (player_1 m) e) (take i df) →
       elo_p1 snap = 1500)
    ∧ (Forall (fun e => ¬ plays (player_2 m) e) (take i df) →
       elo_p2 snap = 1500)
    ∧ (Forall (fun e => ¬ (plays (player_1 m) e ∧ surface e = surface m))
              (take i df) →
       surface_elo_p1 snap = 1500)
    ∧ (Forall (fun e => ¬ (plays (player_2 m) e ∧ surface e = surface m))
              (take i df) →
       surface_elo_p2 snap = 1500).
Proof.
  intros Hm. eexists. split.
  { unfold compute_elo. by apply elo_run_lookup. }
  unfold read, rating_of. simpl.
  repeat split; intros Hnew.
  - rewrite apply_decay_lookup_none; [done|].
    by apply unseen_player_unrated.
  - rewrite apply_decay_lookup_none; [done|].
    by apply unseen_player_unrated.
  - rewrite apply_decay_surface_lookup_none; [done|].
    by apply unseen_on_surface_unrated.
  - rewrite apply_decay_surface_lookup_none; [done|].
    by apply unseen_on_surface_unrated.
Qed.

Lemma apply_decay_same_year cfg st y :
  last_year st = Some y → apply_decay cfg st y = st.
Proof.
  intros Hy. unfold apply_decay. rewrite Hy.
  rewrite bool_decide_eq_false_2 by lia. destruct st. simpl in *. by subst.
Qed.

(** X6: within a season a match touches the ratings of its two players
    only, and of their surface ratings only those on the surface played.
    Over any stretch of matches of the season in progress, the global
    rating of a player named on none of them, and the rating on a surface
    of a player named on none of them played on that surface, stay what
    they were. *)
Theorem idle_player_keeps_rating cfg st played p y :
  last_year st = Some y →
  Forall (fun e => year (date e) = y) played →
  (Forall (fun e => ¬ plays p e) played →
   rating_of (ratings (state_after cfg st played)) p
   = rating_of (ratings st) p)
  ∧ (∀ s, Forall (fun e => ¬ (plays p e ∧ surface e = s)) played →
          rating_of (surface_ratings (state_after cfg st played)) (p, s)
          = rating_of (surface_ratings st) (p, s))
  ∧ last_year (state_after cfg st played) = Some y.
Proof.
  intros Hy Hplayed. revert st Hy.
  induction Hplayed as [|m df Hyear Hdf IH]; intros st Hy; [done|].
  rewrite state_after_cons.
  assert (last_year (fst (step cfg st m)) = Some y) as Hy'.
  { unfold step, apply_result. simpl. rewrite Hyear.
    by rewrite apply_decay_same_year. }
  destruct (IH _ Hy') as (Hr & Hs & Hl).
  split; [|split; [|done]].
  - intros Hidle. apply Forall_cons in Hidle as [Hm Hidle].
    rewrite (Hr Hidle). unfold rating_of. rewrite step_ratings.
    + by rewrite Hyear, apply_decay_same_year.
    + intros ->. apply Hm. by left.
    + intros ->. apply Hm. by right.
  - intros s Hidle. apply Forall_cons in Hidle as [Hm Hidle].
    rewrite (Hs s Hidle). unfold rating_of. rewrite step_surface_ratings.
    + by rewrite Hyear, apply_decay_same_year.
    + intros [= -> ->]. apply Hm. split; [by left|done].
    + intros [= -> ->]. apply Hm. split; [by right|done].
Qed.

Lemma state_after_snoc cfg st pre m :
  state_after cfg st (pre ++ [m]) = fst (step cfg (state_after cfg st pre) m).
Proof. unfold state_after. by rewrite fold_left_app. Qed.

(** X7: the first match of two newcomers.  When neither player of a match
    is named on an earlier row, both enter it at 1500 and the winner leaves
    it with 1500 plus half of [elo_k], the loser with 1500 minus half of
    [elo_k] (1516 and 1484 with the default constant). *)
Theorem first_match_of_two_newcomers cfg pre m :
  player_1 m ≠ player_2 m →
  Forall (fun e => ¬ plays (player_1 m) e) pre →
  Forall (fun e => ¬ plays (player_2 m) e) pre →
  let after := ratings (state_after cfg init (pre ++ [m])) in
  (winner m = Some (player_1 m) →
   rating_of after (player_1 m) = 1500 + elo_k cfg / 2
   ∧ rating_of after (player_2 m) = 1500 - elo_k cfg / 2)
  ∧ (winner m ≠ Some (player_1 m) →
     rating_of after (player_1 m) = 1500 - elo_k cfg / 2
     ∧ rating_of after (player_2 m) = 1500 + elo_k cfg / 2).
Proof.
  intros Hne H1 H2 after.
  set (st := apply_decay cfg (state_after cfg init pre) (year (date m))).
  assert (ratings st !! player_1 m = None) as Hr1.
  { apply apply_decay_lookup_none. by apply unseen_player_unrated. }
  assert (ratings st !! player_2 m = None) as Hr2.
  { apply apply_decay_lookup_none. by apply unseen_player_unrated. }
  assert (rating_of after (player_1 m)
          = 1500 + gain_1 (elo_k cfg) (outcome m) (1 / 2)) as Ha1.
  { unfold after. rewrite state_after_snoc. unfold step. fold st.
    unfold apply_result, rating_of, read, rating_of. simpl.
    rewrite lookup_insert_ne by done. rewrite lookup_insert_eq. simpl.
    rewrite Hr1, Hr2. simpl. by rewrite expected_score_level. }
  assert (rating_of after (player_2 m)
          = 1500 + gain_2 (elo_k cfg) (outcome m) (1 / 2)) as Ha2.
  { unfold after. rewrite state_after_snoc. unfold step. fold st.
    unfold apply_result, rating_of, read, rating_of. simpl.
    rewrite lookup_insert_eq. simpl.
    rewrite Hr1, Hr2. simpl. by rewrite expected_score_level. }
  destruct (outcome_of_winner m) as [Hwon Hlost].
  rewrite Ha1, Ha2. unfold gain_1, gain_2.
  split; intros Hw; [rewrite (Hwon Hw)|rewrite (Hlost Hw)]; split; lra.
Qed.

Lemma decay_factor_bounds cfg gap :
  0 < elo_decay cfg → (0 < gap)%Z → 0 < decay_factor cfg gap < 1.
Proof.
  intros Hd Hgap. unfold decay_factor. split; [apply exp_pos|].
  rewrite <- exp_0. apply exp_increasing.
  apply (IZR_lt 0) in Hgap. nra.
Qed.

(** X8: with a positive decay constant the new-year decay moves every
    rating strictly closer to 1500 and never across it: a rating above 1500
    stays above, one below stays below, and 1500 stays 1500. *)
Theorem decay_contracts_toward_1500 cfg st yr prev p old :
  0 < elo_decay cfg → last_year st = Some prev → (prev < yr)%Z →
  ratings st !! p = Some old →
  ∃ new,
    ratings (apply_decay cfg st yr) !! p = Some new
    ∧ (1500 < old → 1500 < new < old)
    ∧ (old < 1500 → old < new < 1500)
    ∧ (old = 1500 → new = 1500).
Proof.
  intros Hd Hprev Hlt Hp.
  exists (pull (decay_factor cfg (yr - prev)) old). split.
  { unfold apply_decay. rewrite Hprev, bool_decide_eq_true_2 by done. simpl.
    by rewrite lookup_fmap, Hp. }
  pose proof (decay_factor_bounds cfg (yr - prev) Hd ltac:(lia)) as Hf.
  unfold pull. repeat split; intros; nra.
Qed.
End elo_invariants.

Section elo_decay_more.
Import Elo.
Local Open Scope R_scope.

(** X9: the decay depends on the years elapsed and not on how they were
    reached.  Decaying to a year and then on to a later one leaves every
    rating where a single decay over the whole gap puts it, so a season
    without matches in between makes no difference. *)
Theorem decay_composes_over_years cfg st prev y1 y2 p :
  last_year st = Some prev → (prev < y1)%Z → (y1 < y2)%Z →
  rating_of (ratings (apply_decay cfg (apply_decay cfg st y1) y2)) p
  = rating_of (ratings (apply_decay cfg st y2)) p
  ∧ (∀ s, rating_of (surface_ratings
                       (apply_decay cfg (apply_decay cfg st y1) y2)) (p, s)
          = rating_of (surface_ratings (apply_decay cfg st y2)) (p, s))
  ∧ last_year (apply_decay cfg (apply_decay cfg st y1) y2) = Some y2.
Proof.
  intros Hprev H1 H2.
  assert (decay_factor cfg (y1 - prev) * decay_factor cfg (y2 - y1)
          = decay_factor cfg (y2 - prev)) as Hmul.
  { unfold decay_factor. rewrite <- exp_plus. f_equal.
    rewrite !minus_IZR. lra. }
  assert (∀ r, pull (decay_factor cfg (y2 - y1))
                 (pull (decay_factor cfg (y1 - prev)) r)
               = pull (decay_factor cfg (y2 - prev)) r) as Hpull.
  { intros r. rewrite <- Hmul. unfold pull. lra. }
  unfold apply_decay. rewrite Hprev.
  rewrite (bool_decide_eq_true_2 (prev < y1)%Z) by done.
  rewrite (bool_decide_eq_true_2 (prev < y2)%Z) by lia. simpl.
  rewrite (bool_decide_eq_true_2 (y1 < y2)%Z) by done. simpl.
  unfold rating_of. split; [|split; [|done]].
  - rewrite !lookup_fmap. destruct (ratings st !! p); simpl; [|done].
    apply Hpull.
  - intros s. rewrite !lookup_fmap.
    destruct (surface_ratings st !! (p, s)); simpl; [|done]. apply Hpull.
Qed.
End elo_decay_more.

(** ** Head-to-head tracker: counts, direction and symmetry *)

Section h2h_more.
Import H2H.

Lemma h2h_state_after_snoc st pre m :
  state_after st (pre ++ [m]) = record (state_after st pre) m.
Proof. unfold state_after. by rewrite fold_left_app. Qed.

Lemma meeting_sym a b m : meeting a b m ↔ meeting b a m.
Proof. unfold meeting. tauto. Qed.

Lemma meetings_sym a b hist : meetings a b hist = meetings b a hist.
Proof. unfold meetings. apply list_filter_iff. intros m. apply meeting_sym. Qed.

Lemma credited_meeting a b m :
  meeting a b m → credited m = a ∨ credited m = b.
Proof.
  unfold meeting, credited.
  intros [[<- <-]|[<- <-]]; destruct (winner_is m (player_1 m)); auto.
Qed.

(** One record moves one counter: that of the pair ordered with the
    credited player first. *)
Lemma wins_of_record_credited st m a b :
  a ≠ b →
  wins_of (record st m) (a, b)
  = wins_of st (a, b)
    + (if decide (meeting a b m ∧ credited m = a) then 1 else 0).
Proof.
  intros Hab. unfold record, credited, wins_of, meeting.
  destruct (winner_is m (player_1 m)); simpl.
  - destruct (decide ((player_1 m, player_2 m) = (a, b))) as [[= <- <-]|Hk].
    + rewrite lookup_insert_eq. simpl. rewrite decide_True; [done|]. auto.
    + rewrite lookup_insert_ne by done.
      rewrite decide_False; [lia|].
      intros [[[<- <-]|[<- <-]] Hc]; congruence.
  - destruct (decide ((player_2 m, player_1 m) = (a, b))) as [[= <- <-]|Hk].
    + rewrite lookup_insert_eq. simpl. rewrite decide_True; [done|]. auto.
    + rewrite lookup_insert_ne by done.
      rewrite decide_False; [lia|].
      intros [[[<- <-]|[<- <-]] Hc]; congruence.
Qed.

Lemma booked_to_snoc a b hist m :
  booked_to a b (hist ++ [m])
  = booked_to a b hist
    + (if decide (meeting a b m ∧ credited m = a) then 1 else 0).
Proof.
  unfold booked_to, meetings. rewrite filter_app, filter_app, length_app.
  rewrite (filter_cons (meeting a b)), filter_nil.
  destruct (decide (meeting a b m)) as [Hm|Hm].
  - rewrite (filter_cons (fun e => credited e = a)), filter_nil.
    destruct (decide (credited m = a)) as [Hc|Hc].
    + rewrite decide_True by done. simpl. lia.
    + rewrite decide_False by tauto. simpl. lia.
  - rewrite decide_False by tauto. simpl. lia.
Qed.

Lemma wins_of_booked hist a b :
  a ≠ b → wins_of (state_after init hist) (a, b) = booked_to a b hist.
Proof.
  intros Hab. induction hist as [|m hist IH] using rev_ind.
  - by rewrite wins_of_init.
  - rewrite h2h_state_after_snoc, wins_of_record_credited by done.
    by rewrite IH, booked_to_snoc.
Qed.

Lemma booked_to_total a b hist :
  a ≠ b →
  booked_to a b hist + booked_to b a hist
  = Z.of_nat (length (meetings a b hist)).
Proof.
  intros Hab. unfold booked_to. rewrite (meetings_sym b a).
  assert (Forall (meeting a b) (meetings a b hist)) as Hall.
  { apply Forall_forall. intros m Hm.
    by apply list_elem_of_filter in Hm as [? _]. }
  induction Hall as [|m l Hm Hl IH]; [done|].
  rewrite !filter_cons.
  destruct (credited_meeting a b m Hm) as [Hc|Hc].
  - rewrite decide_True by done. rewrite decide_False by congruence.
    simpl. lia.
  - rewrite decide_False by congruence. rewrite decide_True by done.
    simpl. lia.
Qed.

(** X10: every earlier meeting of a pair is counted exactly once, whatever
    is written in its winner column.  For two distinct players the counter
    of each ordered pair is the number of earlier meetings booked to its
    first player, the two counters add up to the number of earlier
    meetings, and the advantage written on a row is their difference over
    their sum (zero before the first meeting). *)
Theorem h2h_counts_every_meeting pre m post :
  player_1 m ≠ player_2 m →
  let st := state_after init pre in
  let w := booked_to (player_1 m) (player_2 m) pre in
  let l := booked_to (player_2 m) (player_1 m) pre in
  wins_of st (player_1 m, player_2 m) = w
  ∧ wins_of st (player_2 m, player_1 m) = l
  ∧ w + l = Z.of_nat (length (meetings (player_1 m) (player_2 m) pre))
  ∧ fst <$> compute_head_to_head (pre ++ m :: post) !! length pre
    = Some (advantage_of_counts w l).
Proof.
  intros Hne st w l.
  assert (wins_of st (player_1 m, player_2 m) = w) as Hw
    by by apply wins_of_booked.
  assert (wins_of st (player_2 m, player_1 m) = l) as Hl
    by by apply wins_of_booked.
  repeat split; [done|done|by apply booked_to_total|].
  unfold compute_head_to_head. rewrite h2h_run_lookup. simpl. f_equal.
  fold st. rewrite advantage_counts; rewrite ?Hw, ?Hl; [done|..];
    unfold w, l, booked_to; lia.
Qed.

Lemma direction_of_record st m a b :
  a ≠ b →
  last_meeting_direction (record st m) a b
  = if decide (meeting a b m)
    then (if decide (credited m = a) then 1 else -1)
    else last_meeting_direction st a b.
Proof.
  intros Hab. unfold record, credited, last_meeting_direction, meeting.
  destruct (winner_is m (player_1 m)); simpl.
  - destruct (decide ((player_2 m, player_1 m) = (a, b))) as [[= <- <-]|Hk].
    + rewrite lookup_insert_eq. simpl.
      rewrite decide_True by auto. by rewrite decide_False by done.
    + rewrite lookup_insert_ne by done.
      destruct (decide ((player_1 m, player_2 m) = (a, b))) as [[= <- <-]|Hk'].
      * rewrite lookup_insert_eq. simpl.
        rewrite decide_True by auto. by rewrite decide_True by done.
      * rewrite lookup_insert_ne by done.
        rewrite decide_False; [done|].
        intros [[<- <-]|[<- <-]]; congruence.
  - destruct (decide ((player_2 m, player_1 m) = (a, b))) as [[= <- <-]|Hk].
    + rewrite lookup_insert_eq. simpl.
      rewrite decide_True by auto. by rewrite decide_True by done.
    + rewrite lookup_insert_ne by done.
      destruct (decide ((player_1 m, player_2 m) = (a, b))) as [[= <- <-]|Hk'].
      * rewrite lookup_insert_eq. simpl.
        rewrite decide_True by auto. by rewrite decide_False by done.
      * rewrite lookup_insert_ne by done.
        rewrite decide_False; [done|].
        intros [[<- <-]|[<- <-]]; congruence.
Qed.

Lemma direction_of_last_snoc a b hist m :
  direction_of_last a b (hist ++ [m])
  = if decide (meeting a b m)
    then (if decide (credited m = a) then 1 else -1)
    else direction_of_last a b hist.
Proof.
  unfold direction_of_last, meetings. rewrite filter_app.
  rewrite (filter_cons (meeting a b)), filter_nil.
  destruct (decide (meeting a b m)).
  - by rewrite last_snoc.
  - by rewrite app_nil_r.
Qed.

Lemma direction_after hist a b :
  a ≠ b →
  last_meeting_direction (state_after init hist) a b
  = direction_of_last a b hist.
Proof.
  intros Hab. induction hist as [|m hist IH] using rev_ind.
  - unfold last_meeting_direction. simpl. by rewrite lookup_empty.
  - rewrite h2h_state_after_snoc, direction_of_record by done.
    by rewrite IH, direction_of_last_snoc.
Qed.

(** X11: the direction column of a row is decided by the most recent earlier
    meeting of its two players alone: 0 when they never met, 1 when that
    meeting was booked to the player now named first, -1 when it was booked
    to the other - in whichever order that meeting named them, and whatever
    other pairs played in between. *)
Theorem last_winner_indicator_from_last_meeting pre m post :
  player_1 m ≠ player_2 m →
  let earlier := meetings (player_1 m) (player_2 m) pre in
  let last_indicator :=
    snd <$> compute_head_to_head (pre ++ m :: post) !! length pre in
  last_indicator = Some (direction_of_last (player_1 m) (player_2 m) pre)
  ∧ (earlier = [] → last_indicator = Some 0)
  ∧ (∀ before e, earlier = before ++ [e] →
       (credited e = player_1 m → last_indicator = Some 1)
       ∧ (credited e = player_2 m → last_indicator = Some (-1))
       ∧ (winner e = Some (player_1 m) → last_indicator = Some 1)
       ∧ (winner e = Some (player_2 m) → last_indicator = Some (-1))).
Proof.
  intros Hne earlier last_indicator.
  assert (last_indicator
          = Some (direction_of_last (player_1 m) (player_2 m) pre)) as Hlast.
  { unfold last_indicator, compute_head_to_head.
    rewrite h2h_run_lookup. simpl. by rewrite direction_after. }
  split; [done|]. rewrite Hlast. unfold direction_of_last. fold earlier.
  split.
  - by intros ->.
  - intros before e Hsplit. rewrite Hsplit, last_snoc.
    assert (meeting (player_1 m) (player_2 m) e) as Hmeet.
    { assert (e ∈ earlier) as Hin.
      { rewrite Hsplit. apply elem_of_app. right. by left. }
      by apply list_elem_of_filter in Hin as [? _]. }
    assert (winner e = Some (player_1 m) → credited e = player_1 m) as Hw1.
    { intros Hw. unfold credited, winner_is.
      destruct Hmeet as [[H1 H2]|[H1 H2]].
      - rewrite H1. by rewrite bool_decide_eq_true_2.
      - rewrite H1. rewrite bool_decide_eq_false_2; [done|]. congruence. }
    assert (winner e = Some (player_2 m) → credited e = player_2 m) as Hw2.
    { intros Hw. unfold credited, winner_is.
      destruct Hmeet as [[H1 H2]|[H1 H2]].
      - rewrite H1. rewrite bool_decide_eq_false_2; [done|]. congruence.
      - rewrite H1. by rewrite bool_decide_eq_true_2. }
    repeat split.
    + intros Hc. by rewrite decide_True.
    + intros Hc. rewrite decide_False; [done|]. congruence.
    + intros Hw. by rewrite decide_True by auto.
    + intros Hw. rewrite decide_False; [done|]. rewrite (Hw2 Hw). congruence.
Qed.

Lemma advantage_antisym st a b :
  advantage st b a = (- advantage st a b)%R.
Proof.
  unfold advantage.
  rewrite (Z.add_comm (wins_of st (b, a)) (wins_of st (a, b))).
  destruct (0 <? wins_of st (a, b) + wins_of st (b, a)); [|lra].
  replace (wins_of st (b, a) - wins_of st (a, b))
    with (- (wins_of st (a, b) - wins_of st (b, a))) by lia.
  rewrite opp_IZR. lra.
Qed.

Lemma direction_of_last_antisym hist a b :
  a ≠ b → direction_of_last b a hist = - direction_of_last a b hist.
Proof.
  intros Hab. unfold direction_of_last. rewrite (meetings_sym b a).
  destruct (last (meetings a b hist)) as [e|] eqn:He; [|done].
  assert (meeting a b e) as Hmeet.
  { apply last_Some_elem_of in He.
    by apply list_elem_of_filter in He as [? _]. }
  destruct (credited_meeting a b e Hmeet) as [Hc|Hc].
  - rewrite (decide_True (P := credited e = a)) by done.
    by rewrite decide_False by congruence.
  - rewrite (decide_True (P := credited e = b)) by done.
    by rewrite decide_False by congruence.
Qed.

(** X12: the two head-to-head columns are antisymmetric in the order of the
    names.  After any run, reading the tracker for a pair of distinct
    players in the other order negates both the advantage and the
    direction. *)
Theorem h2h_columns_antisymmetric hist a b :
  a ≠ b →
  let st := state_after init hist in
  advantage st b a = (- advantage st a b)%R
  ∧ last_meeting_direction st b a = - last_meeting_direction st a b.
Proof.
  intros Hab st. split; [apply advantage_antisym|].
  unfold st. rewrite !direction_after by done.
  by apply direction_of_last_antisym.
Qed.

Lemma wins_of_record_nonneg st m :
  (∀ key, 0 ≤ wins_of st key) → ∀ key, 0 ≤ wins_of (record st m) key.
Proof.
  intros Hst key. unfold record, wins_of.
  destruct (winner_is m (player_1 m)); simpl.
  - destruct (decide ((player_1 m, player_2 m) = key)) as [<-|Hk].
    + rewrite lookup_insert_eq. simpl.
      specialize (Hst (player_1 m, player_2 m)). unfold wins_of in Hst. lia.
    + rewrite lookup_insert_ne by done. apply Hst.
  - destruct (decide ((player_2 m, player_1 m) = key)) as [<-|Hk].
    + rewrite lookup_insert_eq. simpl.
      specialize (Hst (player_2 m, player_1 m)). unfold wins_of in Hst. lia.
    + rewrite lookup_insert_ne by done. apply Hst.
Qed.

Lemma wins_of_nonneg hist key : 0 ≤ wins_of (state_after init hist) key.
Proof.
  revert key. induction hist as [|m hist IH] using rev_ind; intros key.
  - by rewrite wins_of_init.
  - rewrite h2h_state_after_snoc. by apply wins_of_record_nonneg.
Qed.

Lemma advantage_bounded st a b :
  0 ≤ wins_of st (a, b) → 0 ≤ wins_of st (b, a) →
  (-1 <= advantage st a b <= 1)%R.
Proof.
  intros Hw Hl. unfold advantage.
  destruct (Z.ltb_spec 0 (wins_of st (a, b) + wins_of st (b, a))) as [Ht|Ht];
    [|lra].
  assert (0 < IZR (wins_of st (a, b) + wins_of st (b, a)))%R as Hpos
    by (by apply (IZR_lt 0)).
  assert (IZR (wins_of st (a, b) - wins_of st (b, a))
          <= IZR (wins_of st (a, b) + wins_of st (b, a)))%R as Hup
    by (apply IZR_le; lia).
  assert (- IZR (wins_of st (a, b) + wins_of st (b, a))
          <= IZR (wins_of st (a, b) - wins_of st (b, a)))%R as Hlow
    by (rewrite <- opp_IZR; apply IZR_le; lia).
  split.
  - apply (Rmult_le_reg_r (IZR (wins_of st (a, b) + wins_of st (b, a))));
      [done|]. field_simplify; lra.
  - apply (Rmult_le_reg_r (IZR (wins_of st (a, b) + wins_of st (b, a))));
      [done|]. field_simplify; lra.
Qed.

(** X13: on every row, for any input, the advantage lies between -1 and 1
    and the direction is -1, 0 or 1; the tracker writes one row per
    record. *)
Theorem h2h_columns_bounded df :
  length (compute_head_to_head df) = length df
  ∧ Forall (fun row => (-1 <= row.1 <= 1)%R
                       ∧ (row.2 = -1 ∨ row.2 = 0 ∨ row.2 = 1))
           (compute_head_to_head df).
Proof.
  split; [apply h2h_run_length|].
  apply Forall_lookup. intros i [adv dir] Hi.
  assert (i < length df)%nat as Hlt.
  { apply lookup_lt_Some in Hi. unfold compute_head_to_head in Hi.
    by rewrite h2h_run_length in Hi. }
  destruct (lookup_lt_is_Some_2 df i Hlt) as [m Hm].
  unfold compute_head_to_head in Hi.
  rewrite (h2h_run_lookup_at _ _ _ _ Hm) in Hi. injection Hi as <- <-.
  simpl. split.
  - apply advantage_bounded; apply wins_of_nonneg.
  - unfold last_meeting_direction.
    destruct (last_winner _ !! _) as [v|]; [|auto].
    destruct (v =? 1); [auto|]. destruct (v =? -1); auto.
Qed.
End h2h_more.

(** ** Rolling statistics: rows, ranges and history *)

Section rolling_more.
Implicit Types (side : bool) (m : Match).

Lemma well_placed_any (l : list Long.row) :
  well_placed long_key_leb long_key_le l.
Proof.
  induction l as [|x l IH]; simpl; [done|]. split; [|done].
  apply Forall_forall. intros y _. unfold placed.
  destruct (long_key_leb x y) eqn:Hle; [by apply long_key_leb_spec|].
  destruct (long_key_le_total x y) as [Hxy|Hyx].
  - apply long_key_leb_spec in Hxy. congruence.
  - by apply row_lt_key_le.
Qed.

Lemma rolled_rows long_df cfg :
  fst <$> add_rolling_features long_df cfg = sort_long long_df.
Proof.
  apply list_eq. intros i. rewrite list_lookup_fmap.
  destruct (sort_long long_df !! i) as [r|] eqn:Hr.
  - by rewrite (add_rolling_features_lookup long_df cfg i r Hr).
  - rewrite lookup_ge_None_2; [done|].
    rewrite add_rolling_features_length. by apply lookup_ge_None.
Qed.

(** X14: [add_rolling_features] only reorders and annotates: its rows are
    the rows it was given, each exactly once, sorted by player, then date,
    then match identifier; on the long frame of [n] matches that is [2 n]
    rows. *)
Theorem add_rolling_features_keeps_rows long_df cfg :
  fst <$> add_rolling_features long_df cfg ≡ₚ long_df
  ∧ StronglySorted long_key_le (fst <$> add_rolling_features long_df cfg)
  ∧ length (add_rolling_features long_df cfg) = length long_df
  ∧ (∀ df, length (add_rolling_features (expand_long df) cfg)
           = (2 * length df)%nat).
Proof.
  rewrite rolled_rows. split; [apply sort_long_perm|]. split.
  - apply stable_sort_strongly.
    + intros a b c. rewrite !long_key_leb_spec. apply long_key_le_trans.
    + intros a b. by rewrite long_key_leb_spec.
    + apply well_placed_any.
  - assert (∀ l, length (add_rolling_features l cfg) = length l) as Hlen.
    { intros l. rewrite add_rolling_features_length.
      by rewrite (Permutation_length (sort_long_perm l)). }
    split; [apply Hlen|]. intros df. rewrite Hlen.
    unfold expand_long. rewrite length_app, !length_imap. lia.
Qed.

Lemma entry_not_later df i side m x :
  chronological df → df !! i = Some m → x ∈ entries_before df i side →
  toordinal (Long.date x) ≤ toordinal (date m).
Proof.
  intros Hc Hm Hx.
  apply (elem_of_entries_before df i side m x Hm) in Hx
    as (s & j & mj & Hj & -> & _ & Hji).
  rewrite long_row_date.
  apply (chronological_lookup df j i mj m Hc Hj Hm). lia.
Qed.

(** X15: the rest days of a player before a match are the days since the
    previous entry of her history, capped at 60; they are 30 when she has
    no earlier entry, and always between 0 and 60. *)
Theorem rest_days_since_previous_entry cfg df i m side :
  chronological df → df !! i = Some m →
  ∃ st,
    side_stats side <$> engine cfg df !! i = Some (Some st)
    ∧ 0 ≤ Long.rest_days st ≤ 60
    ∧ (entries_before df i side = [] → Long.rest_days st = 30)
    ∧ (∀ earlier prev, entries_before df i side = earlier ++ [prev] →
         0 ≤ toordinal (date m) - toordinal (Long.date prev)
         ∧ Long.rest_days st
           = Z.min 60 (toordinal (date m) - toordinal (Long.date prev)))
    ∧ ((side = false → player_1 m ≠ player_2 m) →
       entries_before df i side
       = player_entries (take i df) (player_of side m)).
Proof.
  intros Hc Hm. eexists. split; [by apply engine_side_stats|].
  simpl. rewrite long_row_date.
  split; [unfold clip; lia|]. split; [by intros ->|].
  split; [|by apply entries_before_distinct].
  intros earlier prev Hsplit. rewrite Hsplit, last_snoc. simpl.
  assert (toordinal (Long.date prev) ≤ toordinal (date m)) as Hle.
  { apply (entry_not_later df i side m prev Hc Hm).
    rewrite Hsplit. apply elem_of_app. right. by left. }
  unfold clip. lia.
Qed.

Local Open Scope R_scope.

Lemma sum_list_bounds lo hi xs :
  Forall (fun x => lo <= x <= hi) xs →
  lo * INR (length xs) <= sum_list xs <= hi * INR (length xs).
Proof.
  induction 1 as [|x xs Hx Hxs IH].
  - simpl. lra.
  - change (sum_list (x :: xs)) with (x + sum_list xs).
    change (length (x :: xs)) with (S (length xs)). rewrite S_INR. lra.
Qed.

Lemma mean_bounds lo hi xs :
  xs ≠ [] → Forall (fun x => lo <= x <= hi) xs → lo <= mean xs <= hi.
Proof.
  intros Hne Hxs. pose proof (sum_list_bounds lo hi xs Hxs) as Hs.
  assert (0 < INR (length xs)) as Hlen.
  { apply lt_0_INR. destruct xs; [done|simpl; lia]. }
  unfold mean. split.
  - apply (Rmult_le_reg_r (INR (length xs))); [done|]. field_simplify; lra.
  - apply (Rmult_le_reg_r (INR (length xs))); [done|]. field_simplify; lra.
Qed.

Lemma observations_real_col col (entries : list Long.row) :
  observations (real_col col <$> entries)
  = (fun x => IZR (col x)) <$> entries.
Proof.
  induction entries as [|x entries IH]; [done|].
  unfold observations. simpl. f_equal. exact IH.
Qed.

Lemma length_observations {V} (s : list (option V)) :
  (length (observations s) ≤ length s)%nat.
Proof.
  induction s as [|o s IH]; [done|].
  change (observations (o :: s))
    with (match o with Some v => v :: observations s | None => observations s end).
  destruct o; simpl; lia.
Qed.

(** A trailing mean is present only from [mp] entries on. *)
Lemma trailing_mean_some_length w mp (s : list (option R)) x :
  trailing_mean w mp s = Some x → (mp ≤ length s)%nat.
Proof.
  unfold trailing_mean.
  destruct (Nat.ltb_spec (length (observations (last_n w s))) mp) as [|Hmp];
    [done|].
  intros _. pose proof (length_observations (last_n w s)) as Hobs.
  rewrite length_last_n in Hobs. lia.
Qed.

(** A trailing mean of a column lies where the values of the column lie. *)
Lemma trailing_mean_bounds w mp col (entries : list Long.row) lo hi x :
  (0 < mp)%nat →
  Forall (fun r => lo <= IZR (col r) <= hi) entries →
  trailing_mean w mp (real_col col <$> entries) = Some x →
  lo <= x <= hi.
Proof.
  intros Hmp Hcol. unfold trailing_mean.
  rewrite last_n_fmap, observations_real_col.
  destruct (Nat.ltb_spec
              (length ((fun r => IZR (col r)) <$> last_n w entries)) mp)
    as [|Hlen]; [done|].
  intros [= <-]. apply mean_bounds.
  - intros Hnil. rewrite Hnil in Hlen. simpl in Hlen. lia.
  - apply Forall_fmap. unfold last_n. by apply Forall_drop.
Qed.

Lemma won_indicator side i m :
  0 <= IZR (Long.won (long_row side i m)) <= 1.
Proof.
  destruct side; simpl; destruct (winner_is m _); simpl; lra.
Qed.

Lemma entries_before_rows df i side m x :
  df !! i = Some m → x ∈ entries_before df i side →
  ∃ s j mj, x = long_row s j mj.
Proof.
  intros Hm Hx.
  apply (elem_of_entries_before df i side m x Hm) in Hx
    as (s & j & mj & _ & -> & _). eauto.
Qed.

Lemma stat_diff_range w col lo hi x :
  (∀ side st v, side_stats side w = Some st → col st = Some v →
                lo <= v <= hi) →
  stat_diff w col = Some x → lo - hi <= x <= hi - lo.
Proof.
  intros Hcol. unfold stat_diff.
  destruct (wide_p1 w) as [s1|] eqn:H1; [|done].
  destruct (wide_p2 w) as [s2|] eqn:H2; simpl;
    [|by destruct (col s1)].
  destruct (col s1) as [v1|] eqn:Hv1; [|done].
  destruct (col s2) as [v2|] eqn:Hv2; [|done].
  intros [= <-]. simpl.
  pose proof (Hcol true s1 v1 H1 Hv1).
  pose proof (Hcol false s2 v2 H2 Hv2). lra.
Qed.

(** X16: the ranges of the rolled columns.  On a date-ordered frame the
    form and the surface form of each side, when present, are win rates
    between 0 and 1, the tie-break rate is not negative and the rest days
    lie between 0 and 60; hence the form differences of a row lie between
    -1 and 1 and the rest-day difference between -60 and 60. *)
Theorem rolled_columns_in_range cfg df i w :
  chronological df → engine cfg df !! i = Some w →
  (∀ side st, side_stats side w = Some st →
     (∀ v, Long.form_win_rate st = Some v → 0 <= v <= 1)
     ∧ (∀ v, Long.surface_form_win_rate st = Some v → 0 <= v <= 1)
     ∧ (∀ v, Long.tiebreak_rate st = Some v → 0 <= v)
     ∧ (0 ≤ Long.rest_days st ≤ 60)%Z)
  ∧ (∀ x, form_diff (features w) = Some x → -1 <= x <= 1)
  ∧ (∀ x, surface_form_diff (features w) = Some x → -1 <= x <= 1)
  ∧ (∀ x, rest_days_diff (features w) = Some x → -60 <= x <= 60).
Proof.
  intros Hc Hw.
  assert (i < length df)%nat as Hi.
  { apply lookup_lt_Some in Hw. by rewrite engine_length in Hw. }
  destruct (lookup_lt_is_Some_2 df i Hi) as [m Hm].
  assert (∀ side st, side_stats side w = Some st →
            st = stats_from cfg (long_row side i m) (entries_before df i side))
    as Hst.
  { intros side st Hside.
    pose proof (engine_side_stats cfg df i m side Hc Hm) as He.
    rewrite Hw in He. simpl in He. congruence. }
  assert (∀ side, Forall (fun r => 0 <= IZR (Long.won r) <= 1)
                    (entries_before df i side)) as Hwon.
  { intros side. apply Forall_forall. intros x Hx.
    destruct (entries_before_rows df i side m x Hm Hx) as (s & j & mj & ->).
    apply won_indicator. }
  assert (∀ side st, side_stats side w = Some st →
            (∀ v, Long.form_win_rate st = Some v → 0 <= v <= 1)
            ∧ (∀ v, Long.surface_form_win_rate st = Some v → 0 <= v <= 1)
            ∧ (∀ v, Long.tiebreak_rate st = Some v → 0 <= v)
            ∧ (0 ≤ Long.rest_days st ≤ 60)%Z) as Hsides.
  { intros side st Hside. rewrite (Hst side st Hside). simpl.
    split; [|split; [|split; [|unfold clip; lia]]].
    - intros v Hv.
      by apply (trailing_mean_bounds _ 3 Long.won _ 0 1 v) in Hv; [|lia|].
    - intros v Hv.
      apply (trailing_mean_bounds _ 2 Long.won _ 0 1 v) in Hv; [done|lia|].
      apply Forall_forall. intros x [_ Hx]%list_elem_of_filter.
      specialize (Hwon side). rewrite Forall_forall in Hwon. by apply Hwon.
    - intros v Hv.
      set (top := IZR (foldr Z.max 0%Z
                         (Long.tie_breaks_played
                            <$> entries_before df i side))).
      apply (trailing_mean_bounds _ 3 Long.tie_breaks_played _ 0 top v) in Hv;
        [lra|lia|].
      apply Forall_forall. intros x Hx.
      destruct (entries_before_rows df i side m x Hm Hx) as (s & j & mj & ->).
      assert (0 ≤ Long.tie_breaks_played (long_row s j mj))%Z as Hnn.
      { destruct (parse_score_nonneg (Some (default ""%string (score mj))))
          as (_ & _ & _ & _ & Ht).
        by destruct s. }
      split; [by apply (IZR_le 0)|]. apply IZR_le.
      assert (∀ l : list Z, ∀ z, z ∈ l → (z ≤ foldr Z.max 0 l)%Z) as Hmax.
      { induction l as [|y l IH]; intros z Hz; [by apply not_elem_of_nil in Hz|].
        simpl. apply elem_of_cons in Hz as [->|Hz]; [lia|].
        specialize (IH z Hz). lia. }
      apply Hmax. by apply list_elem_of_fmap_2. }
  split; [done|].
  unfold features. simpl. split; [|split].
  - intros x Hx.
    apply (stat_diff_range w Long.form_win_rate 0 1) in Hx; [lra|].
    intros side st v Hside. apply (proj1 (Hsides side st Hside)).
  - intros x Hx.
    apply (stat_diff_range w Long.surface_form_win_rate 0 1) in Hx; [lra|].
    intros side st v Hside. apply (proj1 (proj2 (Hsides side st Hside))).
  - intros x Hx.
    apply (stat_diff_range w (fun s => Some (IZR (Long.rest_days s))) 0 60)
      in Hx; [lra|].
    intros side st v Hside [= <-].
    destruct (Hsides side st Hside) as (_ & _ & _ & [Hlo Hhi]).
    split; [by apply (IZR_le 0)|by apply (IZR_le _ 60)].
Qed.
Lemma trailing_mean_column w mp col (entries : list Long.row) :
  (mp ≤ w)%nat →
  trailing_mean w mp (real_col col <$> entries)
  = if (length entries <? mp)%nat then None
    else Some (mean (last_n w ((fun x => IZR (col x)) <$> entries))).
Proof.
  intros Hw. unfold trailing_mean.
  rewrite last_n_fmap, observations_real_col, <- last_n_fmap.
  rewrite length_last_n, length_fmap.
  destruct (Nat.ltb_spec (w `min` length entries) mp);
    destruct (Nat.ltb_spec (length entries) mp); try done; lia.
Qed.

(** X17: the margins of a player before a match.  Her games margin, sets
    margin and tie-break rate are the means, over at most the last
    [rolling_matches] entries of her history that precede her entry for
    this match, of her signed games difference, her signed sets difference
    and the tie-break count of the match; they are missing while there are
    fewer than three such entries.  A margin is counted from her side: the
    difference of the match for the first-named player, its opposite for
    the second-named. *)
Theorem trailing_margins_of_prior_entries cfg df i m side :
  chronological df → df !! i = Some m → (3 ≤ rolling_matches cfg)%nat →
  let earlier := entries_before df i side in
  let trailing (col : Long.row → Z) :=
    if (length earlier <? 3)%nat then None
    else Some (mean (last_n (rolling_matches cfg)
                       ((fun x => IZR (col x)) <$> earlier))) in
  ∃ st,
    side_stats side <$> engine cfg df !! i = Some (Some st)
    ∧ Long.games_delta_avg st = trailing Long.games_delta_signed
    ∧ Long.sets_delta_avg st = trailing Long.sets_delta_signed
    ∧ Long.tiebreak_rate st = trailing Long.tie_breaks_played
    ∧ (∀ s j e,
         Long.games_delta_signed (long_row s j e)
         = (if s then games_delta e else - games_delta e)%Z
         ∧ Long.sets_delta_signed (long_row s j e)
           = (if s then sets_delta e else - sets_delta e)%Z
         ∧ Long.tie_breaks_played (long_row s j e) = tie_breaks_played e)
    ∧ ((side = false → player_1 m ≠ player_2 m) →
       earlier = player_entries (take i df) (player_of side m)).
Proof.
  intros Hc Hm Hw earlier trailing.
  eexists. split; [by apply engine_side_stats|]. simpl.
  fold earlier. rewrite !trailing_mean_column by done.
  repeat split; try done.
  - by destruct s.
  - by destruct s.
  - by destruct s.
  - by apply entries_before_distinct.
Qed.
End rolling_more.

(** ** The assembled rows and the output *)

Section output_more.
Implicit Types (side : bool) (m : Match).

Lemma osub_is_Some a b : is_Some (osub a b) → is_Some a ∧ is_Some b.
Proof. destruct a, b; simpl; intros [? ?]; try done; split; eauto. Qed.

Lemma complete_columns f :
  complete f = true →
  is_Some (rank_diff f) ∧ is_Some (pts_diff f) ∧ is_Some (odd_diff f)
  ∧ is_Some (form_diff f) ∧ is_Some (surface_form_diff f)
  ∧ is_Some (rank_trend_diff f) ∧ is_Some (points_trend_diff f).
Proof.
  unfold complete. rewrite !andb_true_iff, !bool_decide_eq_true. tauto.
Qed.

(** X18: a row is kept by [dropna] only when both players have a history.
    On a date-ordered frame, a row whose numeric columns are all present
    belongs to a match before which each side has at least three entries,
    at least two of them on the surface of the match, and on which both
    ranks, both point counts and both odds are present: the first three
    matches of every player never reach the output. *)
Theorem kept_rows_have_history cfg df i m w :
  chronological df → df !! i = Some m → engine cfg df !! i = Some w →
  complete (features w) = true →
  (∀ side,
     (3 ≤ length (entries_before df i side))%nat
     ∧ (2 ≤ length (filter (fun x => Long.surface x = surface m)
                           (entries_before df i side)))%nat)
  ∧ (player_1 m ≠ player_2 m →
     ∀ side, (3 ≤ length (player_entries (take i df) (player_of side m)))%nat)
  ∧ is_Some (rank_1 m) ∧ is_Some (rank_2 m)
  ∧ is_Some (pts_1 m) ∧ is_Some (pts_2 m)
  ∧ is_Some (odd_1 m) ∧ is_Some (odd_2 m).
Proof.
  intros Hc Hm Hw Hcomplete.
  rewrite (engine_lookup cfg df i m Hc Hm) in Hw. injection Hw as <-.
  apply complete_columns in Hcomplete
    as (Hrank & Hpts & Hodd & Hform & Hsurf & _ & _).
  unfold features, stat_diff in *. simpl in *.
  apply osub_is_Some in Hrank as [? ?].
  apply osub_is_Some in Hpts as [? ?].
  apply osub_is_Some in Hodd as [? ?].
  apply osub_is_Some in Hform as [[v1 Hf1] [v2 Hf2]].
  apply osub_is_Some in Hsurf as [[u1 Hs1] [u2 Hs2]].
  apply trailing_mean_some_length in Hf1, Hf2, Hs1, Hs2.
  rewrite length_fmap in Hf1, Hf2, Hs1, Hs2.
  assert (∀ side,
            (3 ≤ length (entries_before df i side))%nat
            ∧ (2 ≤ length (filter (fun x => Long.surface x = surface m)
                                  (entries_before df i side)))%nat) as Hhist.
  { intros []; split; done. }
  split; [done|]. split; [|done].
  intros Hne side. rewrite <- (entries_before_distinct df i side m) by done.
  apply Hhist.
Qed.

Lemma sublist_fmap_2 {A B} (f : A → B) (l k : list A) :
  l `sublist_of` k → f <$> l `sublist_of` f <$> k.
Proof. induction 1; simpl; by constructor. Qed.

Lemma strongly_sorted_sublist {A} (lt : relation A) (l k : list A) :
  l `sublist_of` k → StronglySorted lt k → StronglySorted lt l.
Proof.
  induction 1 as [|x l k Hlk IH|x l k Hlk IH]; intros Hk; [done|..].
  - apply StronglySorted_inv in Hk as [Hk Hx].
    constructor; [by apply IH|].
    apply Forall_forall. intros y Hy. rewrite Forall_forall in Hx.
    apply Hx. by eapply elem_of_sublist.
  - apply StronglySorted_inv in Hk as [Hk _]. by apply IH.
Qed.

Lemma chronological_sublist (l k : list Match) :
  l `sublist_of` k → chronological k → chronological l.
Proof.
  intros Hlk Hk. apply StronglySorted_Sorted.
  apply (strongly_sorted_sublist _ l k Hlk).
  apply Sorted_StronglySorted; [apply _|done].
Qed.

Lemma out_match_select_output wide :
  out_match <$> select_output wide
  = wide_match <$> filter (fun w => complete (features w) = true) wide.
Proof. unfold select_output. by rewrite <- list_fmap_compose. Qed.

Lemma retained_from_min_year cfg raw m :
  m ∈ retained cfg raw → min_year cfg ≤ year (date m).
Proof. unfold retained. by intros [? _]%list_elem_of_filter. Qed.

Lemma retained_length cfg raw : (length (retained cfg raw) ≤ length raw)%nat.
Proof.
  unfold retained.
  etrans; [apply length_filter|].
  induction raw as [|r raw IH]; simpl; [done|].
  destruct (clean r); simpl; [apply le_n_S|apply le_S]; exact IH.
Qed.

(** When [preprocess] returns a table, every check has passed and the table
    is what [dropna] keeps of the engine's rows; and conversely. *)
Lemma preprocess_returns sort_values df cfg evs out :
  preprocess sort_values df cfg = (evs, inr out) →
  missing_from (rename_column <$> columns df) required_columns = []
  ∧ "score"%string ∈ (rename_column <$> columns df)
  ∧ retained cfg (rows df) ≠ []
  ∧ missing_from (rename_column <$> columns df) long_columns = []
  ∧ (3 ≤ rolling_matches cfg ∧ 2 ≤ rolling_surface_matches cfg)%nat
  ∧ evs = [RatingState; HeadToHeadState; HistoryState]
  ∧ out = select_output
            (engine cfg (processing_order sort_values cfg df)).
Proof.
  unfold preprocess. intros Hpre.
  destruct (missing_from _ required_columns); [|done].
  case_bool_decide; [|done].
  case_bool_decide; [done|].
  destruct (missing_from _ long_columns); [|done].
  case_bool_decide; [|done]. by injection Hpre as <- <-.
Qed.

Lemma preprocess_runs sort_values df cfg :
  missing_from (rename_column <$> columns df) required_columns = [] →
  "score"%string ∈ (rename_column <$> columns df) →
  retained cfg (rows df) ≠ [] →
  missing_from (rename_column <$> columns df) long_columns = [] →
  (3 ≤ rolling_matches cfg ∧ 2 ≤ rolling_surface_matches cfg)%nat →
  preprocess sort_values df cfg
  = ([RatingState; HeadToHeadState; HistoryState],
     inr (select_output
            (engine cfg (processing_order sort_values cfg df)))).
Proof.
  intros Hreq Hscore Hrows Hlong Hwin. unfold preprocess.
  rewrite Hreq, Hlong.
  rewrite (bool_decide_eq_true_2 _ Hscore).
  rewrite (bool_decide_eq_false_2 _ Hrows).
  by rewrite (bool_decide_eq_true_2 _ Hwin).
Qed.

(** X19: what [preprocess] returns.  Whenever it returns a table, the rows
    of the table are rows that passed the filters, in the order in which
    they were processed - so in ascending date order and never more than
    the input held; each carries a year not below [min_year], the label 1
    exactly when [winner] equals [player_1], and a value in every numeric
    column. *)
Theorem output_rows_are_retained_rows sort_values cfg df evs out :
  sorts_by_date sort_values →
  preprocess sort_values df cfg = (evs, inr out) →
  out_match <$> out `sublist_of` processing_order sort_values cfg df
  ∧ chronological (out_match <$> out)
  ∧ (length out ≤ length (rows df))%nat
  ∧ Forall (fun o => min_year cfg ≤ out_year o
                     ∧ out_year o = year (date (out_match o))
                     ∧ out_y o = label (out_match o)
                     ∧ (out_y o = 1 ↔ winner (out_match o)
                                      = Some (player_1 (out_match o)))
                     ∧ complete (out_features o) = true) out.
Proof.
  intros Hsort Hpre.
  destruct (Hsort (retained cfg (rows df))) as [Hperm Hchrono].
  fold (processing_order sort_values cfg df) in Hperm, Hchrono.
  set (ordered := processing_order sort_values cfg df) in *.
  assert (out = select_output (engine cfg ordered)) as ->.
  { by apply preprocess_returns in Hpre as (_ & _ & _ & _ & _ & _ & ->). }
  assert (out_match <$> select_output (engine cfg ordered)
            `sublist_of` ordered) as Hsub.
  { rewrite out_match_select_output.
    rewrite <- (engine_consumes_in_order cfg ordered Hchrono) at 2.
    apply sublist_fmap_2, sublist_filter. }
  split; [done|]. split; [by eapply chronological_sublist|]. split.
  - rewrite <- (length_fmap out_match). etrans; [by apply sublist_length|].
    rewrite (Permutation_length Hperm). apply retained_length.
  - apply Forall_forall. intros o Ho.
    assert (out_match o ∈ ordered) as Hin.
    { eapply elem_of_sublist; [|exact Hsub]. by apply list_elem_of_fmap_2. }
    rewrite Hperm in Hin. apply retained_from_min_year in Hin.
    unfold select_output in Ho.
    apply list_elem_of_fmap in Ho as (w & -> & Hw).
    apply list_elem_of_filter in Hw as [Hw _]. simpl.
    repeat split; try done.
    + unfold label, winner_is. case_bool_decide; done.
    + intros Hwin. unfold label, winner_is.
      by rewrite bool_decide_eq_true_2.
Qed.

Lemma elo_run_without_rolling_days cfg d st df :
  Elo.run (with_rolling_days d cfg) st df = Elo.run cfg st df.
Proof.
  revert st. induction df as [|m df IH]; intros st; [done|].
  simpl. f_equal. apply IH.
Qed.

Lemma engine_without_rolling_days cfg d df :
  engine (with_rolling_days d cfg) df = engine cfg df.
Proof.
  unfold engine, Elo.compute_elo.
  by rewrite elo_run_without_rolling_days.
Qed.

(** X20: the option [rolling_days] is never read.  Whatever value it is
    given, [preprocess] and [run_pipeline] behave the same: the same
    events, the same error or the same table. *)
Theorem rolling_days_is_ignored sort_values df cfg d :
  preprocess sort_values df (with_rolling_days d cfg)
  = preprocess sort_values df cfg
  ∧ run_pipeline sort_values (with_rolling_days d cfg) df
    = run_pipeline sort_values cfg df.
Proof.
  assert (preprocess sort_values df (with_rolling_days d cfg)
          = preprocess sort_values df cfg) as Hpre.
  { unfold preprocess. by rewrite engine_without_rolling_days. }
  split; [done|]. unfold run_pipeline. by rewrite Hpre.
Qed.

Lemma missing_from_nil cols wanted :
  Forall (fun c => c ∈ cols) wanted → missing_from cols wanted = [].
Proof.
  intros Hall. unfold missing_from. apply filter_none.
  eapply Forall_impl; [exact Hall|]. intros c Hc Hn. by apply Hn.
Qed.

(** X21: a table that has the four required columns but no [score] column
    makes [add_score_features] fail with an [AttributeError]; this happens
    before any engine has run, and [run_pipeline] writes nothing. *)
Theorem missing_score_column_aborts sort_values cfg df :
  Forall (fun c => c ∈ rename_column <$> columns df) required_columns →
  "score"%string ∉ (rename_column <$> columns df) →
  preprocess sort_values df cfg = ([], inl AttributeError)
  ∧ run_pipeline sort_values cfg df = ([], inl AttributeError).
Proof.
  intros Hreq Hscore.
  assert (preprocess sort_values df cfg = ([], inl AttributeError)) as Hpre.
  { unfold preprocess. rewrite (missing_from_nil _ _ Hreq).
    by rewrite bool_decide_eq_false_2. }
  split; [done|]. unfold run_pipeline. by rewrite Hpre.
Qed.

(** X22: the long expansion asks for more than the required columns.  A
    table with the required columns and [score], holding at least one row
    that passes the filters, but lacking one of the columns [expand_long]
    reads (surface, round, tournament, court, best_of, the ranks, points
    and odds of both sides) fails with a [KeyError] naming it - after the
    rating engine and the head-to-head tracker have run, before any rolling
    statistic exists, and nothing is written. *)
Theorem missing_long_column_aborts sort_values cfg df c :
  Forall (fun c => c ∈ rename_column <$> columns df) required_columns →
  "score"%string ∈ (rename_column <$> columns df) →
  retained cfg (rows df) ≠ [] →
  c ∈ long_columns → c ∉ (rename_column <$> columns df) →
  ∃ missing,
    c ∈ missing
    ∧ preprocess sort_values df cfg
      = ([RatingState; HeadToHeadState], inl (KeyError missing))
    ∧ run_pipeline sort_values cfg df
      = ([RatingState; HeadToHeadState], inl (KeyError missing)).
Proof.
  intros Hreq Hscore Hrows Hlong Hmiss.
  pose proof (missing_from_elem _ _ c Hlong Hmiss) as Hin.
  exists (missing_from (rename_column <$> columns df) long_columns).
  split; [done|].
  assert (preprocess sort_values df cfg
          = ([RatingState; HeadToHeadState],
             inl (KeyError (missing_from (rename_column <$> columns df)
                              long_columns)))) as Hpre.
  { unfold preprocess. rewrite (missing_from_nil _ _ Hreq).
    rewrite bool_decide_eq_true_2 by done.
    rewrite bool_decide_eq_false_2 by done.
    destruct (missing_from (rename_column <$> columns df) long_columns);
      [by apply not_elem_of_nil in Hin|done]. }
  split; [done|]. unfold run_pipeline. by rewrite Hpre.
Qed.
End output_more.

(** ** The order of the two names on a record *)

Section side_symmetry.
Implicit Types (side : bool) (m : Match).

Lemma osub_opposite a b : osub b a = Ropp <$> osub a b.
Proof. destruct a, b; simpl; try done. f_equal. lra. Qed.

Lemma chronological_same_dates (df df' : list Match) :
  Forall2 (fun a b => date a = date b) df df' →
  chronological df → chronological df'.
Proof.
  intros Hdates Hc. induction Hdates as [|a b df df' Hab Hrest IH];
    [constructor|].
  apply Sorted_inv in Hc as [Hc Hhd].
  constructor; [by apply IH|].
  destruct Hrest as [|a' b' df df' Hab' Hrest']; [constructor|].
  apply HdRel_inv in Hhd. constructor.
  unfold date_le in *. by rewrite <- Hab, <- Hab'.
Qed.

Lemma chronological_swap pre m post :
  chronological (pre ++ m :: post) →
  chronological (pre ++ swap_sides m :: post).
Proof.
  apply chronological_same_dates.
  apply Forall2_app; [by apply Forall_Forall2_diag, Forall_true|].
  constructor; [done|]. by apply Forall_Forall2_diag, Forall_true.
Qed.

(** X23: the row of a match does not depend on which of its two players is
    written first, up to sign.  On a date-ordered frame, exchanging the two
    sides of a record between distinct players (names, ranks, points and
    odds) changes the sign of every numeric column of its row and nothing
    else; with a recorded winner among the two players the label turns
    from 1 to 0 or from 0 to 1. *)
Theorem row_antisymmetric_in_sides cfg pre m post :
  chronological (pre ++ m :: post) → player_1 m ≠ player_2 m →
  features <$> engine cfg (pre ++ swap_sides m :: post) !! length pre
  = opposite <$> (features <$> engine cfg (pre ++ m :: post) !! length pre)
  ∧ (valid_winner m → label (swap_sides m) = 1 - label m).
Proof.
  intros Hc Hne. split.
  - pose proof (chronological_swap pre m post Hc) as Hc'.
    rewrite (engine_lookup cfg (pre ++ m :: post) (length pre) m Hc)
      by (by rewrite list_lookup_middle).
    rewrite (engine_lookup cfg (pre ++ swap_sides m :: post) (length pre)
               (swap_sides m) Hc')
      by (by rewrite list_lookup_middle).
    rewrite (entries_before_distinct (pre ++ m :: post) _ true m),
      (entries_before_distinct (pre ++ m :: post) _ false m),
      (entries_before_distinct (pre ++ swap_sides m :: post) _ true
         (swap_sides m)),
      (entries_before_distinct (pre ++ swap_sides m :: post) _ false
         (swap_sides m))
      by (rewrite ?list_lookup_middle; try done; intros _; simpl; congruence).
    rewrite !take_app_length. simpl. f_equal.
    unfold features, opposite, stat_diff. simpl.
    rewrite !(osub_opposite (rank_1 m)), !(osub_opposite (pts_1 m)),
      !(osub_opposite (odd_1 m)).
    rewrite advantage_antisym.
    rewrite !direction_after by (simpl; congruence).
    rewrite (direction_of_last_antisym pre (player_1 m) (player_2 m) Hne).
    rewrite opp_IZR.
    f_equal; try done; try (f_equal; lra); apply osub_opposite.
  - intros Hv. unfold label, winner_is. simpl.
    destruct Hv as [Hw|Hw]; rewrite Hw.
    + rewrite bool_decide_eq_false_2 by congruence.
      by rewrite bool_decide_eq_true_2.
    + rewrite bool_decide_eq_true_2 by done.
      rewrite bool_decide_eq_false_2 by congruence. done.
Qed.

Lemma h2h_record_swap tracker m :
  valid_winner m → player_1 m ≠ player_2 m →
  H2H.record tracker (swap_sides m) = H2H.record tracker m.
Proof.
  intros Hv Hne. unfold H2H.record, winner_is. simpl.
  destruct Hv as [Hw|Hw]; rewrite Hw.
  - rewrite (bool_decide_eq_false_2 (Some (player_1 m) = Some (player_2 m)))
      by congruence.
    rewrite bool_decide_eq_true_2 by done.
    f_equal. apply insert_insert_ne. congruence.
  - rewrite bool_decide_eq_true_2 by done.
    rewrite (bool_decide_eq_false_2 (Some (player_2 m) = Some (player_1 m)))
      by congruence.
    f_equal. apply insert_insert_ne. congruence.
Qed.

(** X24: the head-to-head tables do not depend on the order of the two
    names.  Booking a record with a recorded winner among its two distinct
    players leaves the same win counters and the same last-winner table
    whichever of the two players the record names first, in any state of
    the tracker; hence a run over such records ends in the same tables when
    some of them are written the other way round. *)
Theorem h2h_tables_ignore_order_of_names tracker hist hist' :
  Forall2 (fun e e' => valid_winner e ∧ player_1 e ≠ player_2 e
                       ∧ (e' = e ∨ e' = swap_sides e)) hist hist' →
  H2H.state_after tracker hist' = H2H.state_after tracker hist
  ∧ ∀ p1 p2,
      H2H.advantage (H2H.state_after tracker hist') p1 p2
      = H2H.advantage (H2H.state_after tracker hist) p1 p2
      ∧ H2H.last_meeting_direction (H2H.state_after tracker hist') p1 p2
        = H2H.last_meeting_direction (H2H.state_after tracker hist) p1 p2.
Proof.
  intros Hsame.
  assert (H2H.state_after tracker hist' = H2H.state_after tracker hist) as ->.
  { revert tracker.
    induction Hsame as [|e e' hist hist' (Hv & Hne & He) _ IH];
      intros tracker; [done|].
    unfold H2H.state_after in *. simpl.
    assert (H2H.record tracker e' = H2H.record tracker e) as ->.
    { destruct He as [->| ->]; [done|]. by apply h2h_record_swap. }
    apply IH. }
  done.
Qed.

Lemma elo_run_without_context cfg st df :
  Elo.run cfg st (without_context <$> df) = Elo.run cfg st df.
Proof.
  revert st. induction df as [|m df IH]; intros st; [done|].
  simpl. f_equal. apply IH.
Qed.

Lemma h2h_run_without_context st df :
  H2H.run st (without_context <$> df) = H2H.run st df.
Proof.
  revert st. induction df as [|m df IH]; intros st; [done|].
  simpl. f_equal. apply IH.
Qed.

Lemma expand_long_without_context df :
  expand_long (without_context <$> df) = expand_long df.
Proof. unfold expand_long. by rewrite !imap_fmap. Qed.

(** X25: the descriptive columns are passed through and nothing more.  For
    any frame, blanking the tournament, court, round and best_of columns
    of every record leaves every numeric column of every row as it
    was. *)
Theorem context_columns_are_passed_through cfg df :
  features <$> engine cfg (without_context <$> df)
  = features <$> engine cfg df.
Proof.
  unfold engine, Elo.compute_elo, H2H.compute_head_to_head.
  rewrite elo_run_without_context, h2h_run_without_context,
    expand_long_without_context.
  unfold aggregate_back. apply list_eq. intros i.
  rewrite !list_lookup_fmap, !list_lookup_imap.
  rewrite (lookup_zip_with pair (without_context <$> df)),
    (lookup_zip_with pair df).
  rewrite list_lookup_fmap.
  destruct (df !! i) as [m|]; [|done]. simpl.
  by destruct (zip _ _ !! i).
Qed.
End side_symmetry.

(** ** Score decoder: written scores and the shape of the counts *)

Section score_more.
Import Score.

Lemma span_digits_run ds rest :
  Forall digit_char ds →
  match rest with c :: _ => is_digit c = false | [] => True end →
  span_digits (ds ++ rest) = (ds, rest).
Proof.
  intros Hds Hrest. induction Hds as [|d ds Hd Hds IH]; simpl.
  - destruct rest as [|c rest]; [done|]. simpl. by rewrite Hrest.
  - unfold digit_char in Hd. by rewrite Hd, IH.
Qed.

Lemma match_here_set lhs rhs rest :
  lhs ≠ [] → rhs ≠ [] → Forall digit_char lhs → Forall digit_char rhs →
  match rest with c :: _ => is_digit c = false | [] => True end →
  match_here (lhs ++ hyphen :: rhs ++ rest) = Some (lhs, rhs, rest).
Proof.
  intros Hl Hr Hdl Hdr Hrest. unfold match_here.
  rewrite (span_digits_run lhs (hyphen :: rhs ++ rest)) by done.
  destruct lhs as [|d lhs]; [done|].
  rewrite Ascii.eqb_refl.
  rewrite (span_digits_run rhs rest) by done.
  by destruct rhs.
Qed.

Lemma findall_match s lhs rhs rest :
  match_here s = Some (lhs, rhs, rest) →
  findall s = (lhs, rhs) :: findall rest.
Proof.
  intros Hm. pose proof (match_here_inv _ _ _ _ Hm) as (_ & _ & Hlen).
  unfold findall at 1. destruct s as [|c s]; [done|].
  simpl in *. rewrite Hm. f_equal. apply findall_from_enough. lia.
Qed.

Lemma findall_skip c s :
  match_here (c :: s) = None → findall (c :: s) = findall s.
Proof. intros Hm. unfold findall at 1. simpl. by rewrite Hm. Qed.

Lemma match_here_blank s : match_here (" "%char :: s) = None.
Proof. done. Qed.

Lemma uint_digits d :
  Forall digit_char
    (list_ascii_of_string (DecimalString.NilEmpty.string_of_uint d)).
Proof. induction d; simpl; constructor; done. Qed.

Lemma uint_value d (acc : nat) :
  fold_left (fun a c => 10 * a + (Z.of_N (N_of_ascii c) - 48))
    (list_ascii_of_string (DecimalString.NilEmpty.string_of_uint d))
    (Z.of_nat acc)
  = Z.of_nat (Nat.of_uint_acc d acc).
Proof.
  revert acc. induction d; intros acc; simpl; [done|..];
    rewrite <- IHd; f_equal; rewrite Nat.tail_mul_spec; lia.
Qed.

Lemma digits_of_digits n : Forall digit_char (digits_of n).
Proof.
  unfold digits_of, DecimalString.NilZero.string_of_uint.
  destruct (Nat.to_uint n) eqn:Hn; try (rewrite <- Hn; apply uint_digits).
  by repeat constructor.
Qed.

Lemma digits_of_nonempty n : digits_of n ≠ [].
Proof.
  unfold digits_of, DecimalString.NilZero.string_of_uint.
  by destruct (Nat.to_uint n).
Qed.

(** Reading back the digits of a number gives the number. *)
Lemma int_of_digits_of n : int_of_digits (digits_of n) = Z.of_nat n.
Proof.
  rewrite <- (DecimalNat.Unsigned.of_to n) at 2.
  unfold int_of_digits, digits_of, DecimalString.NilZero.string_of_uint,
    Nat.of_uint.
  destruct (Nat.to_uint n) eqn:Hn; try (rewrite <- Hn; apply (uint_value _ 0)).
  done.
Qed.

Lemma match_here_render_set p rest :
  match rest with c :: _ => is_digit c = false | [] => True end →
  match_here (render_set p ++ rest)
  = Some (digits_of p.1, digits_of p.2, rest).
Proof.
  intros Hrest. unfold render_set. rewrite <- app_assoc. simpl.
  apply match_here_set;
    auto using digits_of_nonempty, digits_of_digits.
Qed.

(** The scan of a written score finds its sets, in order. *)
Lemma findall_render_sets sets :
  findall (render_sets sets) = written <$> sets.
Proof.
  induction sets as [|p [|q sets] IH].
  - done.
  - simpl. rewrite <- (app_nil_r (render_set p)).
    by rewrite (findall_match _ _ _ _ (match_here_render_set p [] I)).
  - change (render_sets (p :: q :: sets))
      with (render_set p ++ " "%char :: render_sets (q :: sets)).
    rewrite (findall_match _ _ _ _
               (match_here_render_set p (" "%char :: _) eq_refl)).
    rewrite findall_skip by apply match_here_blank.
    by rewrite IH.
Qed.

Lemma render_sets_chars sets : Forall score_char (render_sets sets).
Proof.
  assert (∀ p, Forall score_char (render_set p)) as Hset.
  { intros p. unfold render_set. apply Forall_app. split.
    - eapply Forall_impl; [apply digits_of_digits|]. by left.
    - constructor; [right; by left|].
      eapply Forall_impl; [apply digits_of_digits|]. by left. }
  induction sets as [|p [|q sets] IH]; [constructor|apply Hset|].
  change (render_sets (p :: q :: sets))
    with (render_set p ++ " "%char :: render_sets (q :: sets)).
  apply Forall_app. split; [apply Hset|].
  constructor; [right; by right|done].
Qed.

Lemma render_sets_head sets :
  sets ≠ [] → ∃ c s, render_sets sets = c :: s ∧ is_digit c = true.
Proof.
  destruct sets as [|p sets]; [done|]. intros _.
  pose proof (digits_of_digits p.1) as Hd.
  pose proof (digits_of_nonempty p.1) as Hn.
  destruct (digits_of p.1) as [|c ds] eqn:Hp; [done|].
  inversion Hd; subst.
  destruct sets as [|q sets]; simpl; unfold render_set; rewrite Hp; simpl; eauto.
Qed.

Lemma render_sets_last sets :
  sets ≠ [] → ∃ s c, render_sets sets = s ++ [c] ∧ is_digit c = true.
Proof.
  assert (∀ p, ∃ s c, render_set p = s ++ [c] ∧ is_digit c = true) as Hset.
  { intros p.
    pose proof (digits_of_digits p.2) as Hd.
    pose proof (digits_of_nonempty p.2) as Hn.
    destruct (digits_of p.2) as [|c ds] eqn:Hp using rev_ind; [done|].
    clear IHds. apply Forall_app in Hd as [_ Hd]. inversion Hd; subst.
    exists (digits_of p.1 ++ hyphen :: ds), c.
    unfold render_set. rewrite Hp. by rewrite <- app_assoc. }
  induction sets as [|p [|q sets] IH]; [done|intros _; apply Hset|].
  intros _. destruct IH as (s & c & Hs & Hc); [done|].
  exists (render_set p ++ " "%char :: s), c.
  change (render_sets (p :: q :: sets))
    with (render_set p ++ " "%char :: render_sets (q :: sets)).
  rewrite Hs. by rewrite <- app_assoc.
Qed.

Lemma digit_not_space c : is_digit c = true → is_space c = false.
Proof. destruct c as [[] [] [] [] [] [] [] []]; by vm_compute. Qed.

Lemma strip_render_sets sets :
  sets ≠ [] → strip (render_sets sets) = render_sets sets.
Proof.
  intros Hne.
  destruct (render_sets_head sets Hne) as (c & s & Hs & Hc).
  destruct (render_sets_last sets Hne) as (s' & c' & Hs' & Hc').
  unfold strip. rewrite Hs at 1. simpl. rewrite (digit_not_space c Hc).
  rewrite <- Hs, Hs' at 1. rewrite rev_app_distr. simpl.
  rewrite (digit_not_space c' Hc').
  change (c' :: rev s') with (rev [c'] ++ rev s').
  by rewrite <- rev_app_distr, rev_involutive.
Qed.

Lemma contains_head a p s : contains (a :: p) s = true → a ∈ s.
Proof.
  induction s as [|c s IH]; simpl; [done|].
  destruct (Ascii.eqb_spec a c) as [->|Hne].
  - intros _. by left.
  - simpl. intros Hs. right. by apply IH.
Qed.

Lemma score_char_not_w c : score_char c → lower_char c ≠ "w"%char.
Proof.
  intros [Hd|[->| ->]]; [|done..].
  destruct c as [[] [] [] [] [] [] [] []]; by vm_compute in Hd |- *.
Qed.

Lemma walkover_render_sets sets : walkover (render_sets sets) = false.
Proof.
  assert ("w"%char ∉ lower (render_sets sets)) as Hw.
  { unfold lower. intros Hin. apply list_elem_of_In, in_map_iff in Hin
      as (c & Hc & Hin).
    apply list_elem_of_In in Hin.
    pose proof (render_sets_chars sets) as Hall.
    rewrite Forall_forall in Hall. by apply (score_char_not_w c (Hall c Hin)). }
  unfold walkover. apply orb_false_iff. split.
  - destruct (contains _ _) eqn:Hc; [|done].
    by apply contains_head in Hc.
  - destruct (contains _ _) eqn:Hc; [|done].
    by apply contains_head in Hc.
Qed.

Lemma fold_add_set_snoc ps p t :
  fold_left add_set (ps ++ [p]) t = add_set (fold_left add_set ps t) p.
Proof. by rewrite fold_left_app. Qed.

Lemma tally_of_written_sets sets :
  fold_left add_set (written <$> sets) zeros = tally_of_sets sets.
Proof.
  induction sets as [|p sets IH] using rev_ind; [done|].
  rewrite fmap_app. simpl. rewrite fold_add_set_snoc, IH.
  unfold add_set, written, tally_of_sets. simpl.
  rewrite !int_of_digits_of.
  rewrite !sum_list_with_app, !filter_app, !length_app. simpl.
  rewrite !filter_cons, !filter_nil.
  destruct p as [a b]. simpl.
  f_equal; repeat case_decide; repeat case_match; simpl; try lia.
Qed.

(** X26: a written score is read back exactly.  For every non-empty list
    of sets, the text "a1-b1 a2-b2 ..." decodes to the games of each side
    added up, the number of sets each side took, and the number of sets in
    which a side reached seven games. *)
Theorem parse_score_reads_written_sets sets :
  sets ≠ [] →
  parse_score (Some (score_text sets))
  = {| games_1 := Z.of_nat (sum_list_with fst sets);
       games_2 := Z.of_nat (sum_list_with snd sets);
       sets_1 := Z.of_nat (length (filter (fun p => p.2 < p.1)%nat sets));
       sets_2 := Z.of_nat (length (filter (fun p => p.1 < p.2)%nat sets));
       tie_breaks :=
         Z.of_nat (length (filter (fun p => 7 ≤ p.1 `max` p.2)%nat sets)) |}.
Proof.
  intros Hne. unfold parse_score, score_text.
  rewrite list_ascii_of_string_of_list_ascii.
  rewrite strip_render_sets by done.
  destruct (render_sets_head sets Hne) as (c & s & Hs & _).
  rewrite Hs at 1. rewrite walkover_render_sets.
  by rewrite findall_render_sets, tally_of_written_sets.
Qed.

Lemma add_set_consistent t p :
  consistent t → 0 ≤ int_of_digits (fst p) → 0 ≤ int_of_digits (snd p) →
  consistent (add_set t p).
Proof.
  intros (Hn & H1 & H2 & H3) Hl Hr. split; [by apply add_set_nonneg|].
  unfold add_set. simpl. repeat split; repeat case_match; lia.
Qed.

Lemma fold_add_set_consistent ps t :
  consistent t →
  Forall (fun p => Forall (fun c => is_digit c = true) (fst p)
                   ∧ Forall (fun c => is_digit c = true) (snd p)) ps →
  consistent (fold_left add_set ps t).
Proof.
  revert t. induction ps as [|p ps IH]; intros t Ht Hps; simpl; [done|].
  inversion Hps as [|? ? [Hl Hr] Hps']; subst.
  apply IH; [|done].
  apply add_set_consistent; auto using int_of_digits_nonneg.
Qed.

(** X27: the counts decoded from any value hang together: none is
    negative, no side has more sets than games, and every counted
    tie-break accounts for at least seven games. *)
Theorem parse_score_counts_consistent v :
  let t := parse_score v in
  0 ≤ sets_1 t ≤ games_1 t
  ∧ 0 ≤ sets_2 t ≤ games_2 t
  ∧ 0 ≤ 7 * tie_breaks t ≤ games_1 t + games_2 t.
Proof.
  assert (consistent zeros) as Hz by (unfold consistent, nonneg; simpl; lia).
  assert (consistent (parse_score v)) as (Hn & H1 & H2 & H3).
  { destruct v as [text|]; simpl; [|done].
    destruct (strip (list_ascii_of_string text)) as [|c s]; [done|].
    destruct (walkover (c :: s)); [done|].
    apply fold_add_set_consistent; [done|apply findall_digits]. }
  destruct Hn as (? & ? & ? & ? & ?). simpl. lia.
Qed.
End score_more.

(** ** Loading: the column names and the choice of the file *)

Section loading.
Import Score.

Lemma lower_char_idem c : lower_char (lower_char c) = lower_char c.
Proof. destruct c as [[] [] [] [] [] [] [] []]; by vm_compute. Qed.

Lemma lower_char_space c : is_space (lower_char c) = is_space c.
Proof. destruct c as [[] [] [] [] [] [] [] []]; by vm_compute. Qed.

Lemma tidy_char_idem c : tidy_char (tidy_char c) = tidy_char c.
Proof. destruct c as [[] [] [] [] [] [] [] []]; by vm_compute. Qed.

Lemma tidy_char_space c : is_space c = false → is_space (tidy_char c) = false.
Proof. destruct c as [[] [] [] [] [] [] [] []]; by vm_compute. Qed.

Lemma tidy_char_shape c :
  tidy_char c ≠ " "%char ∧ lower_char (tidy_char c) = tidy_char c.
Proof. destruct c as [[] [] [] [] [] [] [] []]; by vm_compute. Qed.

Lemma replace_blank_lower s : replace_blank (lower s) = map tidy_char s.
Proof. unfold replace_blank, lower. rewrite map_map. done. Qed.

Lemma lstrip_suffix s : ∃ pre, s = pre ++ lstrip s.
Proof.
  induction s as [|c s [pre IH]]; [by exists []|]. simpl.
  destruct (is_space c); [|by exists []].
  exists (c :: pre). simpl. by f_equal.
Qed.

Lemma lstrip_head s :
  match lstrip s with c :: _ => is_space c = false | [] => True end.
Proof.
  induction s as [|c s IH]; simpl; [done|].
  by destruct (is_space c) eqn:Hc.
Qed.

Lemma lstrip_fixed c s : is_space c = false → lstrip (c :: s) = c :: s.
Proof. intros Hc. simpl. by rewrite Hc. Qed.

(** What [strip] leaves is empty or has no white space at either end. *)
Lemma strip_ends s :
  strip s = []
  ∨ ∃ a mid, (strip s = [a] ∨ ∃ b, strip s = a :: mid ++ [b]
                                     ∧ is_space b = false)
             ∧ is_space a = false.
Proof.
  unfold strip. set (t := lstrip s).
  pose proof (lstrip_head s) as Ht. fold t in Ht.
  pose proof (lstrip_head (rev t)) as Hu.
  destruct (lstrip_suffix (rev t)) as [pre Hpre].
  destruct (lstrip (rev t)) as [|b u] eqn:Hu'; [by left|]. right.
  simpl. destruct t as [|a t'] eqn:Ht'; [by destruct pre|].
  assert (rev (rev (a :: t')) = rev (pre ++ b :: u)) as Hrev by by rewrite Hpre.
  rewrite rev_involutive, rev_app_distr in Hrev. simpl in Hrev.
  destruct (rev u) as [|a' u'] eqn:Hru.
  - exists b, []. split; [by left|done].
  - exists a', u'. simpl in Hrev. injection Hrev as <- _.
    split; [|done]. right. exists b. done.
Qed.

Lemma strip_fixed s :
  match s with c :: _ => is_space c = false | [] => True end →
  match rev s with c :: _ => is_space c = false | [] => True end →
  strip s = s.
Proof.
  intros Hhead Hlast. unfold strip.
  destruct s as [|c s]; [done|]. rewrite (lstrip_fixed c s Hhead).
  destruct (rev (c :: s)) as [|d r] eqn:Hr.
  - by rewrite <- (rev_involutive (c :: s)), Hr.
  - rewrite (lstrip_fixed d r Hlast). by rewrite <- Hr, rev_involutive.
Qed.

Lemma normalised_chars c :
  list_ascii_of_string (normalise_column c)
  = map tidy_char (strip (list_ascii_of_string c)).
Proof.
  unfold normalise_column.
  by rewrite list_ascii_of_string_of_list_ascii, replace_blank_lower.
Qed.

Lemma strip_normalised c :
  strip (list_ascii_of_string (normalise_column c))
  = list_ascii_of_string (normalise_column c).
Proof.
  rewrite normalised_chars.
  destruct (strip_ends (list_ascii_of_string c))
    as [->|(a & mid & [->|(b & -> & Hb)] & Ha)]; [done|..].
  - apply strip_fixed; simpl; by apply tidy_char_space.
  - apply strip_fixed; simpl; [by apply tidy_char_space|].
    rewrite map_app, rev_app_distr. simpl. by apply tidy_char_space.
Qed.

(** X28: the column names [load_raw_matches] hands on are in a normal
    form: none has white space at either end, a blank or an upper-case
    letter, and normalising a second time changes nothing - so a header
    written "Player_1", " player_1 " or "PLAYER 1" names the same
    column. *)
Theorem column_names_are_normalised header :
  load_raw_matches (load_raw_matches header) = load_raw_matches header
  ∧ Forall (fun name =>
              strip (list_ascii_of_string name) = list_ascii_of_string name
              ∧ Forall (fun c => c ≠ " "%char ∧ lower_char c = c)
                       (list_ascii_of_string name))
           (load_raw_matches header)
  ∧ load_raw_matches ["Player_1"; " player_1 "; "PLAYER 1"]%string
    = ["player_1"; "player_1"; "player_1"]%string.
Proof.
  assert (∀ c, normalise_column (normalise_column c) = normalise_column c)
    as Hidem.
  { intros c. unfold normalise_column at 1.
    rewrite strip_normalised, normalised_chars, replace_blank_lower.
    rewrite map_map. unfold normalise_column. rewrite replace_blank_lower.
    f_equal. apply map_ext. apply tidy_char_idem. }
  split; [|split; [|by vm_compute]].
  - unfold load_raw_matches. rewrite <- list_fmap_compose.
    apply list_fmap_ext. intros i c _. apply Hidem.
  - unfold load_raw_matches. apply Forall_fmap, Forall_true. intros c. simpl.
    split; [apply strip_normalised|].
    rewrite normalised_chars. apply Forall_forall. intros x Hx.
    apply list_elem_of_In, in_map_iff in Hx as (y & <- & _).
    apply tidy_char_shape.
Qed.

Lemma largest_spec best files :
  largest best files ∈ best :: files
  ∧ Forall (fun g => st_size g ≤ st_size (largest best files)) (best :: files).
Proof.
  revert best. induction files as [|f files IH]; intros best; simpl.
  - split; [by left|]. by repeat constructor.
  - destruct (IH (if st_size best <? st_size f then f else best))
      as [Hin Hall].
    apply Forall_cons in Hall as [Hbest Hall].
    destruct (Z.ltb_spec (st_size best) (st_size f)).
    + split.
      * apply elem_of_cons in Hin as [->|Hin]; [right; by left|].
        right. by right.
      * constructor; [lia|]. by constructor.
    + split.
      * apply elem_of_cons in Hin as [->|Hin]; [by left|].
        right. by right.
      * constructor; [done|]. constructor; [lia|done].
Qed.

Lemma find_in_preferred (preferred : list CsvFile) :
  preferred ≠ [] →
  ∃ f, match preferred with
       | [] => inl EmptyMaxError
       | f :: rest => inr (largest f rest)
       end = inr f
       ∧ f ∈ preferred
       ∧ Forall (fun g => st_size g ≤ st_size f) preferred.
Proof.
  destruct preferred as [|f rest]; [done|]. intros _.
  exists (largest f rest). split; [done|]. apply largest_spec.
Qed.

(** X29: which file [find_matches_csv] picks.  It fails exactly when no
    CSV file was found, and then with [FileNotFoundError]: [max] is never
    called on an empty list.  Otherwise it returns one of the files found:
    when some are named like "wta*.csv", the largest of those - a larger
    file of another name never wins; failing that, the largest of those
    with "match" in the name; failing that, the largest file. *)
Theorem find_matches_csv_choice candidates :
  (find_matches_csv candidates = inl FileNotFoundError ↔ candidates = [])
  ∧ find_matches_csv candidates ≠ inl EmptyMaxError
  ∧ (∀ f, find_matches_csv candidates = inr f →
       f ∈ candidates
       ∧ (∀ g, g ∈ candidates → wta_csv (file_name g) = true →
            wta_csv (file_name f) = true ∧ st_size g ≤ st_size f)
       ∧ ((∀ g, g ∈ candidates → wta_csv (file_name g) = false) →
          ∀ g, g ∈ candidates → match_named (file_name g) = true →
            match_named (file_name f) = true ∧ st_size g ≤ st_size f)
       ∧ ((∀ g, g ∈ candidates →
             wta_csv (file_name g) = false
             ∧ match_named (file_name g) = false) →
          ∀ g, g ∈ candidates → st_size g ≤ st_size f)).
Proof.
  destruct candidates as [|c0 cs].
  { split; [done|]. split; [done|]. intros f Hf. discriminate Hf. }
  set (candidates := c0 :: cs).
  set (wta := filter (fun p => wta_csv (file_name p) = true) candidates).
  set (named :=
         filter (fun p => match_named (file_name p) = true) candidates).
  assert (find_matches_csv candidates
          = match or_else wta (or_else named candidates) with
            | [] => inl EmptyMaxError
            | f :: rest => inr (largest f rest)
            end) as Hfind by done.
  assert (or_else wta (or_else named candidates) ≠ []) as Hne.
  { unfold or_else. destruct wta; [|done]. by destruct named. }
  destruct (find_in_preferred _ Hne) as (f & Hf & Hin & Hmax).
  rewrite <- Hfind in Hf. split; [|split].
  - split; [|done]. intros Habs. by rewrite Hf in Habs.
  - by rewrite Hf.
  - intros f' Hf'. rewrite Hf in Hf'. injection Hf' as <-.
    rewrite Forall_forall in Hmax.
    assert (∀ g, g ∈ wta ↔ g ∈ candidates ∧ wta_csv (file_name g) = true)
      as Hwta.
    { intros g. unfold wta. rewrite list_elem_of_filter. tauto. }
    assert (∀ g, g ∈ named
                 ↔ g ∈ candidates ∧ match_named (file_name g) = true)
      as Hnamed.
    { intros g. unfold named. rewrite list_elem_of_filter. tauto. }
    split; [|split; [|split]].
    + unfold or_else in Hin. destruct wta eqn:Hw.
      * destruct named eqn:Hn; [done|]. by apply Hnamed in Hin as [? _].
      * by apply Hwta in Hin as [? _].
    + intros g Hg Hgw.
      assert (g ∈ wta) as Hgin by by apply Hwta.
      unfold or_else in Hin, Hmax. destruct wta eqn:Hw;
        [by apply not_elem_of_nil in Hgin|].
      split; [by apply Hwta in Hin as [_ ?]|by apply Hmax].
    + intros Hnone g Hg Hgm.
      assert (wta = []) as Hw.
      { apply filter_none, Forall_forall. intros x Hx.
        by rewrite (Hnone x Hx). }
      assert (g ∈ named) as Hgin by by apply Hnamed.
      unfold or_else in Hin, Hmax. rewrite Hw in Hin, Hmax.
      destruct named eqn:Hn; [by apply not_elem_of_nil in Hgin|].
      split; [by apply Hnamed in Hin as [_ ?]|by apply Hmax].
    + intros Hnone g Hg.
      assert (wta = []) as Hw.
      { apply filter_none, Forall_forall. intros x Hx.
        by rewrite (proj1 (Hnone x Hx)). }
      assert (named = []) as Hn.
      { apply filter_none, Forall_forall. intros x Hx.
        by rewrite (proj2 (Hnone x Hx)). }
      unfold or_else in Hmax. rewrite Hw, Hn in Hmax. by apply Hmax.
Qed.
End loading.

(** ** Records whose winner is neither player *)

Section stray_winner.
Implicit Types (m : Match) (df : list Match).

Lemma expand_long_lookup df i m :
  df !! i = Some m →
  expand_long df !! i = Some (first_row i m)
  ∧ expand_long df !! (length df + i)%nat = Some (second_row i m).
Proof.
  intros Hm. unfold expand_long. split.
  - rewrite lookup_app_l.
    + by rewrite list_lookup_imap, Hm.
    + rewrite length_imap. by eapply lookup_lt_Some.
  - rewrite lookup_app_r by (rewrite length_imap; lia).
    rewrite length_imap.
    replace (length df + i - length df)%nat with i by lia.
    by rewrite list_lookup_imap, Hm.
Qed.

Lemma later_histories_hold_entry df i j m side :
  df !! i = Some m → (i < j)%nat →
  long_row side i m ∈ player_entries (take j df) (player_of side m).
Proof.
  intros Hm Hij. unfold player_entries. apply elem_of_entries_from.
  exists side, i, m. split; [|split].
  - by rewrite lookup_take_lt.
  - done.
  - by destruct side.
Qed.

(** C10: a record whose winner is neither of its players is handled as a win
    of [player_2].  In the rating engine the outcome is 0: whatever the
    state, the rating of [player_2] rises by [elo_k] times the expectation
    of [player_1] (more than nothing, less than [elo_k]) and, when the two
    players differ, the rating of [player_1] falls by the same product; the
    surface ratings move likewise with [surface_elo_k].  The head-to-head
    tracker adds one to the wins of [player_2] over [player_1] and records
    [player_2] as the last winner.  These are the states the run holds
    after the record.  The row of the record is labelled 0.  The long frame
    holds one row for each side of the record, both with [won] = 0, and
    both rows are in the histories that every later match of the two
    players reads. *)
Theorem unknown_winner_counts_for_player_2 cfg df i m :
  chronological df → df !! i = Some m →
  winner m ≠ Some (player_1 m) → winner m ≠ Some (player_2 m) →
  (0 < elo_k cfg)%R → (0 < surface_elo_k cfg)%R →
  (∀ st,
     let snap := snd (Elo.step cfg st m) in
     let after := fst (Elo.step cfg st m) in
     let e := Elo.expected_score (Elo.elo_p1 snap) (Elo.elo_p2 snap) in
     let es :=
       Elo.expected_score (Elo.surface_elo_p1 snap) (Elo.surface_elo_p2 snap) in
     Elo.outcome m = 0%R
     ∧ Elo.rating_of (Elo.ratings after) (player_2 m)
       = (Elo.elo_p2 snap + elo_k cfg * e)%R
     ∧ (Elo.elo_p2 snap < Elo.rating_of (Elo.ratings after) (player_2 m)
        < Elo.elo_p2 snap + elo_k cfg)%R
     ∧ Elo.rating_of (Elo.surface_ratings after) (player_2 m, surface m)
       = (Elo.surface_elo_p2 snap + surface_elo_k cfg * es)%R
     ∧ (Elo.surface_elo_p2 snap
        < Elo.rating_of (Elo.surface_ratings after) (player_2 m, surface m)
        < Elo.surface_elo_p2 snap + surface_elo_k cfg)%R
     ∧ (player_1 m ≠ player_2 m →
        Elo.rating_of (Elo.ratings after) (player_1 m)
        = (Elo.elo_p1 snap - elo_k cfg * e)%R
        ∧ (Elo.rating_of (Elo.ratings after) (player_1 m)
           < Elo.elo_p1 snap)%R
        ∧ Elo.rating_of (Elo.surface_ratings after) (player_1 m, surface m)
          = (Elo.surface_elo_p1 snap - surface_elo_k cfg * es)%R
        ∧ (Elo.rating_of (Elo.surface_ratings after) (player_1 m, surface m)
           < Elo.surface_elo_p1 snap)%R))
  ∧ (∀ st,
       H2H.wins_of (H2H.record st m) (player_2 m, player_1 m)
       = H2H.wins_of st (player_2 m, player_1 m) + 1
       ∧ H2H.last_meeting_direction (H2H.record st m) (player_2 m) (player_1 m)
         = 1
       ∧ (player_1 m ≠ player_2 m →
          H2H.wins_of (H2H.record st m) (player_1 m, player_2 m)
          = H2H.wins_of st (player_1 m, player_2 m)
          ∧ H2H.last_meeting_direction (H2H.record st m)
              (player_1 m) (player_2 m) = -1))
  ∧ Elo.state_after cfg Elo.init (take (S i) df)
    = fst (Elo.step cfg (Elo.state_after cfg Elo.init (take i df)) m)
  ∧ H2H.state_after H2H.init (take (S i) df)
    = H2H.record (H2H.state_after H2H.init (take i df)) m
  ∧ (∃ w, engine cfg df !! i = Some w ∧ wide_match w = m
          ∧ out_y (out_row w) = 0)
  ∧ expand_long df !! i = Some (first_row i m)
  ∧ expand_long df !! (length df + i)%nat = Some (second_row i m)
  ∧ Long.won (first_row i m) = 0
  ∧ Long.won (second_row i m) = 0
  ∧ (∀ j, (i < j)%nat →
       first_row i m ∈ player_entries (take j df) (player_1 m)
       ∧ second_row i m ∈ player_entries (take j df) (player_2 m)).
Proof.
  intros Hc Hm H1 H2 Hk Hks.
  pose proof (winner_is_false m _ H1) as Hw1.
  pose proof (winner_is_false m _ H2) as Hw2.
  assert (Elo.outcome m = 0%R) as Hout by (by unfold Elo.outcome; rewrite Hw1).
  assert (label m = 0) as Hlabel by (by unfold label; rewrite Hw1).
  split; [|split; [|split; [|split; [|split; [|split; [|split;
    [|split; [|split]]]]]]]].
  - intros st snap after e es.
    pose proof (expected_score_bounds (Elo.elo_p1 snap) (Elo.elo_p2 snap))
      as He.
    pose proof (expected_score_bounds (Elo.surface_elo_p1 snap)
                  (Elo.surface_elo_p2 snap)) as Hes.
    fold e in He. fold es in Hes.
    assert (Elo.rating_of (Elo.ratings after) (player_2 m)
            = (Elo.elo_p2 snap + elo_k cfg * e)%R) as Hr2.
    { unfold after, Elo.step, Elo.apply_result, Elo.rating_of. simpl.
      rewrite lookup_insert_eq. simpl. rewrite Hout.
      unfold Elo.gain_2, e, snap, Elo.step. simpl. unfold Elo.rating_of. lra. }
    assert (Elo.rating_of (Elo.surface_ratings after) (player_2 m, surface m)
            = (Elo.surface_elo_p2 snap + surface_elo_k cfg * es)%R) as Hs2.
    { unfold after, Elo.step, Elo.apply_result, Elo.rating_of. simpl.
      rewrite lookup_insert_eq. simpl. rewrite Hout.
      unfold Elo.gain_2, es, snap, Elo.step. simpl. unfold Elo.rating_of.
      lra. }
    split; [done|]. split; [done|]. split; [rewrite Hr2; nra|].
    split; [done|]. split; [rewrite Hs2; nra|].
    intros Hne.
    assert (Elo.rating_of (Elo.ratings after) (player_1 m)
            = (Elo.elo_p1 snap - elo_k cfg * e)%R) as Hr1.
    { unfold after, Elo.step, Elo.apply_result, Elo.rating_of. simpl.
      rewrite lookup_insert_ne by done. rewrite lookup_insert_eq. simpl.
      rewrite Hout.
      unfold Elo.gain_1, e, snap, Elo.step. simpl. unfold Elo.rating_of. lra. }
    assert (Elo.rating_of (Elo.surface_ratings after) (player_1 m, surface m)
            = (Elo.surface_elo_p1 snap - surface_elo_k cfg * es)%R) as Hs1.
    { unfold after, Elo.step, Elo.apply_result, Elo.rating_of. simpl.
      rewrite lookup_insert_ne by congruence. rewrite lookup_insert_eq. simpl.
      rewrite Hout.
      unfold Elo.gain_1, es, snap, Elo.step. simpl. unfold Elo.rating_of.
      lra. }
    split; [done|]. split; [rewrite Hr1; nra|].
    split; [done|]. rewrite Hs1; nra.
  - intros st. unfold H2H.record. rewrite Hw1.
    unfold H2H.wins_of, H2H.last_meeting_direction. simpl.
    rewrite !lookup_insert_eq. simpl. split; [done|]. split; [done|].
    intros Hne.
    rewrite !lookup_insert_ne by congruence.
    by rewrite lookup_insert_eq.
  - rewrite (take_S_r df i m Hm). apply state_after_snoc.
  - rewrite (take_S_r df i m Hm). apply h2h_state_after_snoc.
  - eexists. split; [by apply engine_lookup|]. split; [done|]. simpl. done.
  - by apply expand_long_lookup.
  - by apply expand_long_lookup.
  - simpl. by rewrite Hw1.
  - simpl. by rewrite Hw2.
  - intros j Hij. split.
    + by apply (later_histories_hold_entry df i j m true).
    + by apply (later_histories_hold_entry df i j m false).
Qed.

Lemma unknown_winner_counts_for_player_2_witness :
  chronological [stray_winner_match]
  ∧ winner stray_winner_match ≠ Some (player_1 stray_winner_match)
  ∧ winner stray_winner_match ≠ Some (player_2 stray_winner_match)
  ∧ (0 < elo_k default_config)%R
  ∧ (0 < surface_elo_k default_config)%R
  ∧ (Elo.elo_p2 (Elo.step default_config Elo.init stray_winner_match).2
     < Elo.rating_of
         (Elo.ratings (Elo.step default_config Elo.init stray_winner_match).1)
         (player_2 stray_winner_match))%R
  ∧ H2H.wins_of (H2H.record H2H.init stray_winner_match)
      (player_2 stray_winner_match, player_1 stray_winner_match)
    = H2H.wins_of H2H.init
        (player_2 stray_winner_match, player_1 stray_winner_match) + 1
  ∧ Long.won (second_row 0 stray_winner_match) = 0.
Proof.
  assert (chronological [stray_winner_match]) as Hc by repeat constructor.
  assert (winner stray_winner_match ≠ Some (player_1 stray_winner_match))
    as H1 by (simpl; discriminate).
  assert (winner stray_winner_match ≠ Some (player_2 stray_winner_match))
    as H2 by (simpl; discriminate).
  assert (0 < elo_k default_config)%R as Hk by (simpl; lra).
  assert (0 < surface_elo_k default_config)%R as Hks by (simpl; lra).
  split; [exact Hc|]. split; [exact H1|]. split; [exact H2|].
  split; [exact Hk|]. split; [exact Hks|].
  destruct (unknown_winner_counts_for_player_2 default_config
              [stray_winner_match] 0 stray_winner_match Hc eq_refl H1 H2 Hk Hks)
    as (Helo & Hh2h & _ & _ & _ & _ & _ & _ & Hwon & _).
  split; [exact (proj1 (proj1 (proj2 (proj2 (Helo Elo.init)))))|].
  split; [exact (proj1 (Hh2h H2H.init))|exact Hwon].
Defined.
End stray_winner.

(** ** The pipeline on tables without two rows of the same date *)

Section pipeline_more.
Implicit Types (m : Match) (rs : list Match).

Lemma full_columns_required :
  Forall (fun c => c ∈ rename_column <$> full_columns) required_columns.
Proof. refine (bool_decide_unpack _ _). by vm_compute. Qed.

Lemma full_columns_long :
  Forall (fun c => c ∈ rename_column <$> full_columns) long_columns.
Proof. refine (bool_decide_unpack _ _). by vm_compute. Qed.

(** With every column on the table, at least one row passing the filters
    and the default windows, [preprocess] returns the rows [dropna]
    keeps. *)
Lemma preprocess_full_columns sort_values df :
  columns df = full_columns → retained default_config (rows df) ≠ [] →
  preprocess sort_values df default_config
  = ([RatingState; HeadToHeadState; HistoryState],
     inr (select_output
            (engine default_config
               (processing_order sort_values default_config df)))).
Proof.
  intros Hcols Hrows. apply preprocess_runs; rewrite ?Hcols.
  - apply missing_from_nil, full_columns_required.
  - refine (bool_decide_unpack _ _). by vm_compute.
  - done.
  - apply missing_from_nil, full_columns_long.
  - simpl. lia.
Qed.

Lemma clean_raw_of m : clean (raw_of m) = Some m.
Proof. by destruct m. Qed.

Lemma omap_clean_raw_of rs : omap clean (raw_of <$> rs) = rs.
Proof.
  induction rs as [|m rs IH]; [done|].
  rewrite fmap_cons.
  change (omap clean (raw_of m :: (raw_of <$> rs)))
    with (match clean (raw_of m) with
          | Some y => y :: omap clean (raw_of <$> rs)
          | None => omap clean (raw_of <$> rs)
          end).
  by rewrite clean_raw_of, IH.
Qed.

Lemma retained_table_of cfg rs :
  Forall (fun m => min_year cfg ≤ year (date m)) rs →
  retained cfg (rows (table_of rs)) = rs.
Proof.
  intros Hyears. unfold retained, table_of. simpl.
  rewrite omap_clean_raw_of. by apply filter_all.
Qed.



Lemma strictly_chronological_chronological rs :
  strictly_chronological rs → chronological rs.
Proof.
  intros Hs. apply StronglySorted_Sorted.
  induction Hs as [|x rs Hs IH Hx]; constructor; [done|].
  eapply Forall_impl; [exact Hx|]. unfold date_lt, date_le. intros; lia.
Qed.


(** No two rows of such a frame share a date. *)
Lemma strictly_chronological_lookup rs j i a b :
  strictly_chronological rs → rs !! j = Some a → rs !! i = Some b →
  toordinal (date a) = toordinal (date b) → j = i.
Proof.
  intros Hs Ha Hb Hd.
  destruct (Nat.lt_trichotomy j i) as [Hlt|[Heq|Hgt]]; [|done|].
  - pose proof (strongly_sorted_lookup date_lt rs j i a b Hs Ha Hb Hlt) as H.
    unfold date_lt in H. lia.
  - pose proof (strongly_sorted_lookup date_lt rs i j b a Hs Hb Ha Hgt) as H.
    unfold date_lt in H. lia.
Qed.

(** Sorting by date has one result on such a frame, the frame itself:
    every sort that returns the same rows in date order returns them as
    they came. *)
Lemma sort_keeps_strict_order sort_values rs :
  sorts_by_date sort_values → strictly_chronological rs →
  sort_values rs = rs.
Proof.
  intros Hsort Hs. destruct (Hsort rs) as [Hperm Hc].
  apply (Sorted_unique_strong date_le); [|done| |done].
  - intros x1 x2 Hx1 Hx2 H12 H21. rewrite Hperm in Hx1.
    apply list_elem_of_lookup in Hx1 as [j Hj].
    apply list_elem_of_lookup in Hx2 as [i Hi].
    assert (j = i) as ->.
    { eapply strictly_chronological_lookup; [done..|].
      unfold date_le in *. lia. }
    congruence.
  - by apply strictly_chronological_chronological.
Qed.




(** What [preprocess] returns for a table of complete records without two
    rows of the same date, under the default configuration. *)
Lemma preprocess_table_of sort_values rs :
  sorts_by_date sort_values → strictly_chronological rs → rs ≠ [] →
  Forall (fun m => min_year default_config ≤ year (date m)) rs →
  preprocess sort_values (table_of rs) default_config
  = ([RatingState; HeadToHeadState; HistoryState],
     inr (select_output (engine default_config rs))).
Proof.
  intros Hsort Hs Hne Hyears.
  rewrite preprocess_full_columns;
    [|done|by rewrite retained_table_of].
  unfold processing_order. rewrite retained_table_of by done.
  by rewrite sort_keeps_strict_order.
Qed.

End pipeline_more.

Section named_twice.



End named_twice.
(** ** A record that names one player on both sides *)

Section named_twice_window.

(** X31: the history of a player named on both sides of a record.  The two
    long rows of such a record belong to the same player, and the second
    stands below the first in her history.  On a date-ordered frame the
    statistics written for [player_1] are computed from her entries in the
    earlier matches, and those written for [player_2] from the same entries
    followed by the first row of the record itself: her rest days are 0,
    and with exactly two earlier entries the form of [player_1] is missing
    while the form of [player_2] is the mean of three outcomes, the third
    being the result written on the record. *)
Theorem twice_named_player_window cfg df i m :
  chronological df → df !! i = Some m → player_1 m = player_2 m →
  (3 ≤ rolling_matches cfg)%nat →
  let earlier := player_entries (take i df) (player_1 m) in
  ∃ st1 st2,
    side_stats true <$> engine cfg df !! i = Some (Some st1)
    ∧ side_stats false <$> engine cfg df !! i = Some (Some st2)
    ∧ st1 = stats_from cfg (first_row i m) earlier
    ∧ st2 = stats_from cfg (second_row i m) (earlier ++ [first_row i m])
    ∧ Long.rest_days st2 = 0
    ∧ (length earlier = 2%nat →
       Long.form_win_rate st1 = None
       ∧ Long.form_win_rate st2
         = Some (mean (outcomes earlier
                       ++ [IZR (Long.won (first_row i m))]))).
Proof.
  intros Hc Hm Heq Hw earlier.
  assert (entries_before df i true = earlier) as Hbefore1.
  { unfold entries_before. by rewrite Hm. }
  assert (entries_before df i false = earlier ++ [first_row i m]) as Hbefore2.
  { unfold entries_before. rewrite Hm, <- Heq. by rewrite decide_True. }
  eexists _, _.
  split; [by apply (engine_side_stats cfg df i m true)|].
  split; [by apply (engine_side_stats cfg df i m false)|].
  rewrite Hbefore1, Hbefore2.
  split; [done|]. split; [done|]. split.
  - unfold stats_from. simpl. rewrite last_snoc. simpl.
    rewrite Z.sub_diag. done.
  - intros Hlen. unfold stats_from. simpl.
    rewrite !trailing_mean_outcomes by done.
    unfold outcomes at 1 3 4. rewrite fmap_app, !length_app, !length_fmap.
    rewrite Hlen. simpl. split; [done|].
    f_equal. f_equal. apply last_n_all.
    rewrite length_app. unfold outcomes. rewrite length_fmap, Hlen.
    simpl. lia.
Qed.
End named_twice_window.

(** ** The update in binary64 *)

Section binary64_facts.
Import PrimFloat.
Local Open Scope float_scope.


End binary64_facts.

(** ** Instances of the further properties on sample data *)

Lemma rematch_frame_chronological : chronological rematch_frame.
Proof. unfold rematch_frame. repeat constructor; by vm_compute. Qed.

Lemma winner_gains_loser_loses_witness :
  (0 < elo_k default_config)%R
  ∧ (0 < surface_elo_k default_config)%R
  ∧ player_1 match_2016 ≠ player_2 match_2016
  ∧ winner match_2016 = Some (player_1 match_2016)
  ∧ (0 < Elo.rating_of
           (Elo.ratings (Elo.step default_config state_2015 match_2016).1)
           (player_1 match_2016)
         - Elo.elo_p1 (Elo.step default_config state_2015 match_2016).2
     < elo_k default_config)%R.
Proof.
  assert (0 < elo_k default_config)%R as Hk by (simpl; lra).
  assert (0 < surface_elo_k default_config)%R as Hks by (simpl; lra).
  assert (player_1 match_2016 ≠ player_2 match_2016) as Hne by (by simpl).
  split; [exact Hk|]. split; [exact Hks|]. split; [exact Hne|].
  split; [reflexivity|].
  exact (proj1 (proj1 (winner_gains_loser_loses default_config state_2015
                         match_2016 Hk Hks Hne) eq_refl)).
Defined.

Lemma twice_named_player_rating_witness :
  player_1 twice_named_match = player_2 twice_named_match
  ∧ winner twice_named_match = Some (player_1 twice_named_match)
  ∧ Elo.rating_of
      (Elo.ratings (Elo.step default_config state_2015 twice_named_match).1)
      (player_1 twice_named_match)
    = (Elo.elo_p1 (Elo.step default_config state_2015 twice_named_match).2
       - elo_k default_config / 2)%R.
Proof.
  split; [reflexivity|]. split; [reflexivity|].
  exact (proj1 (proj2 (twice_named_player_rating default_config state_2015
                         twice_named_match eq_refl)) eq_refl).
Defined.

Lemma newcomer_is_rated_1500_witness :
  trend_frame !! 2%nat
  = Some (sample_match "A" "C" "C" (mkDate 2015 3 1) "6-7 1-6" 40 60)
  ∧ Forall (fun e => ¬ plays "C" e) (take 2 trend_frame)
  ∧ ∃ snap,
      Elo.compute_elo default_config trend_frame !! 2%nat = Some snap
      ∧ Elo.elo_p2 snap = 1500%R.
Proof.
  assert (Forall (fun e => ¬ plays "C" e) (take 2 trend_frame)) as Hnew.
  { refine (bool_decide_unpack _ _). by vm_compute. }
  split; [reflexivity|]. split; [exact Hnew|].
  destruct (newcomer_is_rated_1500 default_config trend_frame 2
              (sample_match "A" "C" "C" (mkDate 2015 3 1) "6-7 1-6" 40 60)
              eq_refl)
    as (snap & Hsnap & _ & H2 & _).
  exists snap. split; [exact Hsnap|]. exact (H2 Hnew).
Defined.

Lemma idle_player_keeps_rating_witness :
  Elo.last_year state_2015 = Some 2015
  ∧ Forall (fun e => year (date e) = 2015)
      [sample_match "B" "C" "B" (mkDate 2015 6 1) "6-3 6-3" 30 31]
  ∧ Forall (fun e => ¬ plays "A" e)
      [sample_match "B" "C" "B" (mkDate 2015 6 1) "6-3 6-3" 30 31]
  ∧ Elo.rating_of
      (Elo.ratings
         (Elo.state_after default_config state_2015
            [sample_match "B" "C" "B" (mkDate 2015 6 1) "6-3 6-3" 30 31]))
      "A"
    = Elo.rating_of (Elo.ratings state_2015) "A".
Proof.
  assert (Forall (fun e => year (date e) = 2015)
            [sample_match "B" "C" "B" (mkDate 2015 6 1) "6-3 6-3" 30 31])
    as Hyear by (by repeat constructor).
  assert (Forall (fun e => ¬ plays "A" e)
            [sample_match "B" "C" "B" (mkDate 2015 6 1) "6-3 6-3" 30 31])
    as Hidle.
  { refine (bool_decide_unpack _ _). by vm_compute. }
  split; [reflexivity|]. split; [exact Hyear|]. split; [exact Hidle|].
  exact (proj1 (idle_player_keeps_rating default_config state_2015 _ "A" 2015
                  eq_refl Hyear) Hidle).
Defined.

Lemma first_match_of_two_newcomers_witness :
  player_1 (sample_match "A" "C" "C" (mkDate 2015 3 1) "6-7 1-6" 40 60)
  ≠ player_2 (sample_match "A" "C" "C" (mkDate 2015 3 1) "6-7 1-6" 40 60)
  ∧ Forall (fun e => ¬ plays "A" e)
      [sample_match "B" "D" "B" (mkDate 2015 1 5) "6-4 6-2" 10 50]
  ∧ Forall (fun e => ¬ plays "C" e)
      [sample_match "B" "D" "B" (mkDate 2015 1 5) "6-4 6-2" 10 50]
  ∧ Elo.rating_of
      (Elo.ratings
         (Elo.state_after default_config Elo.init
            ([sample_match "B" "D" "B" (mkDate 2015 1 5) "6-4 6-2" 10 50]
             ++ [sample_match "A" "C" "C" (mkDate 2015 3 1) "6-7 1-6" 40 60])))
      "C"
    = (1500 + elo_k default_config / 2)%R.
Proof.
  assert (player_1 (sample_match "A" "C" "C" (mkDate 2015 3 1) "6-7 1-6" 40 60)
          ≠ player_2 (sample_match "A" "C" "C" (mkDate 2015 3 1)
                        "6-7 1-6" 40 60)) as Hne by (by simpl).
  assert (Forall (fun e => ¬ plays "A" e)
            [sample_match "B" "D" "B" (mkDate 2015 1 5) "6-4 6-2" 10 50])
    as H1.
  { refine (bool_decide_unpack _ _). by vm_compute. }
  assert (Forall (fun e => ¬ plays "C" e)
            [sample_match "B" "D" "B" (mkDate 2015 1 5) "6-4 6-2" 10 50])
    as H2.
  { refine (bool_decide_unpack _ _). by vm_compute. }
  split; [exact Hne|]. split; [exact H1|]. split; [exact H2|].
  refine (proj2 (proj2 (first_match_of_two_newcomers default_config
                          [sample_match "B" "D" "B" (mkDate 2015 1 5)
                             "6-4 6-2" 10 50]
                          (sample_match "A" "C" "C" (mkDate 2015 3 1)
                             "6-7 1-6" 40 60) Hne H1 H2) _)).
  simpl. discriminate.
Defined.

Lemma decay_contracts_toward_1500_witness :
  (0 < elo_decay default_config)%R
  ∧ Elo.last_year state_2015 = Some 2015
  ∧ 2015 < 2016
  ∧ Elo.ratings state_2015 !! "A"%string = Some 1600%R
  ∧ ∃ new,
      Elo.ratings (Elo.apply_decay default_config state_2015 2016)
        !! "A"%string = Some new
      ∧ (1500 < new < 1600)%R.
Proof.
  assert (0 < elo_decay default_config)%R as Hd by (simpl; lra).
  assert (2015 < 2016) as Hlt by lia.
  assert (Elo.ratings state_2015 !! "A"%string = Some 1600%R) as Hp
    by apply lookup_singleton_eq.
  split; [exact Hd|]. split; [reflexivity|]. split; [exact Hlt|].
  split; [exact Hp|].
  destruct (decay_contracts_toward_1500 default_config state_2015 2016 2015
              "A" 1600 Hd eq_refl Hlt Hp) as (new & Hnew & Habove & _).
  exists new. split; [exact Hnew|]. apply Habove. lra.
Defined.

Lemma decay_composes_over_years_witness :
  Elo.last_year state_2015 = Some 2015 ∧ 2015 < 2016 ∧ 2016 < 2018
  ∧ Elo.rating_of
      (Elo.ratings
         (Elo.apply_decay default_config
            (Elo.apply_decay default_config state_2015 2016) 2018)) "A"
    = Elo.rating_of
        (Elo.ratings (Elo.apply_decay default_config state_2015 2018)) "A".
Proof.
  assert (2015 < 2016) as H1 by lia.
  assert (2016 < 2018) as H2 by lia.
  split; [reflexivity|]. split; [exact H1|]. split; [exact H2|].
  exact (proj1 (decay_composes_over_years default_config state_2015 2015 2016
                  2018 "A" eq_refl H1 H2)).
Defined.

Lemma h2h_counts_every_meeting_witness :
  player_1 (sample_match "A" "B" "A" (mkDate 2015 3 20) "6-0 6-0" 45 70)
  ≠ player_2 (sample_match "A" "B" "A" (mkDate 2015 3 20) "6-0 6-0" 45 70)
  ∧ booked_to "A" "B" (take 3 rematch_frame)
    + booked_to "B" "A" (take 3 rematch_frame)
    = Z.of_nat (length (meetings "A" "B" (take 3 rematch_frame))).
Proof.
  assert (player_1 (sample_match "A" "B" "A" (mkDate 2015 3 20) "6-0 6-0" 45 70)
          ≠ player_2 (sample_match "A" "B" "A" (mkDate 2015 3 20)
                        "6-0 6-0" 45 70)) as Hne by (by simpl).
  split; [exact Hne|].
  exact (proj1 (proj2 (proj2
           (h2h_counts_every_meeting (take 3 rematch_frame)
              (sample_match "A" "B" "A" (mkDate 2015 3 20) "6-0 6-0" 45 70)
              [] Hne)))).
Defined.

Lemma last_winner_indicator_from_last_meeting_witness :
  player_1 (sample_match "A" "B" "A" (mkDate 2015 3 20) "6-0 6-0" 45 70)
  ≠ player_2 (sample_match "A" "B" "A" (mkDate 2015 3 20) "6-0 6-0" 45 70)
  ∧ snd <$> H2H.compute_head_to_head rematch_frame !! 3%nat = Some (-1).
Proof.
  assert (player_1 (sample_match "A" "B" "A" (mkDate 2015 3 20) "6-0 6-0" 45 70)
          ≠ player_2 (sample_match "A" "B" "A" (mkDate 2015 3 20)
                        "6-0 6-0" 45 70)) as Hne by (by simpl).
  split; [exact Hne|].
  destruct (last_winner_indicator_from_last_meeting (take 3 rematch_frame)
              (sample_match "A" "B" "A" (mkDate 2015 3 20) "6-0 6-0" 45 70)
              [] Hne) as (_ & _ & Hlast).
  destruct (Hlast (take 2 rematch_frame)
              (sample_match "A" "B" "B" (mkDate 2015 3 1) "6-7 1-6" 40 60)
              eq_refl) as (_ & _ & _ & Hlost).
  exact (Hlost eq_refl).
Defined.

Lemma h2h_columns_antisymmetric_witness :
  "A"%string ≠ "B"%string
  ∧ H2H.last_meeting_direction (H2H.state_after H2H.init rematch_frame) "B" "A"
    = - H2H.last_meeting_direction
          (H2H.state_after H2H.init rematch_frame) "A" "B".
Proof.
  assert ("A"%string ≠ "B"%string) as Hne by discriminate.
  split; [exact Hne|].
  exact (proj2 (h2h_columns_antisymmetric rematch_frame "A" "B" Hne)).
Defined.

Lemma rest_days_since_previous_entry_witness :
  chronological rematch_frame
  ∧ rematch_frame !! 3%nat
    = Some (sample_match "A" "B" "A" (mkDate 2015 3 20) "6-0 6-0" 45 70)
  ∧ ∃ st,
      side_stats true <$> engine default_config rematch_frame !! 3%nat
      = Some (Some st)
      ∧ Long.rest_days st = 19.
Proof.
  split; [exact rematch_frame_chronological|]. split; [reflexivity|].
  destruct (rest_days_since_previous_entry default_config rematch_frame 3
              (sample_match "A" "B" "A" (mkDate 2015 3 20) "6-0 6-0" 45 70)
              true rematch_frame_chronological eq_refl)
    as (st & Hst & _ & _ & Hprev & _).
  exists st. split; [exact Hst|].
  destruct (Hprev (take 2 (entries_before rematch_frame 3 true))
              (first_row 2
                 (sample_match "A" "B" "B" (mkDate 2015 3 1) "6-7 1-6" 40 60))
              eq_refl) as [_ Hrest].
  exact Hrest.
Defined.

Lemma trailing_margins_of_prior_entries_witness :
  chronological rematch_frame
  ∧ rematch_frame !! 3%nat
    = Some (sample_match "A" "B" "A" (mkDate 2015 3 20) "6-0 6-0" 45 70)
  ∧ (3 ≤ rolling_matches default_config)%nat
  ∧ ∃ st,
      side_stats true <$> engine default_config rematch_frame !! 3%nat
      = Some (Some st)
      ∧ Long.games_delta_avg st = Some (mean [6; 7; -6])%R.
Proof.
  assert (3 ≤ rolling_matches default_config)%nat as Hw by (simpl; lia).
  split; [exact rematch_frame_chronological|]. split; [reflexivity|].
  split; [exact Hw|].
  destruct (trailing_margins_of_prior_entries default_config rematch_frame 3
              (sample_match "A" "B" "A" (mkDate 2015 3 20) "6-0 6-0" 45 70)
              true rematch_frame_chronological eq_refl Hw)
    as (st & Hst & Hgames & _).
  exists st. split; [exact Hst|]. exact Hgames.
Defined.

Lemma rolled_columns_in_range_witness :
  chronological rematch_frame
  ∧ ∃ w,
      engine default_config rematch_frame !! 3%nat = Some w
      ∧ ∀ x, form_diff (features w) = Some x → (-1 <= x <= 1)%R.
Proof.
  split; [exact rematch_frame_chronological|].
  eexists. split.
  - exact (engine_lookup default_config rematch_frame 3 _
             rematch_frame_chronological eq_refl).
  - exact (proj1 (proj2
             (rolled_columns_in_range default_config rematch_frame 3 _
                rematch_frame_chronological
                (engine_lookup default_config rematch_frame 3 _
                   rematch_frame_chronological eq_refl)))).
Defined.

Lemma kept_rows_have_history_witness :
  chronological rematch_frame
  ∧ rematch_frame !! 3%nat
    = Some (sample_match "A" "B" "A" (mkDate 2015 3 20) "6-0 6-0" 45 70)
  ∧ ∃ w,
      engine default_config rematch_frame !! 3%nat = Some w
      ∧ complete (features w) = true
      ∧ (3 ≤ length (entries_before rematch_frame 3 true))%nat.
Proof.
  split; [exact rematch_frame_chronological|]. split; [reflexivity|].
  eexists. split.
  - exact (engine_lookup default_config rematch_frame 3 _
             rematch_frame_chronological eq_refl).
  - assert (complete
              (features
                 {| wide_match :=
                      sample_match "A" "B" "A" (mkDate 2015 3 20) "6-0 6-0"
                        45 70;
                    wide_id := 3;
                    wide_elo :=
                      Elo.read
                        (Elo.apply_decay default_config
                           (Elo.state_after default_config Elo.init
                              (take 3 rematch_frame))
                           (year (date (sample_match "A" "B" "A"
                                          (mkDate 2015 3 20) "6-0 6-0" 45 70))))
                        (sample_match "A" "B" "A" (mkDate 2015 3 20) "6-0 6-0"
                           45 70);
                    h2h_advantage :=
                      H2H.advantage
                        (H2H.state_after H2H.init (take 3 rematch_frame))
                        "A" "B";
                    last_winner_indicator :=
                      H2H.last_meeting_direction
                        (H2H.state_after H2H.init (take 3 rematch_frame))
                        "A" "B";
                    wide_p1 :=
                      Some (stats_from default_config
                              (first_row 3
                                 (sample_match "A" "B" "A" (mkDate 2015 3 20)
                                    "6-0 6-0" 45 70))
                              (entries_before rematch_frame 3 true));
                    wide_p2 :=
                      Some (stats_from default_config
                              (second_row 3
                                 (sample_match "A" "B" "A" (mkDate 2015 3 20)
                                    "6-0 6-0" 45 70))
                              (entries_before rematch_frame 3 false)) |})
            = true) as Hcomplete by reflexivity.
    split; [exact Hcomplete|].
    exact (proj1 (proj1
             (kept_rows_have_history default_config rematch_frame 3 _ _
                rematch_frame_chronological eq_refl
                (engine_lookup default_config rematch_frame 3 _
                   rematch_frame_chronological eq_refl)
                Hcomplete) true)).
Defined.

Lemma rematch_frame_5_dates :
  strictly_chronological rematch_frame_5
  ∧ rematch_frame_5 ≠ []
  ∧ Forall (fun m => min_year default_config ≤ year (date m)) rematch_frame_5.
Proof.
  unfold rematch_frame_5, rematch_frame. split; [|split].
  - repeat constructor; by vm_compute.
  - done.
  - repeat constructor; by vm_compute.
Qed.


Lemma output_rows_are_retained_rows_witness :
  sorts_by_date sort_date_stable
  ∧ ∃ evs out,
      preprocess sort_date_stable (table_of rematch_frame_5) default_config
      = (evs, inr out)
      ∧ out_match <$> out
        = [sample_match "A" "B" "A" (mkDate 2015 3 20) "6-0 6-0" 45 70;
           sample_match "B" "A" "B" (mkDate 2015 4 10) "6-3 6-4" 60 44]
      ∧ chronological (out_match <$> out)
      ∧ (length out ≤ length (rows (table_of rematch_frame_5)))%nat
      ∧ Forall (fun o => complete (out_features o) = true) out.
Proof.
  split; [exact sort_date_stable_sorts|].
  destruct rematch_frame_5_dates as (Hs & Hne & Hy).
  pose proof (preprocess_table_of sort_date_stable rematch_frame_5
                sort_date_stable_sorts Hs Hne Hy) as Hpre.
  eexists _, _. split; [exact Hpre|].
  split; [reflexivity|].
  destruct (output_rows_are_retained_rows sort_date_stable default_config
              (table_of rematch_frame_5) _ _ sort_date_stable_sorts Hpre)
    as (_ & Hc & Hlen & Hall).
  split; [exact Hc|]. split; [exact Hlen|].
  eapply Forall_impl; [exact Hall|]. intros o Ho. apply Ho.
Defined.


Lemma twice_named_player_window_witness :
  chronological short_twice_named_frame
  ∧ (3 ≤ rolling_matches default_config)%nat
  ∧ ∃ st1 st2,
      side_stats true <$> engine default_config short_twice_named_frame
        !! 2%nat = Some (Some st1)
      ∧ side_stats false <$> engine default_config short_twice_named_frame
          !! 2%nat = Some (Some st2)
      ∧ Long.form_win_rate st1 = None
      ∧ Long.form_win_rate st2 = Some (mean ([1; 1] ++ [1]))%R.
Proof.
  assert (chronological short_twice_named_frame) as Hc.
  { unfold short_twice_named_frame. repeat constructor; by vm_compute. }
  assert (3 ≤ rolling_matches default_config)%nat as Hw by (simpl; lia).
  split; [exact Hc|]. split; [exact Hw|].
  destruct (twice_named_player_window default_config short_twice_named_frame
              2 (sample_match "A" "A" "A" (mkDate 2015 3 1) "6-1 6-1" 40 40)
              Hc eq_refl eq_refl Hw)
    as (st1 & st2 & H1 & H2 & _ & _ & _ & Hform).
  exists st1, st2. split; [exact H1|]. split; [exact H2|].
  exact (Hform eq_refl).
Defined.

Lemma missing_score_column_aborts_witness :
  Forall (fun c => c ∈ rename_column <$> columns frame_without_score)
    required_columns
  ∧ ("score"%string ∉ rename_column <$> columns frame_without_score)
  ∧ run_pipeline sort_date_stable default_config frame_without_score
    = ([], inl AttributeError).
Proof.
  assert (Forall (fun c => c ∈ rename_column <$> columns frame_without_score)
            required_columns) as Hreq.
  { refine (bool_decide_unpack _ _). by vm_compute. }
  assert ("score"%string ∉ rename_column <$> columns frame_without_score)
    as Hscore.
  { refine (bool_decide_unpack _ _). by vm_compute. }
  split; [exact Hreq|]. split; [exact Hscore|].
  exact (proj2 (missing_score_column_aborts sort_date_stable default_config
                  frame_without_score Hreq Hscore)).
Defined.

Lemma missing_long_column_aborts_witness :
  Forall (fun c => c ∈ rename_column <$> columns frame_without_court)
    required_columns
  ∧ "score"%string ∈ rename_column <$> columns frame_without_court
  ∧ retained default_config (rows frame_without_court) ≠ []
  ∧ "court"%string ∈ long_columns
  ∧ ("court"%string ∉ rename_column <$> columns frame_without_court)
  ∧ ∃ missing,
      "court"%string ∈ missing
      ∧ run_pipeline sort_date_stable default_config frame_without_court
        = ([RatingState; HeadToHeadState], inl (KeyError missing)).
Proof.
  assert (Forall (fun c => c ∈ rename_column <$> columns frame_without_court)
            required_columns) as Hreq.
  { refine (bool_decide_unpack _ _). by vm_compute. }
  assert ("score"%string ∈ rename_column <$> columns frame_without_court)
    as Hscore.
  { refine (bool_decide_unpack _ _). by vm_compute. }
  assert (retained default_config (rows frame_without_court) ≠ []) as Hrows.
  { by vm_compute. }
  assert ("court"%string ∈ long_columns) as Hlong.
  { refine (bool_decide_unpack _ _). by vm_compute. }
  assert ("court"%string ∉ rename_column <$> columns frame_without_court)
    as Hmiss.
  { refine (bool_decide_unpack _ _). by vm_compute. }
  split; [exact Hreq|]. split; [exact Hscore|]. split; [exact Hrows|].
  split; [exact Hlong|]. split; [exact Hmiss|].
  destruct (missing_long_column_aborts sort_date_stable default_config
              frame_without_court "court" Hreq Hscore Hrows Hlong Hmiss)
    as (missing & Hin & _ & Hrun).
  exists missing. split; [exact Hin|exact Hrun].
Defined.

Lemma row_antisymmetric_in_sides_witness :
  chronological rematch_frame
  ∧ player_1 (sample_match "A" "B" "A" (mkDate 2015 3 20) "6-0 6-0" 45 70)
    ≠ player_2 (sample_match "A" "B" "A" (mkDate 2015 3 20) "6-0 6-0" 45 70)
  ∧ features <$>
    engine default_config
      (take 3 rematch_frame
       ++ [swap_sides
             (sample_match "A" "B" "A" (mkDate 2015 3 20) "6-0 6-0" 45 70)])
    !! 3%nat
    = opposite <$> (features <$> engine default_config rematch_frame !! 3%nat).
Proof.
  assert (player_1 (sample_match "A" "B" "A" (mkDate 2015 3 20) "6-0 6-0" 45 70)
          ≠ player_2 (sample_match "A" "B" "A" (mkDate 2015 3 20)
                        "6-0 6-0" 45 70)) as Hne by (by simpl).
  split; [exact rematch_frame_chronological|]. split; [exact Hne|].
  exact (proj1 (row_antisymmetric_in_sides default_config
                  (take 3 rematch_frame)
                  (sample_match "A" "B" "A" (mkDate 2015 3 20) "6-0 6-0" 45 70)
                  [] rematch_frame_chronological Hne)).
Defined.

Lemma parse_score_reads_written_sets_witness :
  [(6, 4); (7, 6)]%nat ≠ []
  ∧ score_text [(6, 4); (7, 6)]%nat = "6-4 7-6"%string
  ∧ Score.parse_score (Some "6-4 7-6"%string) = Score.Tally 13 10 2 0 1.
Proof.
  assert ([(6, 4); (7, 6)]%nat ≠ []) as Hne by discriminate.
  split; [exact Hne|]. split; [reflexivity|].
  exact (parse_score_reads_written_sets [(6, 4); (7, 6)]%nat Hne).
Defined.

Lemma h2h_tables_ignore_order_of_names_witness :
  Forall2 (fun e e' => valid_winner e ∧ player_1 e ≠ player_2 e
                       ∧ (e' = e ∨ e' = swap_sides e))
    (drop 2 rematch_frame)
    [swap_sides (sample_match "A" "B" "B" (mkDate 2015 3 1) "6-7 1-6" 40 60);
     sample_match "A" "B" "A" (mkDate 2015 3 20) "6-0 6-0" 45 70]
  ∧ H2H.state_after (H2H.state_after H2H.init (take 2 rematch_frame))
      [swap_sides (sample_match "A" "B" "B" (mkDate 2015 3 1) "6-7 1-6" 40 60);
       sample_match "A" "B" "A" (mkDate 2015 3 20) "6-0 6-0" 45 70]
    = H2H.state_after (H2H.state_after H2H.init (take 2 rematch_frame))
        (drop 2 rematch_frame).
Proof.
  assert (Forall2 (fun e e' => valid_winner e ∧ player_1 e ≠ player_2 e
                               ∧ (e' = e ∨ e' = swap_sides e))
            (drop 2 rematch_frame)
            [swap_sides
               (sample_match "A" "B" "B" (mkDate 2015 3 1) "6-7 1-6" 40 60);
             sample_match "A" "B" "A" (mkDate 2015 3 20) "6-0 6-0" 45 70])
    as Hsame.
  { simpl. constructor; [|constructor; [|constructor]].
    - split; [by right|]. split; [by simpl|by right].
    - split; [by left|]. split; [by simpl|by left]. }
  split; [exact Hsame|].
  exact (proj1 (h2h_tables_ignore_order_of_names _ _ _ Hsame)).
Defined.

